(** * gemini-oauth-mcp: the multi-account request dispatcher

    A shallow embedding of the quota tracker ([src/accounts/quota.ts]),
    the account rotator ([src/accounts/rotator.ts]), the token manager
    ([src/auth/token.ts]) and the Gemini client ([src/api/client.ts],
    [src/api/transform.ts]), with the properties of the specification
    stated and proved (or refuted) on the embedding.

    Conventions.
    - JavaScript numbers that hold millisecond timestamps and counters
      are integers and are modelled in [Z]; the one place where a
      not-a-number can enter (the [parseInt] of a [Retry-After] header)
      uses the type [num], which adds [NaN].  The quota tracker divides,
      so its numbers are binary64 floats ([PrimFloat]), which is what a
      JavaScript number is.
    - [null] and [undefined] are [None]; the records have the fields
      and the values of the declared types.
    - Every effect of the program is an explicit part of the state
      [World]: the wall clock is the stream of values successive calls
      of [Date.now()] return, the upstream servers are the streams of
      replies successive calls of [fetch] receive, and the injected
      [delayFn] records the delays it was asked for.
    - Exceptions are the [Throw] results of the monad [M]. *)

From Stdlib Require Import ZArith String Ascii Bool Lia PrimFloat.
From stdpp Require Import base option list gmap strings pretty.

Open Scope string_scope.
Open Scope Z_scope.

(** ** JavaScript values *)

(** A JavaScript number that is an integer or [NaN]. *)
Inductive num : Type :=
| Fin (z : Z)
| NaN.

Definition num_add (a b : num) : num :=
  match a, b with
  | Fin x, Fin y => Fin (x + y)
  | _, _ => NaN
  end.

Definition num_mul (a b : num) : num :=
  match a, b with
  | Fin x, Fin y => Fin (x * y)
  | _, _ => NaN
  end.

(** [Math.max(a, b)]: [NaN] as soon as one argument is. *)
Definition num_max (a b : num) : num :=
  match a, b with
  | Fin x, Fin y => Fin (Z.max x y)
  | _, _ => NaN
  end.

(** [a >= b] and [a < b]: every comparison with [NaN] is false. *)
Definition num_geb (a b : num) : bool :=
  match a, b with
  | Fin x, Fin y => y <=? x
  | _, _ => false
  end.

Definition num_ltb (a b : num) : bool :=
  match a, b with
  | Fin x, Fin y => x <? y
  | _, _ => false
  end.

Arguments num_add : simpl never.
Arguments num_mul : simpl never.
Arguments num_max : simpl never.
Arguments num_geb : simpl never.
Arguments num_ltb : simpl never.

(** Truthiness of a string ([""] is falsy) and of nullable values. *)
Definition truthy_string (s : string) : bool :=
  match s with
  | EmptyString => false
  | String _ _ => true
  end.

Definition truthy_ostring (o : option string) : bool :=
  match o with
  | Some s => truthy_string s
  | None => false
  end.

Definition truthy_oZ (o : option Z) : bool :=
  match o with
  | Some z => negb (z =? 0)
  | None => false
  end.

(** [parseInt(s, 10)]: leading white space is skipped, one sign is read,
    then the longest run of decimal digits; no digit gives [NaN]. *)
Definition is_white_space (c : ascii) : bool :=
  let n := nat_of_ascii c in
  ((9 <=? n)%nat && (n <=? 13)%nat) || (n =? 32)%nat.

Fixpoint skip_white_space (s : string) : string :=
  match s with
  | String c rest => if is_white_space c then skip_white_space rest else s
  | EmptyString => s
  end.

Definition digit_of (c : ascii) : option Z :=
  let n := nat_of_ascii c in
  if ((48 <=? n)%nat && (n <=? 57)%nat) then Some (Z.of_nat (n - 48)) else None.

Fixpoint read_digits (acc : option Z) (s : string) : option Z :=
  match s with
  | String c rest =>
      match digit_of c with
      | Some d => read_digits (Some (10 * default 0 acc + d)) rest
      | None => acc
      end
  | EmptyString => acc
  end.

Definition num_of_digits (sign : Z) (o : option Z) : num :=
  match o with
  | Some z => Fin (sign * z)
  | None => NaN
  end.

Definition parseInt10 (s : string) : num :=
  match skip_white_space s with
  | String "-" rest => num_of_digits (-1) (read_digits None rest)
  | String "+" rest => num_of_digits 1 (read_digits None rest)
  | rest => num_of_digits 1 (read_digits None rest)
  end.

(** ** Errors ([src/utils/errors.ts], [src/accounts/rotator.ts]) *)

(** The classes that can be thrown.  [AllAccountsRateLimitedError]
    extends [RateLimitError]; [PlainError] stands for every error that
    is none of the project's classes (a [TypeError] of [fetch], a
    [SyntaxError] of [response.json()]). *)
Inductive Error : Type :=
| AuthenticationError (message : string)
| RateLimitError (message : string) (retryAfter : option Z)
| AllAccountsRateLimitedError (retryAfterMs : Z)
| ApiError (message : string)
| PlainError (message : string).

Definition error_message (e : Error) : string :=
  match e with
  | AuthenticationError m => m
  | RateLimitError m _ => m
  | AllAccountsRateLimitedError _ => "All accounts are currently rate limited"
  | ApiError m => m
  | PlainError m => m
  end.

(** [e instanceof RateLimitError] and [e instanceof ApiError]. *)
Definition instanceof_RateLimitError (e : Error) : bool :=
  match e with
  | RateLimitError _ _ | AllAccountsRateLimitedError _ => true
  | _ => false
  end.

Definition instanceof_ApiError (e : Error) : bool :=
  match e with
  | ApiError _ => true
  | _ => false
  end.

Definition instanceof_AuthenticationError (e : Error) : bool :=
  match e with
  | AuthenticationError _ => true
  | _ => false
  end.

(** ** Accounts ([src/auth/storage.ts], [src/accounts/manager.ts]) *)

Inductive AuthMode : Type := Standard | Antigravity.

Record QuotaStatus : Type := {
  requestsRemaining : option Z;
  tokensRemaining : option Z;
  quotaResetAt : option Z;
  quotaUpdatedAt : Z
}.

Record RateLimitStatus : Type := {
  isLimited : bool;
  limitedUntil : option Z;
  consecutiveHits : Z
}.

Module Account.

Record t : Type := mk {
  id : string;
  email : string;
  refreshToken : string;
  accessToken : option string;
  accessTokenExpiry : option Z;
  authMode : AuthMode;
  projectId : option string;
  quota : QuotaStatus;
  rateLimit : RateLimitStatus;
  createdAt : Z;
  lastUsedAt : Z
}.

End Account.

Record AccountsStorage : Type := {
  version : string;
  activeAccountId : option string;
  accounts : list Account.t;
  updatedAt : Z
}.

(** [accounts.find((a) => a.id === accountId)] *)
Fixpoint find_account (accountId : string) (l : list Account.t) : option Account.t :=
  match l with
  | [] => None
  | a :: rest =>
      if String.eqb (Account.id a) accountId then Some a
      else find_account accountId rest
  end.

(** [AccountManager.getAccount] and [AccountManager.getAccounts] over
    the manager's in-memory account list. *)
Definition manager_getAccount (mgr : list Account.t) (accountId : string) : option Account.t :=
  find_account accountId mgr.

Definition manager_getAccounts (mgr : list Account.t) : list Account.t := mgr.

(** ** Quota tracker ([src/accounts/quota.ts]) *)

Module QuotaData.

Record t : Type := mk {
  used : float;
  limit : float;
  resetAt : option Z
}.

End QuotaData.

Module QuotaInfo.

Record t : Type := mk {
  accountId : string;
  email : string;
  used : float;
  limit : float;
  percentage : float;
  resetAt : option Z;
  isLimited : bool
}.

End QuotaInfo.

Module QuotaTracker.

Definition calculatePercentage (used limit : float) : float :=
  if PrimFloat.eqb limit 0 then 100%float
  else PrimFloat.mul (PrimFloat.div used limit) 100.

(** [used >= limit] *)
Definition isLimited (used limit : float) : bool := PrimFloat.leb limit used.

Definition buildQuotaInfo (accountId email : string) (data : QuotaData.t) : QuotaInfo.t :=
  {| QuotaInfo.accountId := accountId;
     QuotaInfo.email := email;
     QuotaInfo.used := QuotaData.used data;
     QuotaInfo.limit := QuotaData.limit data;
     QuotaInfo.percentage := calculatePercentage (QuotaData.used data) (QuotaData.limit data);
     QuotaInfo.resetAt := QuotaData.resetAt data;
     QuotaInfo.isLimited := isLimited (QuotaData.used data) (QuotaData.limit data) |}.

(** The tracker's state is its map [quotas]; [mgr] is the account list
    of the manager it was built on. *)
Definition updateQuota (mgr : list Account.t) (accountId : string)
    (used limit : float) (resetAt : option Z)
    (quotas : gmap string QuotaData.t) : gmap string QuotaData.t :=
  match manager_getAccount mgr accountId with
  | None => quotas
  | Some _ =>
      <[accountId := {| QuotaData.used := used;
                        QuotaData.limit := limit;
                        QuotaData.resetAt := resetAt |}]> quotas
  end.

Definition getQuota (mgr : list Account.t) (accountId : string)
    (quotas : gmap string QuotaData.t) : option QuotaInfo.t :=
  match manager_getAccount mgr accountId with
  | None => None
  | Some account =>
      match quotas !! accountId with
      | None => None
      | Some quotaData =>
          Some (buildQuotaInfo accountId (Account.email account) quotaData)
      end
  end.

Definition incrementUsage (accountId : string)
    (quotas : gmap string QuotaData.t) : gmap string QuotaData.t :=
  match quotas !! accountId with
  | None => quotas
  | Some quotaData =>
      <[accountId := {| QuotaData.used := PrimFloat.add (QuotaData.used quotaData) 1;
                        QuotaData.limit := QuotaData.limit quotaData;
                        QuotaData.resetAt := QuotaData.resetAt quotaData |}]> quotas
  end.

Definition resetQuota (accountId : string)
    (quotas : gmap string QuotaData.t) : gmap string QuotaData.t :=
  match quotas !! accountId with
  | None => quotas
  | Some quotaData =>
      <[accountId := {| QuotaData.used := 0%float;
                        QuotaData.limit := QuotaData.limit quotaData;
                        QuotaData.resetAt := None |}]> quotas
  end.

End QuotaTracker.

(** ** Upstream servers *)

(** One content part, candidate and body of the generation endpoints
    ([GeminiResponse], [AntigravitySSEData] in [src/api/client.ts]). *)
Record Part : Type := { part_text : option string }.

Record Content : Type := { parts : option (list Part) }.

Record Candidate : Type := { content : option Content }.

Record ErrorBody : Type := { error_body_message : option string }.

Record GeminiResponse : Type := {
  candidates : option (list Candidate);
  error : option ErrorBody
}.

(** A line of a server-sent-event body as [parseAntigravitySSEResponse]
    classifies it: a line it skips (no [data:] prefix, an empty payload
    or the end marker [[DONE]]), a payload [JSON.parse] rejects, or a
    payload with its [response?.candidates]. *)
Inductive SseLine : Type :=
| SseSkipped
| SseMalformed
| SseData (response_candidates : option (list Candidate)).

(** A response of [fetch]: the status, the [Retry-After] header as
    [headers.get] returns it, and the body as the client reads it:
    [json] is the outcome of [response.json()] (the message of the
    error it rejects with, or the value), [text] that of
    [response.text()], [sse] the lines of that text. *)
Record Response : Type := {
  status : Z;
  retryAfterHeader : option string;
  json : string + GeminiResponse;
  text : string;
  sse : list SseLine
}.

(** [response.ok] *)
Definition ok (r : Response) : bool := (200 <=? status r) && (status r <=? 299).

Inductive FetchReply : Type :=
| FetchRejects (message : string)
| FetchResolves (r : Response).

(** What the client sends: the URL, the bearer token, for the extended
    family the project of the envelope, and the contents (a role and
    the texts of its parts, per message). *)
Record Request : Type := {
  url : string;
  bearer : string;
  project : option string;
  contents : list (string * list string)
}.

(** A reply of the token endpoint to a refresh-token grant: [fetch]
    rejects, the body cannot be read as JSON, the grant is refused
    (not [ok], with [error] and [error_description]), or it is granted. *)
Inductive TokenReply : Type :=
| TokenFetchRejects (message : string)
| TokenUnreadable (message : string)
| TokenRefused (error error_description : option string)
| TokenGranted (access_token : string) (expires_in : Z).

(** ** The state of the program *)

(** [RateLimitEntry] of the rotator and [TokenCacheEntry] of the token
    manager. *)
Record RateLimitEntry : Type := {
  entry_accountId : string;
  availableAt : num
}.

Record TokenCacheEntry : Type := {
  cached_accessToken : string;
  expiresAt : Z
}.

(** - [clock], [reads]: [Date.now()] returns [clock reads] and advances
      [reads];
    - [managerData]: [AccountManagerImpl.data];
    - [rateLimits], [currentIndex]: the fields of [AccountRotatorImpl];
    - [quotas]: the map of [QuotaTrackerImpl];
    - [tokenCache], [storageCache]: the fields of [TokenManagerImpl], and
      [disk]: what its [AccountStorage] loads and saves;
    - [tokenEndpoint], [tokenRequests]: the replies of the token endpoint
      and the refresh tokens sent to it so far;
    - [upstream], [requests]: the replies of the generation endpoints and
      the requests sent so far;
    - [delays]: the arguments [delayFn] was called with so far. *)
Record World : Type := {
  clock : nat -> Z;
  reads : nat;
  managerData : AccountsStorage;
  rateLimits : gmap string RateLimitEntry;
  currentIndex : nat;
  quotas : gmap string QuotaData.t;
  tokenCache : gmap string TokenCacheEntry;
  storageCache : option AccountsStorage;
  disk : AccountsStorage;
  tokenEndpoint : nat -> TokenReply;
  tokenRequests : list string;
  upstream : nat -> FetchReply;
  requests : list Request;
  delays : list Z
}.

Definition set_reads (v : nat) (w : World) : World :=
  {| clock := clock w;
     reads := v;
     managerData := managerData w;
     rateLimits := rateLimits w;
     currentIndex := currentIndex w;
     quotas := quotas w;
     tokenCache := tokenCache w;
     storageCache := storageCache w;
     disk := disk w;
     tokenEndpoint := tokenEndpoint w;
     tokenRequests := tokenRequests w;
     upstream := upstream w;
     requests := requests w;
     delays := delays w |}.

Definition set_managerData (v : AccountsStorage) (w : World) : World :=
  {| clock := clock w;
     reads := reads w;
     managerData := v;
     rateLimits := rateLimits w;
     currentIndex := currentIndex w;
     quotas := quotas w;
     tokenCache := tokenCache w;
     storageCache := storageCache w;
     disk := disk w;
     tokenEndpoint := tokenEndpoint w;
     tokenRequests := tokenRequests w;
     upstream := upstream w;
     requests := requests w;
     delays := delays w |}.

Definition set_rateLimits (v : gmap string RateLimitEntry) (w : World) : World :=
  {| clock := clock w;
     reads := reads w;
     managerData := managerData w;
     rateLimits := v;
     currentIndex := currentIndex w;
     quotas := quotas w;
     tokenCache := tokenCache w;
     storageCache := storageCache w;
     disk := disk w;
     tokenEndpoint := tokenEndpoint w;
     tokenRequests := tokenRequests w;
     upstream := upstream w;
     requests := requests w;
     delays := delays w |}.

Definition set_currentIndex (v : nat) (w : World) : World :=
  {| clock := clock w;
     reads := reads w;
     managerData := managerData w;
     rateLimits := rateLimits w;
     currentIndex := v;
     quotas := quotas w;
     tokenCache := tokenCache w;
     storageCache := storageCache w;
     disk := disk w;
     tokenEndpoint := tokenEndpoint w;
     tokenRequests := tokenRequests w;
     upstream := upstream w;
     requests := requests w;
     delays := delays w |}.

Definition set_quotas (v : gmap string QuotaData.t) (w : World) : World :=
  {| clock := clock w;
     reads := reads w;
     managerData := managerData w;
     rateLimits := rateLimits w;
     currentIndex := currentIndex w;
     quotas := v;
     tokenCache := tokenCache w;
     storageCache := storageCache w;
     disk := disk w;
     tokenEndpoint := tokenEndpoint w;
     tokenRequests := tokenRequests w;
     upstream := upstream w;
     requests := requests w;
     delays := delays w |}.

Definition set_tokenCache (v : gmap string TokenCacheEntry) (w : World) : World :=
  {| clock := clock w;
     reads := reads w;
     managerData := managerData w;
     rateLimits := rateLimits w;
     currentIndex := currentIndex w;
     quotas := quotas w;
     tokenCache := v;
     storageCache := storageCache w;
     disk := disk w;
     tokenEndpoint := tokenEndpoint w;
     tokenRequests := tokenRequests w;
     upstream := upstream w;
     requests := requests w;
     delays := delays w |}.

Definition set_storageCache (v : option AccountsStorage) (w : World) : World :=
  {| clock := clock w;
     reads := reads w;
     managerData := managerData w;
     rateLimits := rateLimits w;
     currentIndex := currentIndex w;
     quotas := quotas w;
     tokenCache := tokenCache w;
     storageCache := v;
     disk := disk w;
     tokenEndpoint := tokenEndpoint w;
     tokenRequests := tokenRequests w;
     upstream := upstream w;
     requests := requests w;
     delays := delays w |}.

Definition set_disk (v : AccountsStorage) (w : World) : World :=
  {| clock := clock w;
     reads := reads w;
     managerData := managerData w;
     rateLimits := rateLimits w;
     currentIndex := currentIndex w;
     quotas := quotas w;
     tokenCache := tokenCache w;
     storageCache := storageCache w;
     disk := v;
     tokenEndpoint := tokenEndpoint w;
     tokenRequests := tokenRequests w;
     upstream := upstream w;
     requests := requests w;
     delays := delays w |}.

Definition set_tokenRequests (v : list string) (w : World) : World :=
  {| clock := clock w;
     reads := reads w;
     managerData := managerData w;
     rateLimits := rateLimits w;
     currentIndex := currentIndex w;
     quotas := quotas w;
     tokenCache := tokenCache w;
     storageCache := storageCache w;
     disk := disk w;
     tokenEndpoint := tokenEndpoint w;
     tokenRequests := v;
     upstream := upstream w;
     requests := requests w;
     delays := delays w |}.

Definition set_requests (v : list Request) (w : World) : World :=
  {| clock := clock w;
     reads := reads w;
     managerData := managerData w;
     rateLimits := rateLimits w;
     currentIndex := currentIndex w;
     quotas := quotas w;
     tokenCache := tokenCache w;
     storageCache := storageCache w;
     disk := disk w;
     tokenEndpoint := tokenEndpoint w;
     tokenRequests := tokenRequests w;
     upstream := upstream w;
     requests := v;
     delays := delays w |}.

Definition set_delays (v : list Z) (w : World) : World :=
  {| clock := clock w;
     reads := reads w;
     managerData := managerData w;
     rateLimits := rateLimits w;
     currentIndex := currentIndex w;
     quotas := quotas w;
     tokenCache := tokenCache w;
     storageCache := storageCache w;
     disk := disk w;
     tokenEndpoint := tokenEndpoint w;
     tokenRequests := tokenRequests w;
     upstream := upstream w;
     requests := requests w;
     delays := v |}.

(** ** The monad of the program: state and exceptions *)

Inductive Result (A : Type) : Type :=
| Ok (a : A)
| Throw (e : Error).

Arguments Ok {A} a.
Arguments Throw {A} e.

Definition M (A : Type) : Type := World -> Result A * World.

Definition ret {A : Type} (a : A) : M A := fun w => (Ok a, w).

Definition throw {A : Type} (e : Error) : M A := fun w => (Throw e, w).

Definition bind {A B : Type} (m : M A) (k : A -> M B) : M B :=
  fun w =>
    match m w with
    | (Ok a, w') => k a w'
    | (Throw e, w') => (Throw e, w')
    end.

(** [try { m } catch (error) { h error }] *)
Definition try_catch {A : Type} (m : M A) (h : Error -> M A) : M A :=
  fun w =>
    match m w with
    | (Ok a, w') => (Ok a, w')
    | (Throw e, w') => h e w'
    end.

Definition gets {A : Type} (f : World -> A) : M A := fun w => (Ok (f w), w).

Definition modify (f : World -> World) : M unit := fun w => (Ok tt, f w).

Notation "x <- m ;; k" := (bind m (fun x => k))
  (at level 100, m at next level, right associativity).

Notation "m ;;; k" := (bind m (fun _ => k))
  (at level 100, right associativity).

(** [Date.now()] *)
Definition Date_now : M Z :=
  fun w => (Ok (clock w (reads w)), set_reads (S (reads w)) w).

(** [new Date(t).toISOString()] throws a [RangeError] when [t] is not a
    time value: [NaN], or beyond 8.64e15 ms from the epoch. *)
Definition valid_time (t : num) : bool :=
  match t with
  | Fin z => (-8640000000000000 <=? z) && (z <=? 8640000000000000)
  | NaN => false
  end.

Definition toISOString (t : num) : M unit :=
  if valid_time t then ret tt else throw (PlainError "Invalid time value").

(** ** Account manager: status updates ([src/accounts/manager.ts]) *)

Inductive AccountStatus : Type := StatusActive | StatusReady | StatusLimited.

(** [accounts.findIndex((a) => a.id === accountId)], [None] for [-1] *)
Fixpoint findIndex_account (accountId : string) (l : list Account.t) : option nat :=
  match l with
  | [] => None
  | a :: rest =>
      if String.eqb (Account.id a) accountId then Some 0%nat
      else S <$> findIndex_account accountId rest
  end.

Definition with_rateLimit (a : Account.t) (r : RateLimitStatus) : Account.t :=
  Account.mk (Account.id a) (Account.email a) (Account.refreshToken a)
    (Account.accessToken a) (Account.accessTokenExpiry a) (Account.authMode a)
    (Account.projectId a) (Account.quota a) r (Account.createdAt a)
    (Account.lastUsedAt a).

(** The operation ends by starting a write of the directory to the
    store ([saveData], not awaited); the program does not wait for
    it, and it is left out: what is stated of this operation is stated
    of the directory the manager holds in memory. *)
Definition updateAccountStatus (accountId : string) (st : AccountStatus) : M unit :=
  data <- gets managerData ;;
  match findIndex_account accountId (accounts data) with
  | None => throw (AuthenticationError ("Account not found: " ++ accountId))
  | Some accountIndex =>
      match accounts data !! accountIndex with
      | None => ret tt
      | Some account =>
          now <- Date_now ;;
          let r :=
            match st with
            | StatusLimited =>
                {| isLimited := true;
                   limitedUntil := Some (now + 60 * 1000);
                   consecutiveHits := consecutiveHits (Account.rateLimit account) |}
            | _ =>
                {| isLimited := false;
                   limitedUntil := None;
                   consecutiveHits := consecutiveHits (Account.rateLimit account) |}
            end in
          modify (set_managerData
            {| version := version data;
               activeAccountId := activeAccountId data;
               accounts := <[accountIndex := with_rateLimit account r]> (accounts data);
               updatedAt := now |})
      end
  end.

(** ** Account rotator ([src/accounts/rotator.ts]) *)

(** The filter of [getAvailableAccounts]: an account passes when it has
    no entry or its entry has expired at [now]; an expired entry is
    deleted when it is met. *)
Fixpoint filter_available (now : Z) (l : list Account.t)
    (limits : gmap string RateLimitEntry) : list Account.t * gmap string RateLimitEntry :=
  match l with
  | [] => ([], limits)
  | account :: rest =>
      match limits !! Account.id account with
      | None =>
          let r := filter_available now rest limits in (account :: r.1, r.2)
      | Some entry =>
          if num_geb (Fin now) (availableAt entry) then
            let r := filter_available now rest (delete (Account.id account) limits) in
            (account :: r.1, r.2)
          else filter_available now rest limits
      end
  end.

Definition getAvailableAccounts : M (list Account.t) :=
  allAccounts <- gets (fun w => manager_getAccounts (accounts (managerData w))) ;;
  now <- Date_now ;;
  limits <- gets rateLimits ;;
  let r := filter_available now allAccounts limits in
  modify (set_rateLimits r.2) ;;;
  ret r.1.

(** The loop of [getEarliestRetryTime] over the entries; [None] is
    [Infinity].  The minimum does not depend on the order the entries
    are visited in. *)
Definition earliest_step (earliest : option Z) (entry : RateLimitEntry) : option Z :=
  match availableAt entry, earliest with
  | Fin a, None => Some a
  | Fin a, Some e => if a <? e then Some a else Some e
  | NaN, _ => earliest
  end.

Definition earliest_of (limits : gmap string RateLimitEntry) : option Z :=
  foldl earliest_step None (map_to_list limits).*2.

Definition getEarliestRetryTime : M Z :=
  now <- Date_now ;;
  limits <- gets rateLimits ;;
  match earliest_of limits with
  | None => ret 0
  | Some earliest => ret (Z.max 0 (earliest - now))
  end.

(** The [while (attempts < allAccounts.length)] loop of
    [getNextAccount]; [fuel] is the number of iterations left. *)
Fixpoint scan (fuel : nat) (allAccounts : list Account.t)
    (availableIds : gset string) (cur : nat) : option Account.t * nat :=
  match fuel with
  | O => (None, cur)
  | S fuel' =>
      let index := (cur mod length allAccounts)%nat in
      let cur' := ((cur + 1) mod length allAccounts)%nat in
      match allAccounts !! index with
      | Some account =>
          if decide (Account.id account ∈ availableIds) then (Some account, cur')
          else scan fuel' allAccounts availableIds cur'
      | None => scan fuel' allAccounts availableIds cur'
      end
  end.

Definition getNextAccount : M Account.t :=
  available <- getAvailableAccounts ;;
  match available with
  | [] =>
      retryAfterMs <- getEarliestRetryTime ;;
      throw (AllAccountsRateLimitedError retryAfterMs)
  | first :: _ =>
      allAccounts <- gets (fun w => manager_getAccounts (accounts (managerData w))) ;;
      let availableIds : gset string := list_to_set (Account.id <$> available) in
      cur <- gets currentIndex ;;
      let r := scan (length allAccounts) allAccounts availableIds cur in
      modify (set_currentIndex r.2) ;;;
      match r.1 with
      | Some account => ret account
      | None => ret first
      end
  end.

Definition markRateLimited (accountId : string) (retryAfterMs : num) : M unit :=
  now <- Date_now ;;
  let at_ := num_add (Fin now) retryAfterMs in
  modify (fun w =>
    set_rateLimits
      (<[accountId := {| entry_accountId := accountId; availableAt := at_ |}]>
         (rateLimits w)) w) ;;;
  try_catch (updateAccountStatus accountId StatusLimited) (fun _ => ret tt) ;;;
  toISOString at_.

Definition clearRateLimit (accountId : string) : M unit :=
  wasLimited <- gets (fun w => bool_decide (is_Some (rateLimits w !! accountId))) ;;
  modify (fun w => set_rateLimits (delete accountId (rateLimits w)) w) ;;;
  if wasLimited
  then try_catch (updateAccountStatus accountId StatusReady) (fun _ => ret tt)
  else ret tt.

Definition isRateLimited (accountId : string) : M bool :=
  entry <- gets (fun w => rateLimits w !! accountId) ;;
  match entry with
  | None => ret false
  | Some e =>
      now <- Date_now ;;
      if num_geb (Fin now) (availableAt e) then
        modify (fun w => set_rateLimits (delete accountId (rateLimits w)) w) ;;;
        ret false
      else ret true
  end.

(** ** Token manager ([src/auth/token.ts]) *)

Definition TOKEN_EXPIRY_BUFFER_MS : Z := 5 * 60 * 1000.

(** The comparison of [isExpired] at the clock value [now]. *)
Definition isExpired_at (now expiresAt : Z) : bool :=
  now + TOKEN_EXPIRY_BUFFER_MS >=? expiresAt.

Arguments isExpired_at : simpl never.

Definition isExpired (expiresAt : Z) : M bool :=
  now <- Date_now ;;
  ret (isExpired_at now expiresAt).

(** [AccountStorage.load] and [AccountStorage.save]; the store is taken
    to be reliable: the file can be read and written, and the record
    passes the schema of the store as it is (the check of the record
    against the schema is not modelled). *)
Definition storage_load : M AccountsStorage := gets disk.

Definition storage_save (s : AccountsStorage) : M unit := modify (set_disk s).

Definition getAccount (accountId : string) : M (option Account.t) :=
  cache <- gets storageCache ;;
  storage <-
    match cache with
    | Some s => ret s
    | None =>
        s <- storage_load ;;
        modify (set_storageCache (Some s)) ;;;
        ret s
    end ;;
  ret (find_account accountId (accounts storage)).

Definition cacheToken (accountId accessToken : string) (expiresAt : Z) : M unit :=
  modify (fun w =>
    set_tokenCache
      (<[accountId := {| cached_accessToken := accessToken; expiresAt := expiresAt |}]>
         (tokenCache w)) w).

(** [refreshToken.includes("|") ? refreshToken.split("|")[0] : refreshToken] *)
Fixpoint includes_bar (s : string) : bool :=
  match s with
  | EmptyString => false
  | String c rest => if Ascii.eqb c "|" then true else includes_bar rest
  end.

Fixpoint before_bar (s : string) : string :=
  match s with
  | EmptyString => EmptyString
  | String c rest => if Ascii.eqb c "|" then EmptyString else String c (before_bar rest)
  end.

Definition actualRefreshToken (refreshToken : string) : string :=
  if includes_bar refreshToken then before_bar refreshToken else refreshToken.

(** [a ?? b] *)
Definition nullish {A : Type} (a : option A) (b : A) : A :=
  match a with
  | Some x => x
  | None => b
  end.

Definition callTokenEndpoint (refreshToken : string) : M (string * Z) :=
  reply <- gets (fun w => tokenEndpoint w (length (tokenRequests w))) ;;
  modify (fun w => set_tokenRequests (tokenRequests w ++ [actualRefreshToken refreshToken]) w) ;;;
  match reply with
  | TokenFetchRejects m => throw (PlainError m)
  | TokenUnreadable m => throw (PlainError m)
  | TokenRefused e d =>
      throw (AuthenticationError
               ("Token refresh failed: " ++
                match d with
                | Some x => x
                | None => nullish e "Unknown error"
                end))
  | TokenGranted tok expires_in =>
      now <- Date_now ;;
      ret (tok, now + expires_in * 1000)
  end.

Definition with_token (a : Account.t) (tok : string) (expiry lastUsed : Z) : Account.t :=
  Account.mk (Account.id a) (Account.email a) (Account.refreshToken a)
    (Some tok) (Some expiry) (Account.authMode a)
    (Account.projectId a) (Account.quota a) (Account.rateLimit a)
    (Account.createdAt a) lastUsed.

Definition updateAccountToken (accountId accessToken : string) (expiresAt : Z) : M unit :=
  storage <- storage_load ;;
  match findIndex_account accountId (accounts storage) with
  | None => throw (AuthenticationError ("Account not found: " ++ accountId))
  | Some accountIndex =>
      match accounts storage !! accountIndex with
      | None => ret tt
      | Some existingAccount =>
          lastUsed <- Date_now ;;
          updated <- Date_now ;;
          let storage' :=
            {| version := version storage;
               activeAccountId := activeAccountId storage;
               accounts :=
                 <[accountIndex := with_token existingAccount accessToken expiresAt lastUsed]>
                   (accounts storage);
               updatedAt := updated |} in
          storage_save storage' ;;;
          modify (set_storageCache (Some storage'))
      end
  end.

Definition doRefresh (accountId : string) : M string :=
  account <- getAccount accountId ;;
  match account with
  | None => throw (AuthenticationError ("Account not found: " ++ accountId))
  | Some account =>
      if negb (truthy_string (Account.refreshToken account)) then
        throw (AuthenticationError
                 ("No refresh token available for account: " ++ accountId))
      else
        try_catch
          (response <- callTokenEndpoint (Account.refreshToken account) ;;
           updateAccountToken accountId response.1 response.2 ;;;
           cacheToken accountId response.1 response.2 ;;;
           ret response.1)
          (fun error =>
             if instanceof_AuthenticationError error then throw error
             else throw (AuthenticationError
                           ("Token refresh failed: " ++ error_message error)))
  end.

(** [refreshPromises] holds the refresh in flight for an account from
    the start of [doRefresh] to its end; between two calls that do not
    overlap it is empty, so that a call run to completion is
    [doRefresh]. *)
Definition refreshToken (accountId : string) : M string := doRefresh accountId.

Definition getAccessToken (accountId : string) : M string :=
  cached <- gets (fun w => tokenCache w !! accountId) ;;
  hit <-
    match cached with
    | Some c =>
        expired <- isExpired (expiresAt c) ;;
        ret (if expired then None else Some (cached_accessToken c))
    | None => ret None
    end ;;
  match hit with
  | Some tok => ret tok
  | None =>
      account <- getAccount accountId ;;
      match account with
      | None => throw (AuthenticationError ("Account not found: " ++ accountId))
      | Some account =>
          stored <-
            (if truthy_ostring (Account.accessToken account)
                && truthy_oZ (Account.accessTokenExpiry account)
             then
               match Account.accessToken account, Account.accessTokenExpiry account with
               | Some tok, Some expiry =>
                   expired <- isExpired expiry ;;
                   ret (if expired then None else Some (tok, expiry))
               | _, _ => ret None
               end
             else ret None) ;;
          match stored with
          | Some s => cacheToken accountId s.1 s.2 ;;; ret s.1
          | None => refreshToken accountId
          end
      end
  end.

(** [isTokenExpired] looks at the cache, then at the cached copy of the
    storage; it never loads the storage. *)
Definition isTokenExpired (accountId : string) : M bool :=
  cached <- gets (fun w => tokenCache w !! accountId) ;;
  match cached with
  | Some c => isExpired (expiresAt c)
  | None =>
      cache <- gets storageCache ;;
      match cache with
      | Some s =>
          match find_account accountId (accounts s) with
          | Some account =>
              if truthy_ostring (Account.accessToken account)
                 && truthy_oZ (Account.accessTokenExpiry account)
              then
                match Account.accessTokenExpiry account with
                | Some expiry => isExpired expiry
                | None => ret true
                end
              else ret true
          | None => ret true
          end
      | None => ret true
      end
  end.

(** [clearCache(accountId?)]: the test is [if (accountId)], so that an
    empty id clears everything, as no id does. *)
Definition clearCache (accountId : option string) : M unit :=
  match accountId with
  | Some i =>
      if truthy_string i
      then modify (fun w => set_tokenCache (delete i (tokenCache w)) w)
      else modify (fun w => set_storageCache None (set_tokenCache ∅ w))
  | None => modify (fun w => set_storageCache None (set_tokenCache ∅ w))
  end.

(** ** Account manager: the directory ([src/accounts/manager.ts])

    The flag [initialized] of the manager is passed to the operations
    that read it.  The value [crypto.randomUUID()] returns is the
    argument [uuid] of [addAccount].  The writes to the store that are
    started and not awaited ([saveData().catch(...)] in [removeAccount]
    and [setActiveAccount]) are left out, as in [updateAccountStatus]:
    what is stated of these operations is stated of the directory the
    manager holds in memory.  The write [addAccount] awaits is
    [saveData]. *)

Record AddAccountOptions : Type := {
  new_refreshToken : string;
  new_email : string;
  new_authMode : option AuthMode;
  new_projectId : option string
}.

(** [initialize] returns the new value of the flag. *)
Definition initialize (initialized : bool) : M bool :=
  if initialized then ret true
  else
    data <- storage_load ;;
    modify (set_managerData data) ;;;
    ret true.

Definition ensureInitialized (initialized : bool) : M bool :=
  if negb initialized then initialize initialized else ret initialized.

Definition saveData : M unit :=
  data <- gets managerData ;;
  storage_save data.

Section Directory.

(** [String.prototype.toLowerCase] *)
Variable toLowerCase : string -> string.

(** [(a) => a.email.toLowerCase() === email.toLowerCase()] *)
Definition same_email (email : string) (a : Account.t) : bool :=
  String.eqb (toLowerCase (Account.email a)) (toLowerCase email).

Definition new_account (uuid : string) (options : AddAccountOptions) (now : Z) : Account.t :=
  Account.mk uuid (new_email options) (new_refreshToken options) None None
    (nullish (new_authMode options) Standard) (new_projectId options)
    {| requestsRemaining := None; tokensRemaining := None;
       quotaResetAt := None; quotaUpdatedAt := now |}
    {| isLimited := false; limitedUntil := None; consecutiveHits := 0 |}
    now now.

Definition addAccount (initialized : bool) (uuid : string)
    (options : AddAccountOptions) : M Account.t :=
  ensureInitialized initialized ;;;
  data <- gets managerData ;;
  match List.find (same_email (new_email options)) (accounts data) with
  | Some existingAccount =>
      throw (AuthenticationError
               ("Account with email " ++ new_email options ++ " already exists"))
  | None =>
      now <- Date_now ;;
      let account := new_account uuid options now in
      let pushed := (accounts data ++ [account])%list in
      modify (set_managerData
        {| version := version data;
           activeAccountId :=
             if (length pushed =? 1)%nat then Some (Account.id account)
             else activeAccountId data;
           accounts := pushed;
           updatedAt := now |}) ;;;
      saveData ;;;
      ret account
  end.

End Directory.

(** [accounts.splice(index, 1)] is [delete index]. *)
Definition removeAccount (accountId : string) : M bool :=
  data <- gets managerData ;;
  match findIndex_account accountId (accounts data) with
  | None => ret false
  | Some index =>
      let remaining := delete index (accounts data) in
      now <- Date_now ;;
      modify (set_managerData
        {| version := version data;
           activeAccountId :=
             if bool_decide (activeAccountId data = Some accountId)
             then Account.id <$> head remaining
             else activeAccountId data;
           accounts := remaining;
           updatedAt := now |}) ;;;
      ret true
  end.

Definition setActiveAccount (accountId : string) : M unit :=
  data <- gets managerData ;;
  match manager_getAccount (accounts data) accountId with
  | None => throw (AuthenticationError ("Account not found: " ++ accountId))
  | Some _ =>
      now <- Date_now ;;
      modify (set_managerData
        {| version := version data;
           activeAccountId := Some accountId;
           accounts := accounts data;
           updatedAt := now |})
  end.

Definition getActiveAccount : M (option Account.t) :=
  data <- gets managerData ;;
  match activeAccountId data with
  | Some i =>
      if truthy_string i then ret (manager_getAccount (accounts data) i)
      else ret None
  | None => ret None
  end.

(** ** Response transform ([src/api/transform.ts]) *)

(** The texts [transformFromAntigravity] keeps: those that are neither
    [undefined] nor empty. *)
Definition nonempty_texts (ps : list Part) : list string :=
  omap (fun p =>
          match part_text p with
          | Some t => if truthy_string t then Some t else None
          | None => None
          end) ps.

Definition transformFromAntigravity (response : GeminiResponse) : Result string :=
  match candidates response with
  | None | Some [] => Throw (ApiError "Empty response: no candidates")
  | Some (firstCandidate :: _) =>
      match content firstCandidate with
      | Some {| parts := Some (p :: ps) |} =>
          match nonempty_texts (p :: ps) with
          | [] => Throw (ApiError "Empty response: no text content")
          | textParts => Ok (foldr String.append "" textParts)
          end
      | _ => Throw (ApiError "Empty response: no content parts")
      end
  end.

(** ** Gemini client ([src/api/client.ts]) *)

Definition STANDARD_API_BASE_URL : string :=
  "https://generativelanguage.googleapis.com/v1beta/models".

Definition ANTIGRAVITY_API_BASE_URLS : list string :=
  [ "https://daily-cloudcode-pa.googleapis.com";
    "https://cloudcode-pa.googleapis.com";
    "https://daily-cloudcode-pa.sandbox.googleapis.com" ].

Definition DEFAULT_MODEL : string := "gemini-2.5-flash".

Definition isAntigravityModel (model : string) : bool :=
  String.prefix "gemini-3" model || String.prefix "claude-" model.

Definition MAX_RETRIES : Z := 3.

Definition DEFAULT_RATE_LIMIT_MS : Z := 60000.

Definition BASE_RETRY_DELAY_MS : Z := 1000.

(** [BASE_RETRY_DELAY_MS * Math.pow(2, attempt - 1)]; it is called with
    [attempt >= 1] only. *)
Definition getBackoffDelay (attempt : Z) : Z :=
  BASE_RETRY_DELAY_MS * 2 ^ (attempt - 1).

(** The global [fetch]: the next reply of the upstream. *)
Definition fetch (req : Request) : M Response :=
  reply <- gets (fun w => upstream w (length (requests w))) ;;
  modify (fun w => set_requests (requests w ++ [req]) w) ;;;
  match reply with
  | FetchRejects m => throw (PlainError m)
  | FetchResolves r => ret r
  end.

(** [await response.json()] *)
Definition response_json (r : Response) : M GeminiResponse :=
  match json r with
  | inl m => throw (PlainError m)
  | inr v => ret v
  end.

(** The injected [delayFn]. *)
Definition delayFn (ms : Z) : M unit :=
  modify (fun w => set_delays (delays w ++ [ms]) w).

(** [quotaTracker.incrementUsage] *)
Definition incrementUsage (accountId : string) : M unit :=
  modify (fun w => set_quotas (QuotaTracker.incrementUsage accountId (quotas w)) w).

(** [retryAfterHeader ? parseInt(retryAfterHeader, 10) * 1000 : DEFAULT_RATE_LIMIT_MS] *)
Definition retryAfterMs_of (r : Response) : num :=
  match retryAfterHeader r with
  | Some h =>
      if truthy_string h then num_mul (parseInt10 h) (Fin 1000)
      else Fin DEFAULT_RATE_LIMIT_MS
  | None => Fin DEFAULT_RATE_LIMIT_MS
  end.

Definition extractStandardResponseText (data : GeminiResponse) : M string :=
  match candidates data with
  | None | Some [] => throw (ApiError "Empty response: no candidates")
  | Some (firstCandidate :: _) =>
      match content firstCandidate with
      | Some {| parts := Some (p :: _) |} =>
          match part_text p with
          | Some t =>
              if truthy_string t then ret t
              else throw (ApiError "Empty response: no text content")
          | None => throw (ApiError "Empty response: no text content")
          end
      | _ => throw (ApiError "Empty response: no content parts")
      end
  end.

(** The text one event of the stream contributes. *)
Definition parts_text (ps : list Part) : string :=
  foldl (fun fullText p =>
           match part_text p with
           | Some t => if truthy_string t then fullText ++ t else fullText
           | None => fullText
           end) "" ps.

Definition sse_line_text (l : SseLine) : string :=
  match l with
  | SseData (Some (first :: _)) =>
      match content first with
      | Some {| parts := Some ps |} => parts_text ps
      | _ => ""
      end
  | _ => ""
  end.

Definition parseAntigravitySSEResponse (r : Response) : string :=
  foldl (fun fullText l => fullText ++ sse_line_text l) "" (sse r).

(** The variables of the retry loops, and what one turn of a loop
    does: [continue]s with new values, or [return]s a text (a [throw]
    is in the monad). *)
Record LoopState : Type := {
  lastError : option Error;
  networkRetryCount : Z
}.

Inductive Step : Type :=
| Continue (st : LoopState)
| Return (text : string).

(** [networkRetryCount++; lastError = e; if (networkRetryCount <=
    MAX_RETRIES) await delayFn(getBackoffDelay(networkRetryCount))], and
    on to the next turn of the loop: the statements both loops run
    for a failure that is counted. *)
Definition count_failure (st : LoopState) (e : Error) : M Step :=
  let n := networkRetryCount st + 1 in
  (if n <=? MAX_RETRIES then delayFn (getBackoffDelay n) else ret tt) ;;;
  ret (Continue {| lastError := Some e; networkRetryCount := n |}).

(** The [catch] of both loops. *)
Definition on_error (st : LoopState) (error : Error) : M Step :=
  if instanceof_RateLimitError error || instanceof_ApiError error then throw error
  else count_failure st error.

(** [errorData.error?.message || `HTTP ${response.status}`] *)
Definition errorMessage_of (errorData : GeminiResponse) (r : Response) : string :=
  match error errorData with
  | Some {| error_body_message := Some m |} =>
      if truthy_string m then m else "HTTP " ++ pretty (status r)
  | _ => "HTTP " ++ pretty (status r)
  end.

(** The body of the [while] of [callStandardApi]. *)
Definition callStandardApi_body (contents : list (string * list string))
    (model : string) (st : LoopState) : M Step :=
  account <- getNextAccount ;;
  try_catch
    (accessToken <- getAccessToken (Account.id account) ;;
     let apiUrl := STANDARD_API_BASE_URL ++ "/" ++ model ++ ":generateContent" in
     response <- fetch {| url := apiUrl; bearer := accessToken;
                          project := None; contents := contents |} ;;
     if status response =? 429 then
       markRateLimited (Account.id account) (retryAfterMs_of response) ;;;
       ret (Continue st)
     else if negb (ok response) then
       errorData <- response_json response ;;
       let errorMessage := errorMessage_of errorData response in
       if status response >=? 500 then
         if networkRetryCount st + 1 <=? MAX_RETRIES then
           count_failure st (ApiError ("Server error: " ++ errorMessage))
         else throw (ApiError ("API error: " ++ errorMessage))
       else throw (ApiError ("API error: " ++ errorMessage))
     else
       data <- response_json response ;;
       text <- extractStandardResponseText data ;;
       incrementUsage (Account.id account) ;;;
       ret (Return text))
    (on_error st).

(** [s.slice(0, n)].  A string of the program is a sequence of UTF-16
    code units and [slice] counts these; here a string is the string
    of its UTF-8 bytes, in which a character of one to three bytes is
    one code unit and a character of four bytes is two (a surrogate
    pair).  The bytes of a character follow its first byte, which is
    the one that is not of the form [10xxxxxx]; the first byte of a
    character of four bytes is of the form [1111xxxx].  When the cut
    falls between the two code units of a pair, the string of the
    program ends with a lone surrogate, which has no UTF-8 bytes: it is
    written as the replacement character U+FFFD, as an encoder of the
    platform writes it. *)
Definition is_continuation_byte (c : ascii) : bool :=
  match c with
  | Ascii _ _ _ _ _ _ b6 b7 => b7 && negb b6
  end.

Definition is_four_byte_lead (c : ascii) : bool :=
  match c with
  | Ascii _ _ _ _ b4 b5 b6 b7 => b7 && b6 && b5 && b4
  end.

Definition REPLACEMENT_CHARACTER : string :=
  String (ascii_of_nat 239) (String (ascii_of_nat 191) (String (ascii_of_nat 189) "")).

Fixpoint slice_0 (n : nat) (s : string) : string :=
  match s with
  | EmptyString => ""
  | String c rest =>
      if is_continuation_byte c then String c (slice_0 n rest)
      else
        match n with
        | O => ""
        | S n' =>
            if is_four_byte_lead c then
              match n' with
              | O => REPLACEMENT_CHARACTER
              | S n'' => String c (slice_0 n'' rest)
              end
            else String c (slice_0 n' rest)
        end
  end.

(** What the [for] over the candidate URLs of one attempt ends with: a
    text to return, or all URLs tried, with the number of 429 replies
    and the largest retry time seen. *)
Inductive Endpoints : Type :=
| EndpointReturned (text : string)
| EndpointsTried (rateLimitedEndpointCount : Z) (lastRateLimitRetryMs : num).

Fixpoint try_endpoints (baseUrls : list string) (account : Account.t)
    (accessToken projectId : string) (contents : list (string * list string))
    (rateLimitedEndpointCount : Z) (lastRateLimitRetryMs : num) : M Endpoints :=
  match baseUrls with
  | [] => ret (EndpointsTried rateLimitedEndpointCount lastRateLimitRetryMs)
  | baseUrl :: rest =>
      r <- try_catch
             (response <- fetch {| url := baseUrl ++ "/v1internal:streamGenerateContent?alt=sse";
                                   bearer := accessToken;
                                   project := Some projectId;
                                   contents := contents |} ;;
              if status response =? 429 then
                ret (EndpointsTried (rateLimitedEndpointCount + 1)
                       (num_max lastRateLimitRetryMs (retryAfterMs_of response)))
              else if (status response =? 404) || (status response >=? 500) then
                ret (EndpointsTried rateLimitedEndpointCount lastRateLimitRetryMs)
              else if negb (ok response) then
                throw (ApiError ("Antigravity API error: " ++
                                 slice_0 500 (text response)))
              else
                let text := parseAntigravitySSEResponse response in
                if truthy_string text then
                  incrementUsage (Account.id account) ;;;
                  ret (EndpointReturned text)
                else throw (ApiError "Empty response from Antigravity API"))
             (fun error =>
                if instanceof_ApiError error then throw error
                else ret (EndpointsTried rateLimitedEndpointCount lastRateLimitRetryMs)) ;;
      match r with
      | EndpointReturned text => ret (EndpointReturned text)
      | EndpointsTried c l => try_endpoints rest account accessToken projectId contents c l
      end
  end.

(** The body of the [while] of [callAntigravityApi]. *)
Definition callAntigravityApi_body (contents : list (string * list string))
    (model : string) (st : LoopState) : M Step :=
  account <- getNextAccount ;;
  match Account.projectId account with
  | Some projectId =>
      if truthy_string projectId then
        try_catch
          (accessToken <- getAccessToken (Account.id account) ;;
           Date_now ;;; (* generateRequestId() *)
           Date_now ;;; (* generateSessionId() *)
           r <- try_endpoints ANTIGRAVITY_API_BASE_URLS account accessToken projectId
                  contents 0 (Fin DEFAULT_RATE_LIMIT_MS) ;;
           match r with
           | EndpointReturned text => ret (Return text)
           | EndpointsTried rateLimitedEndpointCount lastRateLimitRetryMs =>
               (if rateLimitedEndpointCount =? Z.of_nat (length ANTIGRAVITY_API_BASE_URLS)
                then markRateLimited (Account.id account) lastRateLimitRetryMs
                else ret tt) ;;;
               count_failure st (ApiError "All Antigravity endpoints failed")
           end)
          (on_error st)
      else ret (Continue st)
  | None => ret (Continue st)
  end.

(** The [while (networkRetryCount <= MAX_RETRIES)] loops and the
    [throw] that follows them.  [fuel] bounds the number of turns: a
    loop that has not finished when it runs out is still [Running]. *)
Inductive Outcome : Type :=
| Returned (text : string)
| Raised (e : Error)
| Running (st : LoopState).

(** [lastError?.message || "Unknown error"] *)
Definition lastError_message (st : LoopState) : string :=
  match lastError st with
  | Some e => if truthy_string (error_message e) then error_message e else "Unknown error"
  | None => "Unknown error"
  end.

Fixpoint retry_loop (body : LoopState -> M Step) (prefix : string)
    (fuel : nat) (st : LoopState) (w : World) : Outcome * World :=
  if networkRetryCount st <=? MAX_RETRIES then
    match fuel with
    | O => (Running st, w)
    | S fuel' =>
        match body st w with
        | (Ok (Continue st'), w') => retry_loop body prefix fuel' st' w'
        | (Ok (Return text), w') => (Returned text, w')
        | (Throw e, w') => (Raised e, w')
        end
    end
  else
    (Raised (ApiError (prefix ++ " failed after " ++ pretty MAX_RETRIES ++ " retries: "
                       ++ lastError_message st)), w).

Definition initial : LoopState := {| lastError := None; networkRetryCount := 0 |}.

Definition callStandardApi (fuel : nat) (contents : list (string * list string))
    (model : string) (w : World) : Outcome * World :=
  retry_loop (callStandardApi_body contents model) "Request" fuel initial w.

Definition callAntigravityApi (fuel : nat) (contents : list (string * list string))
    (model : string) (w : World) : Outcome * World :=
  retry_loop (callAntigravityApi_body contents model) "Antigravity request" fuel initial w.

Definition callApi (fuel : nat) (contents : list (string * list string))
    (model : string) (w : World) : Outcome * World :=
  if isAntigravityModel model then callAntigravityApi fuel contents model w
  else callStandardApi fuel contents model w.

Definition generateContent (fuel : nat) (prompt : string) (model : option string)
    (w : World) : Outcome * World :=
  callApi fuel [("user", [prompt])] (nullish model DEFAULT_MODEL) w.

Definition chat (fuel : nat) (messages : list (string * string)) (model : option string)
    (w : World) : Outcome * World :=
  callApi fuel ((fun msg => (msg.1, [msg.2])) <$> messages) (nullish model DEFAULT_MODEL) w.

(** ** The tools ([src/tools/chat.ts], [src/tools/generate.ts],
    [src/tools/auth.ts]) as the server wires them ([src/server.ts])

    A string of the program is the string of its UTF-8 bytes here;
    the texts of the tools hold characters outside ASCII. *)

Record ToolResponse : Type := {
  response_text : string;
  response_isError : bool
}.

(** The line feed of the template literals. *)
Definition LF : string := String "010"%char EmptyString.

Definition DEFAULT_CHAT_MODEL : string := "gemini-2.5-flash".

Definition DEFAULT_GENERATE_MODEL : string := "gemini-2.5-flash".

Definition MAX_RATE_LIMIT_RETRIES : Z := 3.

(** [getCurrentEmail(rotator)] of the server: it asks the rotator for
    its next account. *)
Definition getCurrentEmail : M string :=
  try_catch
    (account <- getNextAccount ;;
     ret (Account.email account))
    (fun _ => ret "unknown").

Definition formatRateLimitWarning (oldEmail newEmail : string) : string :=
  "⚠ Rate limit on " ++ oldEmail ++ LF ++ "  → Switching to " ++ newEmail ++ LF ++ LF.

(** What a handler ends with: a response, an error that leaves it (a
    rejected promise), or, when the fuel of a loop runs out, still at
    work. *)
Inductive Handled : Type :=
| Responded (response : ToolResponse)
| Escaped (e : Error)
| Pending.

Section ChatTools.

(** [formatModelDisplayName] splits the model name at its hyphens and
    puts the first character of each part in upper case
    ([String.prototype.toUpperCase], which is not modelled). *)
Variable formatModelDisplayName : string -> string.

(** [formatChatResponse] and [formatGenerateResponse] *)
Definition formatChatResponse (response model email : string) : string :=
  "[" ++ formatModelDisplayName model ++ " via " ++ email ++ "]" ++ LF ++ LF ++ response.

(** The [while (retryCount <= MAX_RATE_LIMIT_RETRIES)] of [handleChat]
    and of [handleGenerateContent], which differ in the text after the
    loop only; [call] is [client.generateContent(...)]. *)
Fixpoint handler_loop (call : World -> Outcome * World) (model unexpected : string)
    (turns : nat) (retryCount : Z) (rateLimitWarnings currentEmail : string)
    (w : World) : Handled * World :=
  if retryCount <=? MAX_RATE_LIMIT_RETRIES then
    match turns with
    | O => (Pending, w)
    | S turns' =>
        match call w with
        | (Returned response, w1) =>
            (Responded
               {| response_text :=
                    rateLimitWarnings ++ formatChatResponse response model currentEmail;
                  response_isError := false |}, w1)
        | (Running _, w1) => (Pending, w1)
        | (Raised error, w1) =>
            if instanceof_RateLimitError error then
              if retryCount + 1 >? MAX_RATE_LIMIT_RETRIES then
                (Responded
                   {| response_text :=
                        "Error: All accounts are rate limited. Please try again later.";
                      response_isError := true |}, w1)
              else
                (* rotator.getNextAccount(), in the catch block *)
                match getNextAccount w1 with
                | (Throw e, w2) => (Escaped e, w2)
                | (Ok _, w2) =>
                    match getCurrentEmail w2 with
                    | (Throw e, w3) => (Escaped e, w3)
                    | (Ok newEmail, w3) =>
                        handler_loop call model unexpected turns' (retryCount + 1)
                          (if String.eqb currentEmail newEmail then rateLimitWarnings
                           else rateLimitWarnings
                                ++ formatRateLimitWarning currentEmail newEmail)
                          newEmail w3
                    end
                end
            else
              (Responded
                 {| response_text := "Error: " ++ error_message error;
                    response_isError := true |}, w1)
        end
    end
  else
    (Responded {| response_text := unexpected; response_isError := true |}, w).

Definition handleChat (fuel : nat) (message : string) (model : option string)
    (w : World) : Handled * World :=
  let model := nullish model DEFAULT_CHAT_MODEL in
  match getCurrentEmail w with
  | (Throw e, w1) => (Escaped e, w1)
  | (Ok currentEmail, w1) =>
      handler_loop (generateContent fuel message (Some model)) model
        "Error: Unexpected error in chat handler" fuel 0 "" currentEmail w1
  end.

Definition handleGenerateContent (fuel : nat) (prompt : string) (model : option string)
    (w : World) : Handled * World :=
  let model := nullish model DEFAULT_GENERATE_MODEL in
  match getCurrentEmail w with
  | (Throw e, w1) => (Escaped e, w1)
  | (Ok currentEmail, w1) =>
      handler_loop (generateContent fuel prompt (Some model)) model
        "Error: Unexpected error in generate handler" fuel 0 "" currentEmail w1
  end.

End ChatTools.

(** The texts of [auth_remove]. *)
Definition formatRemoveSuccess (email : string) (remainingAccounts : nat) : string :=
  "✓ Account removed" ++ LF ++ LF ++
  "  Removed: " ++ email ++ LF ++
  "  Remaining: " ++ pretty (Z.of_nat remainingAccounts) ++ " " ++
  (if (remainingAccounts =? 1)%nat then "account" else "accounts").

Definition formatRemoveNotFound (searchTerm : string) : string :=
  "✗ Account not found" ++ LF ++ LF ++
  "  Searched for: " ++ searchTerm ++ LF ++ LF ++
  "Use auth_list to see registered accounts.".

Definition formatRemoveLastAccount : string :=
  "✗ Cannot remove last account" ++ LF ++ LF ++
  "  At least one account must remain registered." ++ LF ++ LF ++
  "To add a new account before removing:" ++ LF ++
  "  → Use auth_login first".

Section AuthTools.

Variable toLowerCase : string -> string.

Definition handleAuthRemove (account_id : string) : M ToolResponse :=
  try_catch
    (listed <- gets (fun w => manager_getAccounts (accounts (managerData w))) ;;
     byId <- gets (fun w => manager_getAccount (accounts (managerData w)) account_id) ;;
     let targetAccount :=
       match byId with
       | Some a => Some a
       | None => List.find (same_email toLowerCase account_id) listed
       end in
     match targetAccount with
     | None =>
         ret {| response_text := formatRemoveNotFound account_id;
                response_isError := true |}
     | Some target =>
         if (length listed =? 1)%nat then
           ret {| response_text := formatRemoveLastAccount; response_isError := true |}
         else
           removed <- removeAccount (Account.id target) ;;
           if negb removed then
             ret {| response_text := formatRemoveNotFound account_id;
                    response_isError := true |}
           else
             remainingAccounts <-
               gets (fun w => length (manager_getAccounts (accounts (managerData w)))) ;;
             ret {| response_text :=
                      formatRemoveSuccess (Account.email target) remainingAccounts;
                    response_isError := false |}
     end)
    (fun error =>
       ret {| response_text := "[ERROR] Failed to remove account: " ++ error_message error;
              response_isError := true |}).

End AuthTools.

(** ** Concrete worlds

    Small worlds on which the definitions are run: accounts as the
    enrolment flow creates them, a clock that stands still, scripted
    upstream replies. *)

Definition no_quota : QuotaStatus :=
  {| requestsRemaining := None; tokensRemaining := None;
     quotaResetAt := None; quotaUpdatedAt := 0 |}.

Definition not_limited : RateLimitStatus :=
  {| isLimited := false; limitedUntil := None; consecutiveHits := 0 |}.

Definition account_of (accountId email : string) (token : option string)
    (expiry : option Z) (projectId : option string) : Account.t :=
  Account.mk accountId email "refresh-token" token expiry
    (match projectId with Some _ => Antigravity | None => Standard end)
    projectId no_quota not_limited 0 0.

Definition storage_of (l : list Account.t) : AccountsStorage :=
  {| version := "1.0.0";
     activeAccountId := Account.id <$> head l;
     accounts := l;
     updatedAt := 0 |}.

(** A freshly started program over the accounts [l], at clock value
    [now] for ever, with the given upstream replies. *)
Definition fresh_world (now : Z) (l : list Account.t)
    (tokenReplies : nat -> TokenReply) (replies : nat -> FetchReply) : World :=
  {| clock := fun _ => now;
     reads := 0;
     managerData := storage_of l;
     rateLimits := ∅;
     currentIndex := 0;
     quotas := ∅;
     tokenCache := ∅;
     storageCache := None;
     disk := storage_of l;
     tokenEndpoint := tokenReplies;
     tokenRequests := [];
     upstream := replies;
     requests := [];
     delays := [] |}.

(** Replies from a list, in order; [d] once the list is used up. *)
Definition scripted {A : Type} (l : list A) (d : A) : nat -> A :=
  fun k => nth k l d.

Definition text_response (parts_ : list string) : Response :=
  {| status := 200;
     retryAfterHeader := None;
     json := inr {| candidates :=
                      Some [ {| content :=
                                  Some {| parts :=
                                            Some ((fun t => {| part_text := Some t |}) <$> parts_) |} |} ];
                    error := None |};
     text := "";
     sse := [ SseData
                (Some [ {| content :=
                             Some {| parts :=
                                       Some ((fun t => {| part_text := Some t |}) <$> parts_) |} |} ]) ] |}.

Definition status_response (code : Z) (retryAfter : option string) (message : string) : Response :=
  {| status := code;
     retryAfterHeader := retryAfter;
     json := inr {| candidates := None;
                    error := Some {| error_body_message := Some message |} |};
     text := message;
     sse := [] |}.

(** Three accounts holding tokens that are good for an hour. *)
Definition three_accounts : list Account.t :=
  [ account_of "account-1" "user1@example.com" (Some "token-1") (Some 3600000) (Some "project-1");
    account_of "account-2" "user2@example.com" (Some "token-2") (Some 3600000) (Some "project-2");
    account_of "account-3" "user3@example.com" (Some "token-3") (Some 3600000) (Some "project-3") ].

Definition never_granted : nat -> TokenReply :=
  fun _ => TokenRefused (Some "invalid_grant") None.

(** One account whose stored token expires [left] milliseconds after
    the clock value 1000000, and a token endpoint that grants. *)
Definition expiring_account (left : Z) : Account.t :=
  account_of "account-1" "user1@example.com" (Some "token-1") (Some (1000000 + left)) None.

Definition expiring_world (left : Z) : World :=
  fresh_world 1000000 [expiring_account left]
    (fun _ => TokenGranted "token-2" 3600)
    (fun _ => FetchRejects "Network error").

(** The first reply is a 429 with [Retry-After: 60], the second a
    successful response whose first candidate has two text parts. *)
Definition partial_429_world : World :=
  fresh_world 0 three_accounts never_granted
    (scripted [ FetchResolves (status_response 429 (Some "60") "slow down");
                FetchResolves (text_response ["Hello, "; "world"]) ]
       (FetchRejects "Network error")).

(** Three accounts as enrolment leaves them (no access token yet), and
    a token endpoint that refuses every refresh token. *)
Definition enrolled_accounts : list Account.t :=
  [ account_of "account-1" "user1@example.com" None None None;
    account_of "account-2" "user2@example.com" None None None;
    account_of "account-3" "user3@example.com" None None None ].

Definition revoked_world : World :=
  fresh_world 0 enrolled_accounts never_granted
    (fun _ => FetchResolves (text_response ["never requested"])).

(** Every candidate URL replies 429 with [Retry-After: 30]. *)
Definition all_429_world : World :=
  fresh_world 0 three_accounts never_granted
    (fun _ => FetchResolves (status_response 429 (Some "30") "slow down")).

(** The first candidate URL replies 503, the second with a text. *)
Definition unavailable_then_ok_world : World :=
  fresh_world 0 three_accounts never_granted
    (scripted [ FetchResolves (status_response 503 None "unavailable");
                FetchResolves (text_response ["Hello, "; "world"]) ]
       (FetchRejects "Network error")).

(** The three accounts with their tokens in the cache of the token
    manager, and an upstream that cannot be reached. *)
Definition network_down_world : World :=
  set_tokenCache
    (<["account-1" := {| cached_accessToken := "token-1"; expiresAt := 3600000 |}]>
       (<["account-2" := {| cached_accessToken := "token-2"; expiresAt := 3600000 |}]>
          (<["account-3" := {| cached_accessToken := "token-3"; expiresAt := 3600000 |}]> ∅)))
    (fresh_world 0 three_accounts never_granted (fun _ => FetchRejects "Network error")).

(** Every reply is a successful response whose first candidate has the
    two text parts ["Hello, "] and ["world"]; the first account has a
    quota record. *)
Definition two_parts_world : World :=
  set_quotas (<["account-1" := QuotaData.mk 5 100 None]> ∅)
    (fresh_world 0 three_accounts never_granted
       (fun _ => FetchResolves (text_response ["Hello, "; "world"]))).

(** An empty directory, at clock value 1000. *)
Definition empty_directory_world : World :=
  fresh_world 1000 [] never_granted (fun _ => FetchRejects "Network error").

(** One account, and a clock that reads 0 first and 2000 from then on. *)
Definition one_account_world : World :=
  set_reads 0
    {| clock := fun k => match k with O => 0 | S _ => 2000 end;
       reads := 0;
       managerData := storage_of [account_of "account-1" "user1@example.com" None None None];
       rateLimits := ∅;
       currentIndex := 0;
       quotas := ∅;
       tokenCache := ∅;
       storageCache := None;
       disk := storage_of [account_of "account-1" "user1@example.com" None None None];
       tokenEndpoint := never_granted;
       tokenRequests := [];
       upstream := fun _ => FetchRejects "Network error";
       requests := [];
       delays := [] |}.


(** [toLowerCase] on strings of ASCII characters. *)
Definition lower_ascii (c : ascii) : ascii :=
  let n := nat_of_ascii c in
  if ((65 <=? n)%nat && (n <=? 90)%nat) then ascii_of_nat (n + 32) else c.

Fixpoint lower_string (s : string) : string :=
  match s with
  | EmptyString => EmptyString
  | String c rest => String (lower_ascii c) (lower_string rest)
  end.


(** The options of a fourth account, and a world in which the token
    manager has loaded its copy of the storage. *)
Definition fourth_account : AddAccountOptions :=
  {| new_refreshToken := "refresh-4"; new_email := "user4@example.com";
     new_authMode := None; new_projectId := None |}.

Definition warmed_up_world : World :=
  (getAccessToken "account-1" revoked_world).2.


(** The first reply is a 429 whose [Retry-After] header is an HTTP
    date. *)
Definition http_date_429_world : World :=
  fresh_world 0 three_accounts never_granted
    (scripted [ FetchResolves
                  (status_response 429 (Some "Wed, 21 Oct 2015 07:28:00 GMT") "slow down") ]
       (FetchRejects "Network error")).


(** The three accounts with their tokens in the cache of the token
    manager, and an upstream that answers ["Hello"]. *)
Definition chat_world : World :=
  set_tokenCache
    (<["account-1" := {| cached_accessToken := "token-1"; expiresAt := 3600000 |}]>
       (<["account-2" := {| cached_accessToken := "token-2"; expiresAt := 3600000 |}]>
          (<["account-3" := {| cached_accessToken := "token-3"; expiresAt := 3600000 |}]> ∅)))
    (fresh_world 0 three_accounts never_granted
       (fun _ => FetchResolves (text_response ["Hello"]))).

(** The three accounts, each marked until the clock value 60000, at
    the clock value 0 for ever. *)
Definition all_marked_world : World :=
  set_rateLimits
    (<["account-1" := {| entry_accountId := "account-1"; availableAt := Fin 60000 |}]>
       (<["account-2" := {| entry_accountId := "account-2"; availableAt := Fin 60000 |}]>
          (<["account-3" := {| entry_accountId := "account-3"; availableAt := Fin 60000 |}]>
             ∅)))
    (fresh_world 0 three_accounts never_granted (fun _ => FetchRejects "Network error")).

(** The three accounts with their tokens in the cache of the token
    manager, and an upstream that answers every request with a 429
    carrying [Retry-After: 0]. *)
Definition retry_at_once_world : World :=
  set_tokenCache
    (<["account-1" := {| cached_accessToken := "token-1"; expiresAt := 3600000 |}]>
       (<["account-2" := {| cached_accessToken := "token-2"; expiresAt := 3600000 |}]>
          (<["account-3" := {| cached_accessToken := "token-3"; expiresAt := 3600000 |}]> ∅)))
    (fresh_world 0 three_accounts never_granted
       (fun _ => FetchResolves (status_response 429 (Some "0") "slow down"))).

(** The first candidate URL replies 503, every other request is
    answered 403. *)
Definition forbidden_world : World :=
  fresh_world 0 three_accounts never_granted
    (scripted [ FetchResolves (status_response 503 None "unavailable") ]
       (FetchResolves (status_response 403 None "Permission denied"))).

(** ** Auxiliary notions of the statements *)

(** Whether the filter of [getAvailableAccounts] lets an account id
    pass at [now]. *)
Definition available_at (now : Z) (limits : gmap string RateLimitEntry)
    (accountId : string) : bool :=
  match limits !! accountId with
  | None => true
  | Some entry => num_geb (Fin now) (availableAt entry)
  end.

(** The world [getAvailableAccounts] leaves: one reading of the clock
    taken, the expired entries of the listed accounts deleted. *)
Definition swept (w : World) : World :=
  set_rateLimits
    (filter_available (clock w (reads w)) (accounts (managerData w)) (rateLimits w)).2
    (set_reads (S (reads w)) w).

(** The storage [getAccount] looks an account up in: the cached copy
    when there is one, what the store holds otherwise. *)
Definition storage_view (w : World) : AccountsStorage :=
  match storageCache w with
  | Some s => s
  | None => disk w
  end.

(** [m] changes the world only along the relation [R]. *)
Definition framed {A : Type} (R : relation World) (m : M A) : Prop :=
  forall w r w', m w = (r, w') -> R w w'.

(** What the token manager leaves alone: everything but its own
    fields and the clock readings it takes. *)
Definition token_frame (w w' : World) : Prop :=
  clock w' = clock w /\ managerData w' = managerData w /\
  rateLimits w' = rateLimits w /\ currentIndex w' = currentIndex w /\
  quotas w' = quotas w /\ upstream w' = upstream w /\
  requests w' = requests w /\ delays w' = delays w /\
  tokenEndpoint w' = tokenEndpoint w /\ (reads w <= reads w')%nat.

(** What the calls of the generation endpoints leave alone: all but
    the log of requests and the quota counters. *)
Definition net_frame (w w' : World) : Prop :=
  clock w' = clock w /\ reads w' = reads w /\ managerData w' = managerData w /\
  rateLimits w' = rateLimits w /\ currentIndex w' = currentIndex w /\
  delays w' = delays w /\ upstream w' = upstream w /\
  tokenRequests w' = tokenRequests w.

(** The reply the [i]-th next call of [fetch] receives. *)
Definition next_reply (w : World) (i : nat) : FetchReply :=
  upstream w (length (requests w) + i).

Definition is_429 (reply : FetchReply) : bool :=
  match reply with
  | FetchResolves r => status r =? 429
  | FetchRejects _ => false
  end.

(** A reply after which the extended family moves on to the next
    candidate URL: a network failure, or a 429, 404 or 5xx status. *)
Definition moves_on (reply : FetchReply) : bool :=
  match reply with
  | FetchResolves r => (status r =? 429) || (status r =? 404) || (status r >=? 500)
  | FetchRejects _ => true
  end.

(** The world once a request is sent, and once a delay is taken. *)
Definition sent (req : Request) (w : World) : World :=
  set_requests (requests w ++ [req]) w.

Definition waited (ms : Z) (w : World) : World :=
  set_delays (delays w ++ [ms]) w.

Definition antigravity_request (baseUrl accessToken projectId : string)
    (contents : list (string * list string)) : Request :=
  {| url := baseUrl ++ "/v1internal:streamGenerateContent?alt=sse";
     bearer := accessToken;
     project := Some projectId;
     contents := contents |}.

Definition standard_request (model accessToken : string)
    (contents : list (string * list string)) : Request :=
  {| url := STANDARD_API_BASE_URL ++ "/" ++ model ++ ":generateContent";
     bearer := accessToken;
     project := None;
     contents := contents |}.

(** The world once [generateRequestId] and [generateSessionId] have
    read the clock. *)
Definition stamped (w : World) : World := set_reads (S (S (reads w))) w.

(** The body of the loop [callApi] runs for a model. *)
Definition attempt_body (contents : list (string * list string)) (model : string)
    (st : LoopState) : M Step :=
  if isAntigravityModel model then callAntigravityApi_body contents model st
  else callStandardApi_body contents model st.

(** [s.length]: the number of UTF-16 code units of a string given by
    its UTF-8 bytes. *)
Fixpoint utf16_length (s : string) : nat :=
  match s with
  | EmptyString => 0
  | String c rest =>
      ((if is_continuation_byte c then 0
        else if is_four_byte_lead c then 2 else 1) + utf16_length rest)%nat
  end.

(** The retry time an attempt of the extended family marks its account
    with when its three candidate URLs replied 429: the largest of the
    default and the retry times of the three replies. *)
Definition all_429_retry_ms (r1 r2 r3 : Response) : num :=
  num_max (num_max (num_max (Fin DEFAULT_RATE_LIMIT_MS) (retryAfterMs_of r1))
             (retryAfterMs_of r2)) (retryAfterMs_of r3).

(** A reply that is a transient failure: [fetch] rejects, or the status
    is 5xx. *)
Definition is_transient (reply : FetchReply) : bool :=
  match reply with
  | FetchResolves r => status r >=? 500
  | FetchRejects _ => true
  end.

(** The retry time the specification associates with a 429 response:
    60000 ms without a [Retry-After] header, a thousand times the
    seconds the header reads as otherwise. *)
Definition claimed_retry_ms (r : Response) : option Z :=
  match retryAfterHeader r with
  | None => Some 60000
  | Some h =>
      match parseInt10 h with
      | Fin seconds => Some (seconds * 1000)
      | NaN => None
      end
  end.

(** The three rules the specification states for every generate call,
    as properties of an attempt for the model [model]: an account is
    selected (one with a project in the extended family), and either
    its token is obtained and the next reply of the upstream is as
    described, or obtaining the token fails.

    [rate_limit_rule]: on a 429 reply whose retry time can be read
    (no [Retry-After] header, or one that reads as a number of
    seconds) and gives a valid date when added to the time of the
    mark ([Date.now()], the clock reading that follows the token
    request), the account is marked until that date, and the loop
    continues with its variables unchanged and no delay. *)
Definition rate_limit_rule (model : string) : Prop :=
  forall contents st w account w1 accessToken w2 r ms,
    getNextAccount w = (Ok account, w1) ->
    (isAntigravityModel model = true ->
     truthy_ostring (Account.projectId account) = true) ->
    getAccessToken (Account.id account) w1 = (Ok accessToken, w2) ->
    next_reply w2 0 = FetchResolves r ->
    status r = 429 ->
    claimed_retry_ms r = Some ms ->
    valid_time (Fin (clock w (reads w2) + ms)) = true ->
    exists w',
      attempt_body contents model st w = (Ok (Continue st), w') /\
      rateLimits w' =
        <[Account.id account :=
            {| entry_accountId := Account.id account;
               availableAt := Fin (clock w (reads w2) + ms) |}]> (rateLimits w2) /\
      delays w' = delays w.

(** [transient_rule]: a network failure or 5xx reply consumes one unit
    of the budget, followed by the delay [1000 * 2^(k-1)] before retry
    [k]; with the budget used up, an [ApiError] is thrown. *)
Definition transient_rule (model : string) : Prop :=
  forall contents st w account w1 accessToken w2,
    getNextAccount w = (Ok account, w1) ->
    (isAntigravityModel model = true ->
     truthy_ostring (Account.projectId account) = true) ->
    getAccessToken (Account.id account) w1 = (Ok accessToken, w2) ->
    is_transient (next_reply w2 0) = true ->
    0 <= networkRetryCount st <= MAX_RETRIES ->
    match attempt_body contents model st w with
    | (Ok (Continue st'), w') =>
        networkRetryCount st' = networkRetryCount st + 1 /\
        delays w' =
          if networkRetryCount st' <=? MAX_RETRIES
          then (delays w ++ [1000 * 2 ^ (networkRetryCount st' - 1)])%list
          else delays w
    | (Throw (ApiError _), w') =>
        networkRetryCount st = MAX_RETRIES /\ delays w' = delays w
    | _ => False
    end.

(** [auth_error_rule]: an authentication error of the token manager is
    thrown on by the attempt, with nothing done after it. *)
Definition auth_error_rule (model : string) : Prop :=
  forall contents st w account w1 e w2,
    getNextAccount w = (Ok account, w1) ->
    (isAntigravityModel model = true ->
     truthy_ostring (Account.projectId account) = true) ->
    getAccessToken (Account.id account) w1 = (Throw e, w2) ->
    instanceof_AuthenticationError e = true ->
    attempt_body contents model st w = (Throw e, w2).

(** A world in which every selection and every token request of a run
    succeeds: some listed account can pass the rotator's filter, and
    every listed account has a cached token that never expires. *)
Definition serving (w : World) : Prop :=
  (exists a, a ∈ accounts (managerData w) /\
             available_at (clock w (reads w)) (rateLimits w) (Account.id a) = true) /\
  (forall a, a ∈ accounts (managerData w) ->
             exists c, tokenCache w !! Account.id a = Some c /\
                       forall k, isExpired_at (clock w k) (expiresAt c) = false).

(** The error a transient failure leaves in [lastError], and the
    message of the [ApiError] the standard family throws when the
    fourth attempt in a row fails with the reply [reply]. *)
Definition transient_error (reply : FetchReply) : Error :=
  match reply with
  | FetchRejects m => PlainError m
  | FetchResolves r =>
      match json r with
      | inl m => PlainError m
      | inr data => ApiError ("Server error: " ++ errorMessage_of data r)
      end
  end.

Definition exhausted_message (reply : FetchReply) : string :=
  match reply with
  | FetchRejects m =>
      "Request failed after 3 retries: " ++ (if truthy_string m then m else "Unknown error")
  | FetchResolves r =>
      match json r with
      | inl m =>
          "Request failed after 3 retries: " ++
          (if truthy_string m then m else "Unknown error")
      | inr data => "API error: " ++ errorMessage_of data r
      end
  end.

(** [n] calls of [getNextAccount] in a row: their results, in order. *)
Fixpoint next_accounts (n : nat) (w : World) : list (Result Account.t) * World :=
  match n with
  | O => ([], w)
  | S n' =>
      let r := getNextAccount w in
      let rs := next_accounts n' r.2 in
      (r.1 :: rs.1, rs.2)
  end.

(** The active account of a directory is one of its accounts, and
    there is one as soon as the directory is not empty. *)
Definition active_listed (data : AccountsStorage) : Prop :=
  match activeAccountId data with
  | Some i => is_Some (find_account i (accounts data))
  | None => accounts data = []
  end.

(** No two accounts of a directory have the same email, letter case
    apart. *)
Definition emails_distinct (toLowerCase : string -> string) (data : AccountsStorage) : Prop :=
  NoDup ((fun a => toLowerCase (Account.email a)) <$> accounts data).

(** Every error [m] throws satisfies [P]. *)
Definition raises {A : Type} (P : Error -> Prop) (m : M A) : Prop :=
  forall w e w', m w = (Throw e, w') -> P e.

(** The errors of the token manager. *)
Definition is_authentication_error (e : Error) : Prop :=
  instanceof_AuthenticationError e = true.

(** [getAccessToken] from the point where the cache has no token to
    give, and the token of the storage it can use: one that is
    neither null nor empty, with an expiry that is neither null nor
    zero. *)
Definition getAccessToken_miss (accountId : string) : M string :=
  account <- getAccount accountId ;;
  match account with
  | None => throw (AuthenticationError ("Account not found: " ++ accountId))
  | Some account =>
      stored <-
        (if truthy_ostring (Account.accessToken account)
            && truthy_oZ (Account.accessTokenExpiry account)
         then
           match Account.accessToken account, Account.accessTokenExpiry account with
           | Some tok, Some expiry =>
               expired <- isExpired expiry ;;
               ret (if expired then None else Some (tok, expiry))
           | _, _ => ret None
           end
         else ret None) ;;
      match stored with
      | Some s => cacheToken accountId s.1 s.2 ;;; ret s.1
      | None => refreshToken accountId
      end
  end.

Definition stored_token (account : Account.t) : option (string * Z) :=
  match Account.accessToken account, Account.accessTokenExpiry account with
  | Some tok, Some expiry =>
      if truthy_string tok && negb (expiry =? 0) then Some (tok, expiry) else None
  | _, _ => None
  end.

(** What one attempt of the dispatcher does to the retry counter, the
    delays and the quota counters, by its result: an error thrown on
    is a [RateLimitError] or an [ApiError], and nothing was counted
    or waited for; a text returned is not empty, and one usage was
    counted; otherwise the loop goes on, either with the counter as
    it was and no delay, or with the counter incremented and, while
    the budget lasts, the backoff delay of the new count. *)
Definition attempt_summary (st : LoopState) (w : World) (r : Result Step) (w' : World) : Prop :=
  match r with
  | Throw e =>
      instanceof_RateLimitError e || instanceof_ApiError e = true /\
      delays w' = delays w /\ quotas w' = quotas w
  | Ok (Return text) =>
      truthy_string text = true /\ delays w' = delays w /\
      exists accountId, quotas w' = QuotaTracker.incrementUsage accountId (quotas w)
  | Ok (Continue st') =>
      quotas w' = quotas w /\
      ((networkRetryCount st' = networkRetryCount st /\ delays w' = delays w) \/
       (networkRetryCount st' = networkRetryCount st + 1 /\
        delays w' =
          if networkRetryCount st + 1 <=? MAX_RETRIES
          then (delays w ++ [getBackoffDelay (networkRetryCount st + 1)])%list
          else delays w))
  end.

(** The delays the dispatcher can take, in order. *)
Definition BACKOFF_DELAYS : list Z := [1000; 2000; 4000].

(** A world in which the standard family is answered "try again at
    once" for ever: the clock does not run backwards and stays within
    the time values, the directory is not empty, every account has a
    cached token that does not expire, the marks there are have
    expired, and every reply to come is a 429 whose retry time reads
    as 0 ms ([Retry-After: 0]). *)
Definition retried_at_once (w : World) : Prop :=
  (forall i j, (i <= j)%nat -> clock w i <= clock w j) /\
  (forall k, valid_time (Fin (clock w k)) = true) /\
  accounts (managerData w) <> [] /\
  (forall a, a ∈ accounts (managerData w) ->
     exists c, tokenCache w !! Account.id a = Some c /\
               forall k, isExpired_at (clock w k) (expiresAt c) = false) /\
  (forall k e, rateLimits w !! k = Some e ->
     exists z, availableAt e = Fin z /\ z <= clock w (reads w)) /\
  (forall i, exists r,
     next_reply w i = FetchResolves r /\ status r = 429 /\ retryAfterMs_of r = Fin 0).

(** * Properties *)

(** ** The rotator *)

Lemma available_at_delete now limits k k' e :
  limits !! k = Some e ->
  num_geb (Fin now) (availableAt e) = true ->
  available_at now (delete k limits) k' = available_at now limits k'.
Proof.
  intros Hk He. unfold available_at.
  destruct (decide (k = k')) as [<-|Hne].
  - by rewrite lookup_delete_eq, Hk, He.
  - by rewrite lookup_delete_ne.
Qed.

Lemma filter_available_cons now b l limits :
  filter_available now (b :: l) limits =
  match limits !! Account.id b with
  | None =>
      (b :: (filter_available now l limits).1, (filter_available now l limits).2)
  | Some entry =>
      if num_geb (Fin now) (availableAt entry) then
        (b :: (filter_available now l (delete (Account.id b) limits)).1,
         (filter_available now l (delete (Account.id b) limits)).2)
      else filter_available now l limits
  end.
Proof. reflexivity. Qed.

Lemma filter_available_fst now l : forall limits a,
  a ∈ (filter_available now l limits).1 <->
  a ∈ l /\ available_at now limits (Account.id a) = true.
Proof.
  induction l as [|b l IH]; intros limits a.
  - simpl. split; [intros H; inversion H | intros [H _]; inversion H].
  - rewrite filter_available_cons.
    destruct (limits !! Account.id b) as [e|] eqn:Hb.
    + destruct (num_geb (Fin now) (availableAt e)) eqn:He; simpl.
      * rewrite !elem_of_cons, IH.
        rewrite (available_at_delete _ _ _ _ _ Hb He).
        split; [intros [->|[? ?]]|intros [[->|?] ?]]; auto.
        split; [by left|]. unfold available_at. by rewrite Hb.
      * rewrite IH, elem_of_cons.
        split; [intros [? ?]; auto|intros [[->|?] Ha]; auto].
        unfold available_at in Ha. rewrite Hb in Ha. congruence.
    + simpl. rewrite !elem_of_cons, IH.
      split; [intros [->|[? ?]]|intros [[->|?] ?]]; auto.
      split; [by left|]. unfold available_at. by rewrite Hb.
Qed.

(** The entries the filter leaves: those that have not expired, and
    the expired ones of ids that are not in the list. *)
Lemma filter_available_snd now l : forall limits k,
  (filter_available now l limits).2 !! k =
  match limits !! k with
  | Some e =>
      if num_geb (Fin now) (availableAt e) && bool_decide (k ∈ Account.id <$> l)
      then None else Some e
  | None => None
  end.
Proof.
  induction l as [|b l IH]; intros limits k.
  - simpl. destruct (limits !! k) as [e|]; [|done].
    by rewrite andb_false_r.
  - rewrite filter_available_cons, fmap_cons.
    destruct (limits !! Account.id b) as [e|] eqn:Hb.
    + destruct (num_geb (Fin now) (availableAt e)) eqn:He; simpl.
      * rewrite IH. destruct (decide (Account.id b = k)) as [<-|Hne].
        -- rewrite lookup_delete_eq, Hb, He. simpl.
           rewrite bool_decide_eq_true_2; [done|]. by left.
        -- rewrite lookup_delete_ne by done.
           destruct (limits !! k) as [e'|]; [|done].
           destruct (num_geb (Fin now) (availableAt e')); [simpl|done].
           destruct (bool_decide (k ∈ Account.id <$> l)) eqn:Hin.
           ++ rewrite bool_decide_eq_true_2; [done|].
              right. by apply bool_decide_eq_true in Hin.
           ++ rewrite bool_decide_eq_false_2; [done|].
              apply bool_decide_eq_false in Hin.
              intros [?|?]%elem_of_cons; congruence.
      * rewrite IH. destruct (limits !! k) as [e'|] eqn:Hk; [|done].
        destruct (num_geb (Fin now) (availableAt e')) eqn:He'; [simpl|done].
        destruct (bool_decide (k ∈ Account.id <$> l)) eqn:Hin.
        -- rewrite bool_decide_eq_true_2; [done|].
           right. by apply bool_decide_eq_true in Hin.
        -- rewrite bool_decide_eq_false_2; [done|].
           apply bool_decide_eq_false in Hin.
           intros [?|?]%elem_of_cons; [|done]. congruence.
    + simpl. rewrite IH. destruct (limits !! k) as [e'|] eqn:Hk; [|done].
      destruct (num_geb (Fin now) (availableAt e')) eqn:He'; [simpl|done].
      destruct (bool_decide (k ∈ Account.id <$> l)) eqn:Hin.
      * rewrite bool_decide_eq_true_2; [done|].
        right. by apply bool_decide_eq_true in Hin.
      * rewrite bool_decide_eq_false_2; [done|].
        apply bool_decide_eq_false in Hin.
        intros [?|?]%elem_of_cons; [|done]. congruence.
Qed.

Lemma filter_available_subseteq now l limits :
  (filter_available now l limits).2 ⊆ limits.
Proof.
  apply map_subseteq_spec. intros k e. rewrite filter_available_snd.
  destruct (limits !! k) as [e'|]; [|done].
  by destruct (num_geb (Fin now) (availableAt e') && bool_decide (k ∈ Account.id <$> l)).
Qed.

Lemma filter_available_cleared now l limits a :
  a ∈ l ->
  available_at now limits (Account.id a) = true ->
  (filter_available now l limits).2 !! Account.id a = None.
Proof.
  intros Hin Hav. rewrite filter_available_snd. unfold available_at in Hav.
  destruct (limits !! Account.id a) as [e|]; [|done].
  rewrite Hav, bool_decide_eq_true_2; [done|].
  apply list_elem_of_fmap. eauto.
Qed.

Lemma scan_found fuel allAccounts ids : forall cur a c,
  scan fuel allAccounts ids cur = (Some a, c) ->
  a ∈ allAccounts /\ Account.id a ∈ ids.
Proof.
  induction fuel as [|fuel IH]; intros cur a c; simpl; [discriminate|].
  destruct (allAccounts !! (cur mod length allAccounts)%nat) as [b|] eqn:Hb; [|apply IH].
  destruct (decide (Account.id b ∈ ids)); [|apply IH].
  intros [= -> _]. split; [|done]. eapply list_elem_of_lookup_2, Hb.
Qed.

Lemma getAvailableAccounts_eq w :
  getAvailableAccounts w =
  (Ok (filter_available (clock w (reads w)) (accounts (managerData w)) (rateLimits w)).1,
   swept w).
Proof. reflexivity. Qed.

Lemma getNextAccount_eq w :
  getNextAccount w =
  match (filter_available (clock w (reads w)) (accounts (managerData w)) (rateLimits w)).1 with
  | [] =>
      (Throw (AllAccountsRateLimitedError
                match earliest_of (rateLimits (swept w)) with
                | None => 0
                | Some earliest => Z.max 0 (earliest - clock w (S (reads w)))
                end),
       set_reads (S (S (reads w))) (swept w))
  | first :: rest =>
      let r := scan (length (accounts (managerData w))) (accounts (managerData w))
                 (list_to_set (Account.id <$> first :: rest)) (currentIndex w) in
      (Ok (match r.1 with Some account => account | None => first end),
       set_currentIndex r.2 (swept w))
  end.
Proof.
  unfold getNextAccount, bind. rewrite getAvailableAccounts_eq.
  destruct (filter_available _ _ _).1 as [|first rest].
  - unfold getEarliestRetryTime, bind, Date_now, gets. simpl.
    by destruct (earliest_of _).
  - unfold bind, gets, modify, manager_getAccounts. simpl.
    by destruct (scan _ _ _ _).1.
Qed.

(** What a successful selection guarantees. *)
Lemma getNextAccount_ok w account w1 :
  getNextAccount w = (Ok account, w1) ->
  account ∈ accounts (managerData w) /\
  available_at (clock w (reads w)) (rateLimits w) (Account.id account) = true /\
  rateLimits w1 !! Account.id account = None /\
  rateLimits w1 ⊆ rateLimits w /\
  exists c, w1 = set_currentIndex c (swept w).
Proof.
  rewrite getNextAccount_eq.
  destruct (filter_available _ _ _).1 as [|first rest] eqn:Hav; [discriminate|].
  assert (Hmem : forall a, a ∈ first :: rest ->
            a ∈ accounts (managerData w) /\
            available_at (clock w (reads w)) (rateLimits w) (Account.id a) = true).
  { intros a Ha. rewrite <- Hav in Ha. by apply filter_available_fst in Ha. }
  assert (Hgoal : forall b c, b ∈ first :: rest -> Account.id b = Account.id account ->
            account ∈ accounts (managerData w) ->
            w1 = set_currentIndex c (swept w) ->
            account ∈ accounts (managerData w) /\
            available_at (clock w (reads w)) (rateLimits w) (Account.id account) = true /\
            rateLimits w1 !! Account.id account = None /\
            rateLimits w1 ⊆ rateLimits w /\
            exists c, w1 = set_currentIndex c (swept w)).
  { intros b c Hb Hid Hin ->. destruct (Hmem b Hb) as [Hbin Hbav].
    split; [done|]. rewrite <- Hid. split; [done|].
    split; [by apply filter_available_cleared|].
    split; [apply filter_available_subseteq|]. eauto. }
  cbv zeta. destruct (scan _ _ _ _) as [[a|] c] eqn:Hscan; simpl; intros [= <- <-].
  - apply scan_found in Hscan as [Hin Hid].
    apply elem_of_list_to_set, list_elem_of_fmap in Hid as (b & Hb & Hbin).
    by apply (Hgoal b c).
  - apply (Hgoal first c); [by left|done| |done]. apply Hmem. by left.
Qed.

(** A selection succeeds as soon as one listed account can pass. *)
Lemma getNextAccount_some w a :
  a ∈ accounts (managerData w) ->
  available_at (clock w (reads w)) (rateLimits w) (Account.id a) = true ->
  exists account w1, getNextAccount w = (Ok account, w1).
Proof.
  intros Hin Hav. rewrite getNextAccount_eq.
  destruct (filter_available _ _ _).1 as [|first rest] eqn:Hf; [|simpl; eauto].
  assert (a ∈ (filter_available (clock w (reads w)) (accounts (managerData w))
                 (rateLimits w)).1) as Ha by (by apply filter_available_fst).
  rewrite Hf in Ha. inversion Ha.
Qed.

(** ** Frames *)

Section Framing.

Context (R : relation World) `{!PreOrder R}.

Lemma framed_ret {A : Type} (a : A) : framed R (ret a).
Proof. intros w r w' [= <- <-]. reflexivity. Qed.

Lemma framed_throw {A : Type} (e : Error) : framed R (@throw A e).
Proof. intros w r w' [= <- <-]. reflexivity. Qed.

Lemma framed_gets {A : Type} (f : World -> A) : framed R (gets f).
Proof. intros w r w' [= <- <-]. reflexivity. Qed.

Lemma framed_modify (f : World -> World) :
  (forall w, R w (f w)) -> framed R (modify f).
Proof. intros Hf w r w' [= <- <-]. apply Hf. Qed.

Lemma framed_bind {A B : Type} (m : M A) (k : A -> M B) :
  framed R m -> (forall a, framed R (k a)) -> framed R (bind m k).
Proof.
  intros Hm Hk w r w'. unfold bind.
  destruct (m w) as [[a|e] w1] eqn:Hmw.
  - intros Hkw. transitivity w1; [by eapply Hm|by eapply Hk].
  - intros [= <- <-]. by eapply Hm.
Qed.

Lemma framed_try_catch {A : Type} (m : M A) (h : Error -> M A) :
  framed R m -> (forall e, framed R (h e)) -> framed R (try_catch m h).
Proof.
  intros Hm Hh w r w'. unfold try_catch.
  destruct (m w) as [[a|e] w1] eqn:Hmw.
  - intros [= <- <-]. by eapply Hm.
  - intros Hhw. transitivity w1; [by eapply Hm|by eapply Hh].
Qed.

End Framing.

#[local] Instance token_frame_preorder : PreOrder token_frame.
Proof.
  split.
  - intros w. unfold token_frame. by repeat split.
  - intros w1 w2 w3 H12 H23. unfold token_frame in *.
    destruct H12 as (?&?&?&?&?&?&?&?&?&?), H23 as (?&?&?&?&?&?&?&?&?&?).
    repeat split; try congruence. lia.
Qed.

Lemma Date_now_token_frame : framed token_frame Date_now.
Proof.
  intros w r w' [= <- <-]. unfold token_frame. simpl. repeat split; (reflexivity || lia).
Qed.

Ltac framing :=
  repeat first
    [ apply framed_ret; apply _ | apply framed_throw; apply _
    | apply framed_gets; apply _
    | apply Date_now_token_frame
    | apply framed_bind; [apply _| |intros ?]
    | apply framed_try_catch; [apply _| |intros ?]
    | apply framed_modify; intros ?; unfold token_frame; simpl;
      repeat split; (reflexivity || lia)
    | match goal with
      | |- framed _ (match ?x with _ => _ end) => destruct x
      | |- framed _ (if ?x then _ else _) => destruct x
      end ].

Lemma isExpired_token_frame e : framed token_frame (isExpired e).
Proof. unfold isExpired. framing. Qed.

Lemma getAccount_token_frame accountId : framed token_frame (getAccount accountId).
Proof. unfold getAccount, storage_load. framing. Qed.

Lemma doRefresh_token_frame accountId : framed token_frame (doRefresh accountId).
Proof.
  unfold doRefresh. apply framed_bind; [apply _|apply getAccount_token_frame|intros ?].
  unfold callTokenEndpoint, updateAccountToken, cacheToken, storage_load, storage_save.
  framing.
Qed.

Lemma getAccessToken_token_frame accountId : framed token_frame (getAccessToken accountId).
Proof.
  unfold getAccessToken.
  apply framed_bind; [apply _|framing|intros cached].
  apply framed_bind; [apply _| |].
  { destruct cached; [|framing].
    apply framed_bind; [apply _|apply isExpired_token_frame|intros ?; framing]. }
  intros [tok|]; [framing|].
  apply framed_bind; [apply _|apply getAccount_token_frame|intros [account|]]; [|framing].
  apply framed_bind; [apply _| |].
  { destruct (_ && _); [|framing].
    destruct (Account.accessToken account); [|framing].
    destruct (Account.accessTokenExpiry account); [|framing].
    apply framed_bind; [apply _|apply isExpired_token_frame|intros ?; framing]. }
  intros [s|]; [unfold cacheToken; framing|apply doRefresh_token_frame].
Qed.

(** ** The token manager *)

Lemma isExpired_at_spec now e :
  isExpired_at now e = true <-> now + 5 * 60 * 1000 >= e.
Proof. unfold isExpired_at, TOKEN_EXPIRY_BUFFER_MS. rewrite Z.geb_le. lia. Qed.

Lemma isExpired_at_false now e :
  now + 5 * 60 * 1000 < e -> isExpired_at now e = false.
Proof.
  intros H. destruct (isExpired_at now e) eqn:E; [|done].
  apply isExpired_at_spec in E. lia.
Qed.

Lemma getAccount_eq accountId w :
  getAccount accountId w =
  (Ok (find_account accountId (accounts (storage_view w))),
   set_storageCache (Some (storage_view w)) w).
Proof.
  unfold getAccount, storage_view, bind, gets, storage_load. simpl.
  destruct (storageCache w) eqn:Hc; simpl; [|done].
  unfold ret. f_equal. destruct w; simpl in *. by subst.
Qed.

(** A cached token that is not expired is returned as it is. *)
Lemma getAccessToken_cached accountId w c :
  tokenCache w !! accountId = Some c ->
  isExpired_at (clock w (reads w)) (expiresAt c) = false ->
  getAccessToken accountId w = (Ok (cached_accessToken c), set_reads (S (reads w)) w).
Proof.
  intros Hc He. unfold getAccessToken, bind, gets, isExpired, Date_now, ret.
  rewrite Hc. simpl. by rewrite He.
Qed.

(** Without a cache entry, a stored token that is not expired is cached
    and returned. *)
Lemma getAccessToken_stored accountId w account tok expiry :
  tokenCache w !! accountId = None ->
  find_account accountId (accounts (storage_view w)) = Some account ->
  Account.accessToken account = Some tok ->
  truthy_string tok = true ->
  Account.accessTokenExpiry account = Some expiry ->
  expiry <> 0 ->
  isExpired_at (clock w (reads w)) expiry = false ->
  getAccessToken accountId w =
  (Ok tok,
   set_tokenCache (<[accountId := {| cached_accessToken := tok; expiresAt := expiry |}]>
                     (tokenCache w))
     (set_reads (S (reads w)) (set_storageCache (Some (storage_view w)) w))).
Proof.
  intros Hc Hacc Htok Htruthy Hexp Hnz He.
  unfold getAccessToken, bind, gets. rewrite Hc. unfold ret at 1.
  rewrite getAccount_eq, Hacc, Htok, Hexp. simpl. rewrite Htruthy.
  apply Z.eqb_neq in Hnz. rewrite Hnz. simpl.
  unfold isExpired, bind, Date_now, ret. simpl. by rewrite He.
Qed.

(** [doRefresh] of an account that has a refresh token calls the token
    endpoint, once. *)
Lemma doRefresh_calls_endpoint accountId w account :
  find_account accountId (accounts (storage_view w)) = Some account ->
  truthy_string (Account.refreshToken account) = true ->
  tokenRequests (doRefresh accountId w).2 =
  (tokenRequests w ++ [actualRefreshToken (Account.refreshToken account)])%list.
Proof.
  intros Hacc Hrt. unfold doRefresh, bind. rewrite getAccount_eq, Hacc, Hrt. simpl.
  unfold try_catch, bind, callTokenEndpoint, bind, gets, modify. simpl.
  destruct (tokenEndpoint w (length (tokenRequests w))) as [m|m|e d|tok expires_in]; simpl;
    try reflexivity.
  unfold updateAccountToken, bind, storage_load, gets. simpl.
  destruct (findIndex_account accountId (accounts (disk w))) as [i|]; simpl; [|done].
  by destruct (accounts (disk w) !! i).
Qed.

(** When neither the cache nor the storage holds a token that is not
    expired, [getAccessToken] refreshes. *)
Lemma getAccessToken_refreshes accountId w account :
  (forall c, tokenCache w !! accountId = Some c ->
             forall k, (reads w <= k)%nat -> isExpired_at (clock w k) (expiresAt c) = true) ->
  find_account accountId (accounts (storage_view w)) = Some account ->
  (forall e, Account.accessTokenExpiry account = Some e ->
             forall k, (reads w <= k)%nat -> isExpired_at (clock w k) e = true) ->
  truthy_string (Account.refreshToken account) = true ->
  tokenRequests (getAccessToken accountId w).2 =
  (tokenRequests w ++ [actualRefreshToken (Account.refreshToken account)])%list.
Proof.
  intros Hcache Hacc Hstored Hrt.
  assert (Hgo : forall w0, clock w0 = clock w -> (reads w <= reads w0)%nat ->
            storage_view w0 = storage_view w ->
            tokenRequests w0 = tokenRequests w ->
            tokenRequests
              ((account <- getAccount accountId ;;
                match account with
                | None => throw (AuthenticationError ("Account not found: " ++ accountId))
                | Some account =>
                    stored <-
                      (if truthy_ostring (Account.accessToken account)
                          && truthy_oZ (Account.accessTokenExpiry account)
                       then
                         match Account.accessToken account, Account.accessTokenExpiry account with
                         | Some tok, Some expiry =>
                             expired <- isExpired expiry ;;
                             ret (if expired then None else Some (tok, expiry))
                         | _, _ => ret None
                         end
                       else ret None) ;;
                    match stored with
                    | Some s => cacheToken accountId s.1 s.2 ;;; ret s.1
                    | None => refreshToken accountId
                    end
                end) w0).2 =
            (tokenRequests w ++ [actualRefreshToken (Account.refreshToken account)])%list).
  { intros w0 Hclock Hreads Hview Hreq. unfold bind at 1. rewrite getAccount_eq, Hview, Hacc.
    assert (Hrefresh : forall w1, storage_view w1 = storage_view w ->
              tokenRequests w1 = tokenRequests w ->
              tokenRequests (refreshToken accountId w1).2 =
              (tokenRequests w ++ [actualRefreshToken (Account.refreshToken account)])%list).
    { intros w1 Hv1 Hr1. unfold refreshToken.
      rewrite (doRefresh_calls_endpoint accountId w1 account); [by rewrite Hr1| |done].
      by rewrite Hv1. }
    unfold bind. destruct (truthy_ostring _ && truthy_oZ _); simpl.
    - destruct (Account.accessToken account) as [tok|];
        [|apply Hrefresh; [|done]; by unfold storage_view].
      destruct (Account.accessTokenExpiry account) as [e|] eqn:He;
        [|apply Hrefresh; [|done]; by unfold storage_view].
      unfold isExpired, bind, Date_now, ret. simpl.
      rewrite Hclock, (Hstored e eq_refl _ Hreads). apply Hrefresh; [|done].
      by unfold storage_view.
    - apply Hrefresh; [|done]. by unfold storage_view. }
  unfold getAccessToken. unfold bind at 1, gets at 1.
  destruct (tokenCache w !! accountId) as [c|] eqn:Hc.
  - unfold bind at 1, isExpired, bind, Date_now, ret. simpl.
    rewrite (Hcache c eq_refl _ (le_n _)). apply Hgo; simpl; (done || lia).
  - unfold bind at 1, ret at 1. by apply Hgo.
Qed.

(** C8 (token expiry buffer).  A token is treated as expired exactly
    when [now + 5 minutes >= expiresAt].  Hence, for an account of the
    storage, at a clock that reads [now] and does not run backwards:
    when the token held for it (in the cache and in the storage, where
    there is one) expires 4 minutes from [now], [getAccessToken] sends
    one refresh request to the token endpoint; when the cached token
    expires 10 minutes from [now] it is returned and nothing is sent;
    and when there is no cached token and the stored one expires 10
    minutes from [now], the stored token is returned and nothing is
    sent. *)
Theorem token_expiry_buffer (w : World) (accountId : string) (account : Account.t) (now : Z) :
  now = clock w (reads w) ->
  0 <= now ->
  (forall k, (reads w <= k)%nat -> now <= clock w k) ->
  find_account accountId (accounts (storage_view w)) = Some account ->
  (forall t expiresAt, isExpired_at t expiresAt = true <-> t + 5 * 60 * 1000 >= expiresAt) /\
  ((forall c, tokenCache w !! accountId = Some c -> expiresAt c = now + 4 * 60 * 1000) ->
   (forall e, Account.accessTokenExpiry account = Some e -> e = now + 4 * 60 * 1000) ->
   truthy_string (Account.refreshToken account) = true ->
   tokenRequests (getAccessToken accountId w).2 =
   (tokenRequests w ++ [actualRefreshToken (Account.refreshToken account)])%list) /\
  (forall c, tokenCache w !! accountId = Some c ->
             expiresAt c = now + 10 * 60 * 1000 ->
             (getAccessToken accountId w).1 = Ok (cached_accessToken c) /\
             tokenRequests (getAccessToken accountId w).2 = tokenRequests w) /\
  (forall tok, tokenCache w !! accountId = None ->
               Account.accessToken account = Some tok ->
               truthy_string tok = true ->
               Account.accessTokenExpiry account = Some (now + 10 * 60 * 1000) ->
               (getAccessToken accountId w).1 = Ok tok /\
               tokenRequests (getAccessToken accountId w).2 = tokenRequests w).
Proof.
  intros Hnow Hpos Hmono Hacc. split; [apply isExpired_at_spec|].
  split; [|split].
  - intros Hc He Hrt.
    assert (Hexp : forall k, (reads w <= k)%nat ->
              isExpired_at (clock w k) (now + 4 * 60 * 1000) = true).
    { intros k Hk. apply isExpired_at_spec. specialize (Hmono k Hk). lia. }
    apply getAccessToken_refreshes; [|done| |done].
    + intros c Hcc. rewrite (Hc c Hcc). apply Hexp.
    + intros e Hee. rewrite (He e Hee). apply Hexp.
  - intros c Hc He.
    rewrite (getAccessToken_cached accountId w c Hc); [done|].
    rewrite He, <- Hnow. apply isExpired_at_false. lia.
  - intros tok Hc Htok Htruthy He.
    rewrite (getAccessToken_stored accountId w account tok _ Hc Hacc Htok Htruthy He);
      [done|lia|].
    rewrite <- Hnow. apply isExpired_at_false. lia.
Qed.

Lemma token_expiry_buffer_witness :
  tokenRequests (getAccessToken "account-1" (expiring_world (4 * 60 * 1000))).2
    = ["refresh-token"] /\
  (getAccessToken "account-1" (expiring_world (4 * 60 * 1000))).1 = Ok "token-2" /\
  (getAccessToken "account-1" (expiring_world (10 * 60 * 1000))).1 = Ok "token-1" /\
  tokenRequests (getAccessToken "account-1" (expiring_world (10 * 60 * 1000))).2 = [].
Proof.
  destruct (token_expiry_buffer (expiring_world (4 * 60 * 1000)) "account-1"
              (expiring_account (4 * 60 * 1000)) 1000000) as (_ & Hfour & _ & _);
    [reflexivity|lia|intros k _; simpl; lia|reflexivity|].
  destruct (token_expiry_buffer (expiring_world (10 * 60 * 1000)) "account-1"
              (expiring_account (10 * 60 * 1000)) 1000000) as (_ & _ & _ & Hten);
    [reflexivity|lia|intros k _; simpl; lia|reflexivity|].
  split; [|split].
  - apply Hfour; [intros c Hc; vm_compute in Hc; discriminate| |reflexivity].
    intros e He. injection He as <-. reflexivity.
  - vm_compute. reflexivity.
  - apply (Hten "token-1"); reflexivity.
Defined.

(** ** The quota tracker *)

(** C9 (quota arithmetic).  For an account the directory knows,
    [updateQuota] overwrites the stored [used]/[limit]/[resetAt] triple,
    whatever was stored before, and [getQuota] then reports
    [percentage = used / limit * 100], or [100] when [limit = 0], and
    [isLimited = (used >= limit)].  In particular an update to 80 of
    100 gives percentage 80 and not limited, 100 of 100 gives limited,
    and 0 of 0 gives percentage 100 and limited. *)
Theorem updateQuota_getQuota (mgr : list Account.t) (quotas : gmap string QuotaData.t)
    (accountId : string) (account : Account.t) :
  manager_getAccount mgr accountId = Some account ->
  (forall used limit resetAt,
     QuotaTracker.updateQuota mgr accountId used limit resetAt quotas !! accountId =
       Some (QuotaData.mk used limit resetAt) /\
     QuotaTracker.getQuota mgr accountId
       (QuotaTracker.updateQuota mgr accountId used limit resetAt quotas) =
       Some {| QuotaInfo.accountId := accountId;
               QuotaInfo.email := Account.email account;
               QuotaInfo.used := used;
               QuotaInfo.limit := limit;
               QuotaInfo.percentage :=
                 if PrimFloat.eqb limit 0 then 100%float
                 else PrimFloat.mul (PrimFloat.div used limit) 100;
               QuotaInfo.resetAt := resetAt;
               QuotaInfo.isLimited := PrimFloat.leb limit used |}) /\
  (let info := QuotaTracker.getQuota mgr accountId
                 (QuotaTracker.updateQuota mgr accountId 80 100 None quotas) in
   QuotaInfo.percentage <$> info = Some 80%float /\
   QuotaInfo.isLimited <$> info = Some false) /\
  (let info := QuotaTracker.getQuota mgr accountId
                 (QuotaTracker.updateQuota mgr accountId 100 100 None quotas) in
   QuotaInfo.isLimited <$> info = Some true) /\
  (let info := QuotaTracker.getQuota mgr accountId
                 (QuotaTracker.updateQuota mgr accountId 0 0 None quotas) in
   QuotaInfo.percentage <$> info = Some 100%float /\
   QuotaInfo.isLimited <$> info = Some true).
Proof.
  intros Hacc.
  assert (Hgen : forall used limit resetAt,
    QuotaTracker.updateQuota mgr accountId used limit resetAt quotas !! accountId =
      Some (QuotaData.mk used limit resetAt) /\
    QuotaTracker.getQuota mgr accountId
      (QuotaTracker.updateQuota mgr accountId used limit resetAt quotas) =
      Some (QuotaTracker.buildQuotaInfo accountId (Account.email account)
              (QuotaData.mk used limit resetAt))).
  { intros used limit resetAt.
    unfold QuotaTracker.updateQuota, QuotaTracker.getQuota. rewrite Hacc.
    by rewrite lookup_insert_eq. }
  split; [intros used limit resetAt; apply Hgen|].
  repeat split; cbv zeta; rewrite (proj2 (Hgen _ _ _)); reflexivity.
Qed.

Lemma updateQuota_getQuota_witness :
  QuotaInfo.percentage <$>
    QuotaTracker.getQuota three_accounts "account-2"
      (QuotaTracker.updateQuota three_accounts "account-2" 80 100 None ∅) = Some 80%float.
Proof.
  destruct (updateQuota_getQuota three_accounts ∅ "account-2"
              (account_of "account-2" "user2@example.com" (Some "token-2") (Some 3600000)
                 (Some "project-2"))) as (_ & [H _] & _).
  - reflexivity.
  - exact H.
Defined.

(** ** The candidate URLs of the extended family *)

#[local] Instance net_frame_preorder : PreOrder net_frame.
Proof.
  split.
  - intros w. unfold net_frame. by repeat split.
  - intros w1 w2 w3 H12 H23. unfold net_frame in *.
    destruct H12 as (?&?&?&?&?&?&?&?), H23 as (?&?&?&?&?&?&?&?).
    repeat split; congruence.
Qed.

Lemma fetch_eq req w :
  fetch req w =
  (match next_reply w 0 with
   | FetchRejects m => Throw (PlainError m)
   | FetchResolves r => Ok r
   end, sent req w).
Proof.
  unfold fetch, bind, gets, modify, next_reply. rewrite Nat.add_0_r. simpl.
  by destruct (upstream w (length (requests w))).
Qed.

Lemma next_reply_sent req w i : next_reply (sent req w) i = next_reply w (S i).
Proof.
  unfold next_reply, sent. simpl. rewrite length_app. simpl. f_equal. lia.
Qed.

Lemma sent_net_frame req w : net_frame w (sent req w).
Proof. unfold net_frame. by repeat split. Qed.

(** One turn of the [for] over the candidate URLs. *)
Lemma try_endpoints_cons baseUrl rest account accessToken projectId contents c l w :
  try_endpoints (baseUrl :: rest) account accessToken projectId contents c l w =
  let w1 := sent (antigravity_request baseUrl accessToken projectId contents) w in
  match next_reply w 0 with
  | FetchRejects _ => try_endpoints rest account accessToken projectId contents c l w1
  | FetchResolves r =>
      if status r =? 429 then
        try_endpoints rest account accessToken projectId contents (c + 1)
          (num_max l (retryAfterMs_of r)) w1
      else if (status r =? 404) || (status r >=? 500) then
        try_endpoints rest account accessToken projectId contents c l w1
      else if negb (ok r) then
        (Throw (ApiError ("Antigravity API error: " ++ slice_0 500 (text r))), w1)
      else if truthy_string (parseAntigravitySSEResponse r) then
        (Ok (EndpointReturned (parseAntigravitySSEResponse r)),
         set_quotas (QuotaTracker.incrementUsage (Account.id account) (quotas w1)) w1)
      else (Throw (ApiError "Empty response from Antigravity API"), w1)
  end.
Proof.
  cbn [try_endpoints]. unfold bind at 1, try_catch, bind at 1.
  rewrite fetch_eq. fold (antigravity_request baseUrl accessToken projectId contents).
  cbv zeta. destruct (next_reply w 0) as [m|r]; [reflexivity|].
  destruct (status r =? 429); [reflexivity|].
  destruct ((status r =? 404) || (status r >=? 500)); [reflexivity|].
  destruct (negb (ok r)); [reflexivity|].
  destruct (truthy_string (parseAntigravitySSEResponse r)); reflexivity.
Qed.

Lemma try_endpoints_net_frame baseUrls account accessToken projectId contents :
  forall c l, framed net_frame
    (try_endpoints baseUrls account accessToken projectId contents c l).
Proof.
  induction baseUrls as [|baseUrl rest IH]; intros c l w res w'.
  - intros [= <- <-]. reflexivity.
  - rewrite try_endpoints_cons. cbv zeta.
    set (w1 := sent _ w). assert (net_frame w w1) as Hw1 by apply sent_net_frame.
    assert (Hrest : forall c l, try_endpoints rest account accessToken projectId contents
                                  c l w1 = (res, w') -> net_frame w w').
    { intros c0 l0 H. transitivity w1; [done|]. by eapply IH. }
    destruct (next_reply w 0) as [m|r]; [apply Hrest|].
    destruct (status r =? 429); [apply Hrest|].
    destruct ((status r =? 404) || (status r >=? 500)); [apply Hrest|].
    destruct (negb (ok r)); [by intros [= <- <-]|].
    destruct (truthy_string _); intros [= <- <-]; [|done].
    transitivity w1; [done|]. unfold net_frame. by repeat split.
Qed.

(** The requests of the [for] go to the candidate URLs in the order of
    the list, to all of them when the loop runs to its end. *)
Lemma try_endpoints_requests baseUrls account accessToken projectId contents :
  forall c l w res w',
  try_endpoints baseUrls account accessToken projectId contents c l w = (res, w') ->
  exists k,
    (k <= length baseUrls)%nat /\
    requests w' =
      (requests w ++
       ((fun u => antigravity_request u accessToken projectId contents)
          <$> take k baseUrls))%list /\
    match res with
    | Ok (EndpointsTried _ _) => k = length baseUrls
    | _ => True
    end.
Proof.
  induction baseUrls as [|baseUrl rest IH]; intros c l w res w'.
  - intros [= <- <-]. exists 0%nat. simpl. by rewrite app_nil_r.
  - rewrite try_endpoints_cons. cbv zeta. set (w1 := sent _ w).
    assert (Hrest : forall c0 l0,
      try_endpoints rest account accessToken projectId contents c0 l0 w1 = (res, w') ->
      exists k,
        (k <= length (baseUrl :: rest))%nat /\
        requests w' =
          (requests w ++
           ((fun u => antigravity_request u accessToken projectId contents)
              <$> take k (baseUrl :: rest)))%list /\
        match res with
        | Ok (EndpointsTried _ _) => k = length (baseUrl :: rest)
        | _ => True
        end).
    { intros c0 l0 Hrun. destruct (IH _ _ _ _ _ Hrun) as (k & Hk & Hreq & Hres).
      exists (S k). split; [simpl; lia|]. split.
      - rewrite Hreq. unfold w1, sent. simpl. by rewrite <- app_assoc.
      - destruct res as [[text|c' l']|e]; simpl; congruence. }
    destruct (next_reply w 0) as [m|r]; [apply Hrest|].
    destruct (status r =? 429); [apply Hrest|].
    destruct ((status r =? 404) || (status r >=? 500)); [apply Hrest|].
    destruct (negb (ok r)); [intros [= <- <-]; exists 1%nat; simpl; split; [lia|done]|].
    destruct (truthy_string _); intros [= <- <-]; exists 1%nat; simpl; (split; [lia|done]).
Qed.

(** The count of 429 replies reaches the number of candidate URLs
    exactly when every candidate replied 429; a turn that ends the loop
    early (a text, an [ApiError]) comes from a reply that is not a 429. *)
Lemma try_endpoints_count baseUrls account accessToken projectId contents :
  forall c l w res w',
  try_endpoints baseUrls account accessToken projectId contents c l w = (res, w') ->
  match res with
  | Ok (EndpointsTried c' _) =>
      c <= c' <= c + Z.of_nat (length baseUrls) /\
      (c' = c + Z.of_nat (length baseUrls) <->
       forall i, (i < length baseUrls)%nat -> is_429 (next_reply w i) = true)
  | _ => ~ forall i, (i < length baseUrls)%nat -> is_429 (next_reply w i) = true
  end.
Proof.
  induction baseUrls as [|baseUrl rest IH]; intros c l w res w'.
  - intros [= <- <-]. simpl. split; [lia|]. split; [intros _ i Hi; lia|lia].
  - rewrite try_endpoints_cons. cbv zeta. set (w1 := sent _ w).
    assert (Hshift : forall i, next_reply w1 i = next_reply w (S i))
      by (intros i; apply next_reply_sent).
    assert (Hskip : forall c0 l0,
      is_429 (next_reply w 0) = false ->
      try_endpoints rest account accessToken projectId contents c0 l0 w1 = (res, w') ->
      c0 = c ->
      match res with
      | Ok (EndpointsTried c' _) =>
          c <= c' <= c + Z.of_nat (length (baseUrl :: rest)) /\
          (c' = c + Z.of_nat (length (baseUrl :: rest)) <->
           forall i, (i < length (baseUrl :: rest))%nat -> is_429 (next_reply w i) = true)
      | _ => ~ forall i, (i < length (baseUrl :: rest))%nat -> is_429 (next_reply w i) = true
      end).
    { intros c0 l0 H0 Hrun ->. specialize (IH _ _ _ _ _ Hrun).
      assert (Hno : ~ forall i, (i < length (baseUrl :: rest))%nat ->
                                is_429 (next_reply w i) = true).
      { intros Hall. rewrite (Hall 0%nat) in H0; [done|simpl; lia]. }
      destruct res as [[text|c' l']|e]; try done.
      destruct IH as [Hb _]. simpl length. split; [lia|].
      split; [lia|done]. }
    assert (Hstop : is_429 (next_reply w 0) = false ->
      ~ forall i, (i < length (baseUrl :: rest))%nat -> is_429 (next_reply w i) = true).
    { intros H0 Hall. rewrite (Hall 0%nat) in H0; [done|simpl; lia]. }
    destruct (next_reply w 0) as [m|r] eqn:Hr; [intros H; by eapply Hskip|].
    destruct (status r =? 429) eqn:H429.
    + intros Hrun. specialize (IH _ _ _ _ _ Hrun).
      assert (Hiff : (forall i, (i < length (baseUrl :: rest))%nat ->
                                is_429 (next_reply w i) = true) <->
                     (forall i, (i < length rest)%nat -> is_429 (next_reply w1 i) = true)).
      { split.
        - intros Hall i Hi. rewrite Hshift. apply Hall. simpl. lia.
        - intros Hall [|i] Hi; [by rewrite Hr|]. rewrite <- Hshift. apply Hall.
          simpl in Hi. lia. }
      destruct res as [[text|c' l']|e]; rewrite ?Hiff; try done.
      destruct IH as [Hb Hi]. simpl length. split; [lia|].
      rewrite <- Hi. lia.
    + destruct ((status r =? 404) || (status r >=? 500)); [intros H; by eapply Hskip|].
      destruct (negb (ok r)); [intros [= <- <-]; by apply Hstop|].
      destruct (truthy_string _); intros [= <- <-]; by apply Hstop.
Qed.

(** ** The pieces of the retry loops *)

Lemma count_failure_eq st e w :
  count_failure st e w =
  (Ok (Continue {| lastError := Some e; networkRetryCount := networkRetryCount st + 1 |}),
   if networkRetryCount st + 1 <=? MAX_RETRIES
   then waited (getBackoffDelay (networkRetryCount st + 1)) w
   else w).
Proof.
  unfold count_failure, bind, delayFn, modify, ret, waited.
  by destruct (networkRetryCount st + 1 <=? MAX_RETRIES).
Qed.

Lemma on_error_eq st e w :
  on_error st e w =
  if instanceof_RateLimitError e || instanceof_ApiError e then (Throw e, w)
  else count_failure st e w.
Proof. unfold on_error. by destruct (_ || _). Qed.

Lemma count_failure_rateLimits st e w :
  rateLimits (count_failure st e w).2 = rateLimits w.
Proof. rewrite count_failure_eq. simpl. by destruct (_ <=? _). Qed.

Lemma on_error_rateLimits st e w : rateLimits (on_error st e w).2 = rateLimits w.
Proof.
  rewrite on_error_eq. destruct (_ || _); [done|apply count_failure_rateLimits].
Qed.

Lemma count_failure_requests st e w : requests (count_failure st e w).2 = requests w.
Proof. rewrite count_failure_eq. simpl. by destruct (_ <=? _). Qed.

Lemma on_error_requests st e w : requests (on_error st e w).2 = requests w.
Proof.
  rewrite on_error_eq. destruct (_ || _); [done|apply count_failure_requests].
Qed.

Lemma updateAccountStatus_frame accountId status_ w :
  let w' := (updateAccountStatus accountId status_ w).2 in
  rateLimits w' = rateLimits w /\ delays w' = delays w /\ requests w' = requests w /\
  clock w' = clock w /\ upstream w' = upstream w /\ quotas w' = quotas w /\
  currentIndex w' = currentIndex w /\ tokenRequests w' = tokenRequests w.
Proof.
  unfold updateAccountStatus, bind, gets. simpl.
  destruct (findIndex_account accountId (accounts (managerData w))) as [i|]; simpl;
    [|by repeat split].
  destruct (accounts (managerData w) !! i); simpl; by repeat split.
Qed.

(** [markRateLimited] sets the entry of the account to the clock reading
    it takes plus the retry time; it throws, after that, only when this
    sum is not a time value. *)
Lemma markRateLimited_spec accountId ms w :
  let at_ := num_add (Fin (clock w (reads w))) ms in
  exists w',
    markRateLimited accountId ms w =
      (if valid_time at_ then Ok tt else Throw (PlainError "Invalid time value"), w') /\
    rateLimits w' =
      <[accountId := {| entry_accountId := accountId; availableAt := at_ |}]> (rateLimits w) /\
    delays w' = delays w /\ requests w' = requests w /\ clock w' = clock w /\
    upstream w' = upstream w /\ quotas w' = quotas w /\
    tokenRequests w' = tokenRequests w.
Proof.
  intros at_. unfold markRateLimited, bind at 1, Date_now. fold at_.
  unfold bind at 1, modify at 1. unfold bind at 1, try_catch.
  set (w0 := set_rateLimits _ _).
  pose proof (updateAccountStatus_frame accountId StatusLimited w0) as Hf.
  destruct (updateAccountStatus accountId StatusLimited w0) as [[[]|e] w1] eqn:Hu;
    simpl in Hf; destruct Hf as (Hrl & Hd & Hrq & Hc & Hu' & Hq & _ & Htr);
    exists w1; (split; [unfold toISOString, ret, throw; by destruct (valid_time at_)|]);
    rewrite Hrl, Hd, Hrq, Hc, Hu', Hq, Htr; by repeat split.
Qed.

(** An attempt of the extended family, once an account with a project
    is selected and its token obtained. *)
Lemma callAntigravityApi_body_eq contents model st w account w1 projectId accessToken w2 :
  getNextAccount w = (Ok account, w1) ->
  Account.projectId account = Some projectId ->
  truthy_string projectId = true ->
  getAccessToken (Account.id account) w1 = (Ok accessToken, w2) ->
  callAntigravityApi_body contents model st w =
  match try_endpoints ANTIGRAVITY_API_BASE_URLS account accessToken projectId contents
          0 (Fin DEFAULT_RATE_LIMIT_MS) (stamped w2) with
  | (Ok (EndpointReturned text), w4) => (Ok (Return text), w4)
  | (Ok (EndpointsTried c l), w4) =>
      if c =? 3 then
        match markRateLimited (Account.id account) l w4 with
        | (Ok _, w5) => count_failure st (ApiError "All Antigravity endpoints failed") w5
        | (Throw e, w5) => on_error st e w5
        end
      else count_failure st (ApiError "All Antigravity endpoints failed") w4
  | (Throw e, w4) => on_error st e w4
  end.
Proof.
  intros Hsel Hproj Htruthy Htok.
  unfold callAntigravityApi_body. unfold bind at 1. rewrite Hsel, Hproj, Htruthy.
  unfold try_catch. unfold bind at 1. rewrite Htok.
  unfold bind at 1, Date_now at 1. unfold bind at 1, Date_now at 1.
  cbn [reads set_reads]. fold (stamped w2). unfold bind at 1.
  destruct (try_endpoints _ _ _ _ _ _ _ _) as [[[text|c l]|e] w4]; [reflexivity| |reflexivity].
  change (Z.of_nat (length ANTIGRAVITY_API_BASE_URLS)) with 3.
  destruct (c =? 3).
  - unfold bind at 1. destruct (markRateLimited _ _ _) as [[[]|e] w5]; [|done].
    by rewrite count_failure_eq.
  - unfold bind at 1, ret. by rewrite count_failure_eq.
Qed.

Lemma ok_status r :
  ok r = true ->
  (status r =? 429) = false /\ ((status r =? 404) || (status r >=? 500)) = false.
Proof.
  unfold ok. intros [H1 H2]%andb_prop. apply Z.leb_le in H1, H2.
  split; [apply Z.eqb_neq; lia|]. apply orb_false_intro; [apply Z.eqb_neq; lia|].
  destruct (status r >=? 500) eqn:E; [|done]. apply Z.geb_le in E. lia.
Qed.

(** The first reply that is none of 429, 404, 5xx or a network failure
    decides; when it is a successful response with a text, the text is
    returned, after one request per candidate URL up to that one, in
    the order of the list. *)
Lemma try_endpoints_first_success baseUrls account accessToken projectId contents :
  forall j r c l w,
  (j < length baseUrls)%nat ->
  (forall i, (i < j)%nat -> moves_on (next_reply w i) = true) ->
  next_reply w j = FetchResolves r ->
  ok r = true ->
  truthy_string (parseAntigravitySSEResponse r) = true ->
  exists w',
    try_endpoints baseUrls account accessToken projectId contents c l w =
      (Ok (EndpointReturned (parseAntigravitySSEResponse r)), w') /\
    requests w' =
      (requests w ++
       ((fun u => antigravity_request u accessToken projectId contents)
          <$> take (S j) baseUrls))%list /\
    quotas w' = QuotaTracker.incrementUsage (Account.id account) (quotas w).
Proof.
  induction baseUrls as [|baseUrl rest IH]; intros j r c l w Hj Hbefore Hr Hok Htext;
    [simpl in Hj; lia|].
  rewrite try_endpoints_cons. cbv zeta. set (w1 := sent _ w).
  destruct j as [|j].
  - rewrite Hr. destruct (ok_status r Hok) as [-> ->]. rewrite Hok, Htext. simpl.
    eexists. split; [reflexivity|]. by split.
  - assert (Hrest : forall c0 l0, exists w',
      try_endpoints rest account accessToken projectId contents c0 l0 w1 =
        (Ok (EndpointReturned (parseAntigravitySSEResponse r)), w') /\
      requests w' =
        (requests w ++
         ((fun u => antigravity_request u accessToken projectId contents)
            <$> take (S (S j)) (baseUrl :: rest)))%list /\
      quotas w' = QuotaTracker.incrementUsage (Account.id account) (quotas w)).
    { intros c0 l0.
      destruct (IH j r c0 l0 w1) as (w' & Hrun & Hreq & Hq); try done.
      - simpl in Hj. lia.
      - intros i Hi. unfold w1. rewrite next_reply_sent. apply Hbefore. lia.
      - unfold w1. by rewrite next_reply_sent.
      - exists w'. split; [done|]. split; [|done].
        rewrite Hreq. unfold w1, sent. simpl. by rewrite <- app_assoc. }
    specialize (Hbefore 0%nat ltac:(lia)). unfold moves_on in Hbefore.
    destruct (next_reply w 0) as [m|r0]; [apply Hrest|].
    destruct (status r0 =? 429); [apply Hrest|].
    simpl in Hbefore. rewrite Hbefore. apply Hrest.
Qed.

(** ** Look-ups in the directory, and what a mark does to it *)

Lemma find_account_lookup accountId l :
  find_account accountId l =
  match findIndex_account accountId l with
  | Some i => l !! i
  | None => None
  end.
Proof.
  induction l as [|a l IH]; simpl; [done|].
  destruct (String.eqb (Account.id a) accountId); [done|].
  rewrite IH. by destruct (findIndex_account accountId l).
Qed.

Lemma findIndex_account_ids accountId l index :
  findIndex_account accountId l = Some index ->
  (Account.id <$> l) !! index = Some accountId.
Proof.
  revert index. induction l as [|a l IH]; intros index; simpl; [done|].
  destruct (String.eqb (Account.id a) accountId) eqn:E.
  - intros [= <-]. apply String.eqb_eq in E. simpl. by rewrite E.
  - destruct (findIndex_account accountId l) as [i|]; [|done].
    intros [= <-]. simpl. by apply IH.
Qed.

Lemma findIndex_account_lookup accountId l index :
  findIndex_account accountId l = Some index ->
  exists a, l !! index = Some a /\ Account.id a = accountId.
Proof.
  intros Hi. apply findIndex_account_ids in Hi as Hids.
  rewrite list_lookup_fmap in Hids.
  destruct (l !! index) as [a|]; [|done]. simpl in Hids. exists a. split; [done|congruence].
Qed.

(** Replacing the first account with an id by one with the same id
    changes the look-up of this id only. *)
Lemma find_account_insert accountId l index a' other :
  findIndex_account accountId l = Some index ->
  Account.id a' = accountId ->
  find_account other (<[index := a']> l) =
  if String.eqb accountId other then Some a' else find_account other l.
Proof.
  revert index. induction l as [|a l IH]; intros index; simpl; [done|].
  destruct (String.eqb (Account.id a) accountId) eqn:E.
  - intros [= <-] Hid. simpl. apply String.eqb_eq in E. rewrite Hid, E.
    by destruct (String.eqb accountId other).
  - destruct (findIndex_account accountId l) as [i|]; [|done].
    intros [= <-] Hid. simpl. rewrite (IH i) by done.
    destruct (String.eqb accountId other) eqn:E'; [|done].
    apply String.eqb_eq in E'. subst other. by rewrite E.
Qed.

Lemma isRateLimited_eq accountId w :
  isRateLimited accountId w =
  match rateLimits w !! accountId with
  | None => (Ok false, w)
  | Some e =>
      if num_geb (Fin (clock w (reads w))) (availableAt e)
      then (Ok false,
            set_rateLimits (delete accountId (rateLimits w)) (set_reads (S (reads w)) w))
      else (Ok true, set_reads (S (reads w)) w)
  end.
Proof.
  unfold isRateLimited, bind, gets, Date_now. simpl.
  destruct (rateLimits w !! accountId) as [e|]; [|done]. simpl.
  by destruct (num_geb _ _).
Qed.

(** What [markRateLimited] does to the directory: the first account
    with the id, if there is one, is flagged as limited for 60
    seconds from the second clock reading. *)
Lemma markRateLimited_directory accountId ms w :
  find_account accountId (accounts (managerData (markRateLimited accountId ms w).2)) =
  (fun a =>
     with_rateLimit a
       {| isLimited := true;
          limitedUntil := Some (clock w (S (reads w)) + 60 * 1000);
          consecutiveHits := consecutiveHits (Account.rateLimit a) |})
  <$> find_account accountId (accounts (managerData w)).
Proof.
  unfold markRateLimited, bind at 1, Date_now. unfold bind at 1, modify at 1.
  unfold bind at 1, try_catch. set (w0 := set_rateLimits _ _).
  assert (Hu : find_account accountId
                 (accounts (managerData (updateAccountStatus accountId StatusLimited w0).2)) =
               (fun a =>
                  with_rateLimit a
                    {| isLimited := true;
                       limitedUntil := Some (clock w (S (reads w)) + 60 * 1000);
                       consecutiveHits := consecutiveHits (Account.rateLimit a) |})
               <$> find_account accountId (accounts (managerData w))).
  { unfold updateAccountStatus, bind, gets. simpl.
    rewrite (find_account_lookup accountId (accounts (managerData w))).
    destruct (findIndex_account accountId (accounts (managerData w))) as [i|] eqn:Hi;
      simpl; [|by rewrite find_account_lookup, Hi].
    destruct (findIndex_account_lookup _ _ _ Hi) as (a & Ha & Hid). rewrite Ha. simpl.
    rewrite (find_account_insert accountId) by done. by rewrite String.eqb_refl. }
  destruct (updateAccountStatus accountId StatusLimited w0) as [[[]|e] w1]; simpl in *;
    unfold toISOString; by destruct (valid_time _).
Qed.

(** The account a selection returns has no entry once its token is
    obtained. *)
Lemma selected_unmarked w account w1 r w2 :
  getNextAccount w = (Ok account, w1) ->
  getAccessToken (Account.id account) w1 = (r, w2) ->
  rateLimits w2 !! Account.id account = None /\ delays w2 = delays w /\
  requests w2 = requests w /\ upstream w2 = upstream w /\ clock w2 = clock w /\
  quotas w2 = quotas w.
Proof.
  intros Hsel Htok.
  destruct (getNextAccount_ok _ _ _ Hsel) as (_ & _ & Hnone & _ & c & ->).
  apply getAccessToken_token_frame in Htok.
  destruct Htok as (Hc & _ & Hrl & _ & Hq & Hu & Hrq & Hd & _).
  rewrite Hrl, Hd, Hrq, Hu, Hc, Hq. by repeat split.
Qed.

(** The serving account is marked in an attempt of the extended family
    exactly when all three candidates replied 429. *)
Lemma antigravity_marked_iff contents model st w account w1 projectId accessToken w2 :
  getNextAccount w = (Ok account, w1) ->
  Account.projectId account = Some projectId ->
  truthy_string projectId = true ->
  getAccessToken (Account.id account) w1 = (Ok accessToken, w2) ->
  is_Some (rateLimits (callAntigravityApi_body contents model st w).2 !! Account.id account)
  <-> forall i, (i < 3)%nat -> is_429 (next_reply w2 i) = true.
Proof.
  intros Hsel Hproj Htruthy Htok.
  destruct (selected_unmarked _ _ _ _ _ Hsel Htok) as (Hnone & Hd & Hrq & Hu & Hc & Hq).
  rewrite (callAntigravityApi_body_eq _ _ _ _ _ _ _ _ _ Hsel Hproj Htruthy Htok).
  destruct (try_endpoints _ _ _ _ _ _ _ _) as [res w4] eqn:Hrun.
  pose proof (try_endpoints_net_frame _ _ _ _ _ _ _ _ _ _ Hrun) as (_ & _ & _ & Hrl & _).
  pose proof (try_endpoints_count _ _ _ _ _ _ _ _ _ _ Hrun) as Hcount.
  change (length ANTIGRAVITY_API_BASE_URLS) with 3%nat in Hcount.
  assert (Hkeep : rateLimits w4 !! Account.id account = None) by (by rewrite Hrl).
  destruct res as [[text|c l]|e].
  - simpl. rewrite Hkeep. split; [by intros [? ?]|done].
  - destruct Hcount as [_ Hiff]. destruct (c =? 3) eqn:Hc3.
    + apply Z.eqb_eq in Hc3. split; [intros _; by apply Hiff|intros _].
      destruct (markRateLimited_spec (Account.id account) l w4)
        as (w5 & Hmark & Hrl5 & _).
      rewrite Hmark.
      destruct (valid_time _);
        rewrite ?count_failure_rateLimits, ?on_error_rateLimits, Hrl5,
          lookup_insert_eq; eauto.
    + apply Z.eqb_neq in Hc3. rewrite count_failure_rateLimits, Hkeep.
      split; [by intros [? ?]|]. intros Hall. apply Hiff in Hall. simpl in Hall. lia.
  - rewrite on_error_rateLimits, Hkeep. split; [by intros [? ?]|done].
Qed.

(** The requests of an attempt of the extended family go to a prefix
    of the list of candidate URLs, in order. *)
Lemma antigravity_requests_in_order contents model st w account w1 projectId accessToken w2 :
  getNextAccount w = (Ok account, w1) ->
  Account.projectId account = Some projectId ->
  truthy_string projectId = true ->
  getAccessToken (Account.id account) w1 = (Ok accessToken, w2) ->
  exists k,
    (k <= 3)%nat /\
    requests (callAntigravityApi_body contents model st w).2 =
      (requests w ++
       ((fun u => antigravity_request u accessToken projectId contents)
          <$> take k ANTIGRAVITY_API_BASE_URLS))%list.
Proof.
  intros Hsel Hproj Htruthy Htok.
  destruct (selected_unmarked _ _ _ _ _ Hsel Htok) as (_ & _ & Hrq & _).
  rewrite (callAntigravityApi_body_eq _ _ _ _ _ _ _ _ _ Hsel Hproj Htruthy Htok).
  destruct (try_endpoints _ _ _ _ _ _ _ _) as [res w4] eqn:Hrun.
  destruct (try_endpoints_requests _ _ _ _ _ _ _ _ _ _ Hrun) as (k & Hk & Hreq & _).
  change (requests (stamped w2)) with (requests w2) in Hreq. rewrite Hrq in Hreq.
  exists k. split; [done|]. rewrite <- Hreq.
  destruct res as [[text|c l]|e]; [done| |apply on_error_requests].
  destruct (c =? 3); [|apply count_failure_requests].
  destruct (markRateLimited_spec (Account.id account) l w4) as (w5 & Hmark & _ & _ & Hrq5 & _).
  rewrite Hmark. destruct (valid_time _);
    rewrite ?count_failure_requests, ?on_error_requests; done.
Qed.

Lemma getBackoffDelay_succ n : getBackoffDelay (n + 1) = 1000 * 2 ^ n.
Proof. unfold getBackoffDelay, BASE_RETRY_DELAY_MS. do 2 f_equal. lia. Qed.

(** Past the budget the loop throws the [ApiError] that wraps the
    message of the last error. *)
Lemma retry_loop_exhausted body prefix fuel st w :
  MAX_RETRIES < networkRetryCount st ->
  retry_loop body prefix fuel st w =
  (Raised (ApiError (prefix ++ " failed after 3 retries: " ++ lastError_message st)), w).
Proof.
  intros H. destruct fuel; simpl; (destruct (_ <=? _) eqn:E; [apply Z.leb_le in E; lia|done]).
Qed.

(** Three 429 replies in a row: the count reaches three and the retry
    time is the largest of the default and the three of the replies. *)
Lemma try_endpoints_three_429 account accessToken projectId contents w r1 r2 r3 :
  next_reply w 0 = FetchResolves r1 -> status r1 = 429 ->
  next_reply w 1 = FetchResolves r2 -> status r2 = 429 ->
  next_reply w 2 = FetchResolves r3 -> status r3 = 429 ->
  exists w',
    try_endpoints ANTIGRAVITY_API_BASE_URLS account accessToken projectId contents
      0 (Fin DEFAULT_RATE_LIMIT_MS) w =
    (Ok (EndpointsTried 3
           (num_max (num_max (num_max (Fin DEFAULT_RATE_LIMIT_MS) (retryAfterMs_of r1))
                       (retryAfterMs_of r2)) (retryAfterMs_of r3))), w') /\
    net_frame w w'.
Proof.
  intros H1 S1 H2 S2 H3 S3. unfold ANTIGRAVITY_API_BASE_URLS.
  rewrite try_endpoints_cons. cbv zeta. rewrite H1, S1. simpl (429 =? 429). cbv iota.
  rewrite try_endpoints_cons. cbv zeta. rewrite next_reply_sent, H2, S2.
  simpl (429 =? 429). cbv iota.
  rewrite try_endpoints_cons. cbv zeta. rewrite !next_reply_sent, H3, S3.
  simpl (429 =? 429). cbv iota.
  eexists. split; [reflexivity|]. unfold net_frame. by repeat split.
Qed.

(** An attempt of the extended family whose three candidate URLs
    replied 429: the account is marked until the reading of the clock
    plus the largest of the default and the three retry times, the
    first account with its id is flagged in the directory, and the
    attempt is counted as a failed one. *)
Lemma antigravity_all_429_attempt contents model st w account w1 projectId accessToken w2
    r1 r2 r3 :
  getNextAccount w = (Ok account, w1) ->
  Account.projectId account = Some projectId ->
  truthy_string projectId = true ->
  getAccessToken (Account.id account) w1 = (Ok accessToken, w2) ->
  next_reply w2 0 = FetchResolves r1 -> status r1 = 429 ->
  next_reply w2 1 = FetchResolves r2 -> status r2 = 429 ->
  next_reply w2 2 = FetchResolves r3 -> status r3 = 429 ->
  exists w',
    callAntigravityApi_body contents model st w =
      (Ok (Continue
             {| lastError :=
                  Some (if valid_time (num_add (Fin (clock w (S (S (reads w2)))))
                                         (all_429_retry_ms r1 r2 r3))
                        then ApiError "All Antigravity endpoints failed"
                        else PlainError "Invalid time value");
                networkRetryCount := networkRetryCount st + 1 |}), w') /\
    rateLimits w' =
      <[Account.id account :=
          {| entry_accountId := Account.id account;
             availableAt := num_add (Fin (clock w (S (S (reads w2)))))
                              (all_429_retry_ms r1 r2 r3) |}]> (rateLimits w2) /\
    find_account (Account.id account) (accounts (managerData w')) =
      (fun a =>
         with_rateLimit a
           {| isLimited := true;
              limitedUntil := Some (clock w (S (S (S (reads w2)))) + 60 * 1000);
              consecutiveHits := consecutiveHits (Account.rateLimit a) |})
      <$> find_account (Account.id account) (accounts (managerData w)) /\
    delays w' =
      if networkRetryCount st + 1 <=? MAX_RETRIES
      then (delays w ++ [1000 * 2 ^ networkRetryCount st])%list
      else delays w.
Proof.
  intros Hsel Hproj Htruthy Htok H1 S1 H2 S2 H3 S3.
  destruct (selected_unmarked _ _ _ _ _ Hsel Htok) as (_ & Hd & _ & _ & Hc & _).
  assert (Hm : managerData w2 = managerData w).
  { destruct (getNextAccount_ok _ _ _ Hsel) as (_ & _ & _ & _ & c & Hw1).
    apply getAccessToken_token_frame in Htok. destruct Htok as (_ & -> & _).
    by rewrite Hw1. }
  rewrite (callAntigravityApi_body_eq _ _ _ _ _ _ _ _ _ Hsel Hproj Htruthy Htok).
  destruct (try_endpoints_three_429 account accessToken projectId contents (stamped w2)
              r1 r2 r3) as (w4 & Hrun & Hf4); try done.
  destruct Hf4 as (Hc4 & Hr4 & Hm4 & Hrl4 & _ & Hd4 & _).
  rewrite Hrun. simpl (3 =? 3). cbv iota.
  fold (all_429_retry_ms r1 r2 r3).
  destruct (markRateLimited_spec (Account.id account) (all_429_retry_ms r1 r2 r3) w4)
    as (w5 & Hmark & Hrl5 & Hd5 & _).
  pose proof (markRateLimited_directory (Account.id account) (all_429_retry_ms r1 r2 r3) w4)
    as Hdir.
  rewrite Hmark in Hdir |- *. simpl in Hdir.
  rewrite Hc4, Hr4, Hm4 in Hdir. simpl in Hdir. rewrite Hc, Hm in Hdir.
  rewrite Hc4, Hr4 in Hrl5 |- *. simpl in Hrl5 |- *. rewrite Hc in Hrl5 |- *.
  rewrite Hrl4 in Hrl5. simpl in Hrl5.
  assert (Hd5' : delays w5 = delays w) by (rewrite Hd5, Hd4; simpl; exact Hd).
  clear Hmark.
  destruct (valid_time (num_add (Fin (clock w (S (S (reads w2)))))
                          (all_429_retry_ms r1 r2 r3))).
  - rewrite count_failure_eq, getBackoffDelay_succ. eexists. split; [reflexivity|].
    destruct (_ <=? _); simpl; by rewrite Hd5'.
  - rewrite on_error_eq. simpl. rewrite count_failure_eq, getBackoffDelay_succ.
    eexists. split; [reflexivity|]. destruct (_ <=? _); simpl; by rewrite Hd5'.
Qed.

(** C4 (extended family, all-429 rule).  In an attempt of the extended
    family (an account with a project is selected and its token
    obtained), the candidate URLs are tried in the order of the list
    (the requests of the attempt go to a prefix of the list, in order),
    and the serving account has a rate-limit entry after the attempt if
    and only if each of the three candidates replied 429.  The entry
    then keeps the account out of the rotation: it holds the reading of
    the clock plus the largest of 60000 ms and the retry times of the
    three replies, the first account with this id is flagged as limited
    in the directory, and as long as the entry is there no selection
    returns an account with this id at a clock reading before that
    time.  In particular, when the first reply that is not a 429, a
    404, a 5xx or a network failure is a successful response with a
    text, the attempt returns that text, the account is not marked, its
    usage is incremented, and the requests went to the candidates up
    to that one. *)
Theorem extended_marked_iff_all_429 contents model st w account w1 projectId accessToken w2 :
  getNextAccount w = (Ok account, w1) ->
  Account.projectId account = Some projectId ->
  truthy_string projectId = true ->
  getAccessToken (Account.id account) w1 = (Ok accessToken, w2) ->
  (exists k,
     (k <= 3)%nat /\
     requests (callAntigravityApi_body contents model st w).2 =
       (requests w ++
        ((fun u => antigravity_request u accessToken projectId contents)
           <$> take k ANTIGRAVITY_API_BASE_URLS))%list) /\
  (is_Some (rateLimits (callAntigravityApi_body contents model st w).2 !! Account.id account)
   <-> forall i, (i < 3)%nat -> is_429 (next_reply w2 i) = true) /\
  (forall r1 r2 r3,
     next_reply w2 0 = FetchResolves r1 -> status r1 = 429 ->
     next_reply w2 1 = FetchResolves r2 -> status r2 = 429 ->
     next_reply w2 2 = FetchResolves r3 -> status r3 = 429 ->
     rateLimits (callAntigravityApi_body contents model st w).2 !! Account.id account =
       Some {| entry_accountId := Account.id account;
               availableAt := num_add (Fin (clock w (S (S (reads w2)))))
                                (all_429_retry_ms r1 r2 r3) |} /\
     find_account (Account.id account)
       (accounts (managerData (callAntigravityApi_body contents model st w).2)) =
       (fun a =>
          with_rateLimit a
            {| isLimited := true;
               limitedUntil := Some (clock w (S (S (S (reads w2)))) + 60 * 1000);
               consecutiveHits := consecutiveHits (Account.rateLimit a) |})
       <$> find_account (Account.id account) (accounts (managerData w)) /\
     (forall v selected v',
        rateLimits v !! Account.id account =
          rateLimits (callAntigravityApi_body contents model st w).2 !! Account.id account ->
        getNextAccount v = (Ok selected, v') ->
        Account.id selected = Account.id account ->
        num_geb (Fin (clock v (reads v)))
          (num_add (Fin (clock w (S (S (reads w2))))) (all_429_retry_ms r1 r2 r3)) = true)) /\
  (forall j r,
     (j < 3)%nat ->
     (forall i, (i < j)%nat -> moves_on (next_reply w2 i) = true) ->
     next_reply w2 j = FetchResolves r ->
     ok r = true ->
     truthy_string (parseAntigravitySSEResponse r) = true ->
     (callAntigravityApi_body contents model st w).1 =
       Ok (Return (parseAntigravitySSEResponse r)) /\
     rateLimits (callAntigravityApi_body contents model st w).2 !! Account.id account = None /\
     quotas (callAntigravityApi_body contents model st w).2 =
       QuotaTracker.incrementUsage (Account.id account) (quotas w) /\
     requests (callAntigravityApi_body contents model st w).2 =
       (requests w ++
        ((fun u => antigravity_request u accessToken projectId contents)
           <$> take (S j) ANTIGRAVITY_API_BASE_URLS))%list).
Proof.
  intros Hsel Hproj Htruthy Htok.
  split; [by eapply antigravity_requests_in_order|].
  split; [by eapply antigravity_marked_iff|].
  split.
  { intros r1 r2 r3 H1 S1 H2 S2 H3 S3.
    destruct (antigravity_all_429_attempt contents model st w account w1 projectId
                accessToken w2 r1 r2 r3) as (w' & Hbody & Hrl & Hdir & _); try done.
    rewrite Hbody. simpl.
    assert (Hentry : rateLimits w' !! Account.id account =
              Some {| entry_accountId := Account.id account;
                      availableAt := num_add (Fin (clock w (S (S (reads w2)))))
                                       (all_429_retry_ms r1 r2 r3) |})
      by (by rewrite Hrl, lookup_insert_eq).
    split; [exact Hentry|]. split; [exact Hdir|].
    intros v selected v' Hsame Hnext Hid.
    destruct (getNextAccount_ok _ _ _ Hnext) as (_ & Hav & _).
    unfold available_at in Hav. by rewrite Hid, Hsame, Hentry in Hav. }
  destruct (selected_unmarked _ _ _ _ _ Hsel Htok) as (Hnone & Hd & Hrq & Hu & Hc & Hq).
  rewrite (callAntigravityApi_body_eq _ _ _ _ _ _ _ _ _ Hsel Hproj Htruthy Htok).
  intros j r Hj Hbefore Hr Hok Htext.
  destruct (try_endpoints_first_success ANTIGRAVITY_API_BASE_URLS account accessToken
              projectId contents j r 0 (Fin DEFAULT_RATE_LIMIT_MS) (stamped w2))
    as (w4 & Hrun & Hreq & Hquota); try done.
  pose proof (try_endpoints_net_frame _ _ _ _ _ _ _ _ _ _ Hrun) as (_ & _ & _ & Hrl & _).
  rewrite Hrun. simpl. rewrite Hrl, Hreq, Hquota. simpl. rewrite Hrq, Hq. by repeat split.
Qed.

Lemma extended_marked_iff_all_429_witness :
  ((callAntigravityApi_body [("user", ["hi"])] "gemini-3-pro" initial partial_429_world).1 =
     Ok (Return "Hello, world") /\
   rateLimits
     (callAntigravityApi_body [("user", ["hi"])] "gemini-3-pro" initial partial_429_world).2
     !! "account-1" = None) /\
  rateLimits
    (callAntigravityApi_body [("user", ["hi"])] "gemini-3-pro" initial all_429_world).2
    !! "account-1" =
    Some {| entry_accountId := "account-1"; availableAt := Fin 60000 |}.
Proof.
  split.
  - destruct (extended_marked_iff_all_429 [("user", ["hi"])] "gemini-3-pro" initial
                partial_429_world
                (account_of "account-1" "user1@example.com" (Some "token-1") (Some 3600000)
                   (Some "project-1"))
                (getNextAccount partial_429_world).2
                "project-1" "token-1"
                (getAccessToken "account-1" (getNextAccount partial_429_world).2).2)
      as (_ & _ & _ & Hsuccess);
      [vm_compute; reflexivity|reflexivity|reflexivity|vm_compute; reflexivity|].
    destruct (Hsuccess 1%nat (text_response ["Hello, "; "world"])) as (Htext & Hnone & _);
      [lia| |reflexivity|reflexivity|reflexivity|].
    + intros [|i] Hi; [reflexivity|lia].
    + split; [exact Htext|exact Hnone].
  - destruct (extended_marked_iff_all_429 [("user", ["hi"])] "gemini-3-pro" initial
                all_429_world
                (account_of "account-1" "user1@example.com" (Some "token-1") (Some 3600000)
                   (Some "project-1"))
                (getNextAccount all_429_world).2
                "project-1" "token-1"
                (getAccessToken "account-1" (getNextAccount all_429_world).2).2)
      as (_ & _ & Hall & _);
      [vm_compute; reflexivity|reflexivity|reflexivity|vm_compute; reflexivity|].
    destruct (Hall (status_response 429 (Some "30") "slow down")
                (status_response 429 (Some "30") "slow down")
                (status_response 429 (Some "30") "slow down")) as (Hentry & _);
      [reflexivity..|].
    exact Hentry.
Defined.

(** An attempt of the standard family, once an account is selected and
    its token obtained. *)
Lemma callStandardApi_body_eq contents model st w account w1 accessToken w2 :
  getNextAccount w = (Ok account, w1) ->
  getAccessToken (Account.id account) w1 = (Ok accessToken, w2) ->
  callStandardApi_body contents model st w =
  let w3 := sent (standard_request model accessToken contents) w2 in
  match next_reply w2 0 with
  | FetchRejects m => count_failure st (PlainError m) w3
  | FetchResolves r =>
      if status r =? 429 then
        match markRateLimited (Account.id account) (retryAfterMs_of r) w3 with
        | (Ok _, w4) => (Ok (Continue st), w4)
        | (Throw e, w4) => on_error st e w4
        end
      else
        match json r with
        | inl m => count_failure st (PlainError m) w3
        | inr data =>
            if negb (ok r) then
              if (status r >=? 500) && (networkRetryCount st + 1 <=? MAX_RETRIES) then
                count_failure st (ApiError ("Server error: " ++ errorMessage_of data r)) w3
              else (Throw (ApiError ("API error: " ++ errorMessage_of data r)), w3)
            else
              match extractStandardResponseText data w3 with
              | (Ok text, _) =>
                  (Ok (Return text),
                   set_quotas (QuotaTracker.incrementUsage (Account.id account) (quotas w3)) w3)
              | (Throw e, _) => (Throw e, w3)
              end
        end
  end.
Proof.
  intros Hsel Htok.
  unfold callStandardApi_body. unfold bind at 1. rewrite Hsel.
  unfold try_catch. unfold bind at 1. rewrite Htok.
  unfold bind at 1. rewrite fetch_eq.
  fold (standard_request model accessToken contents). cbv zeta.
  set (w3 := sent _ w2).
  destruct (next_reply w2 0) as [m|r]; [by rewrite on_error_eq|].
  destruct (status r =? 429).
  { unfold bind at 1. by destruct (markRateLimited _ _ _) as [[[]|e] w4]. }
  destruct (negb (ok r)).
  - unfold bind at 1, response_json.
    destruct (json r) as [m|data]; [unfold throw at 1; by rewrite on_error_eq|].
    unfold ret at 1.
    destruct (status r >=? 500); cbn [andb];
      [destruct (_ <=? _); [by rewrite count_failure_eq|]|];
      unfold throw at 1; by rewrite on_error_eq.
  - unfold bind at 1, response_json.
    destruct (json r) as [m|data]; [unfold throw at 1; by rewrite on_error_eq|].
    unfold ret at 1.
    unfold bind at 1, extractStandardResponseText.
    destruct (candidates data) as [[|first rest]|];
      try (unfold throw at 1; by rewrite on_error_eq).
    destruct (content first) as [[[[|p ps]|]]|];
      try (unfold throw at 1; by rewrite on_error_eq).
    destruct (part_text p) as [t|]; [|unfold throw at 1; by rewrite on_error_eq].
    destruct (truthy_string t); [done|unfold throw at 1; by rewrite on_error_eq].
Qed.

(** An attempt whose token request fails, in either family. *)
Lemma attempt_body_token_error contents model st w account w1 e w2 :
  getNextAccount w = (Ok account, w1) ->
  (isAntigravityModel model = true ->
   truthy_ostring (Account.projectId account) = true) ->
  getAccessToken (Account.id account) w1 = (Throw e, w2) ->
  attempt_body contents model st w = on_error st e w2.
Proof.
  intros Hsel Hproj Htok. unfold attempt_body.
  destruct (isAntigravityModel model).
  - specialize (Hproj eq_refl). unfold callAntigravityApi_body, bind at 1.
    rewrite Hsel. destruct (Account.projectId account) as [p|]; [|done].
    simpl in Hproj. rewrite Hproj. unfold try_catch, bind at 1. by rewrite Htok.
  - unfold callStandardApi_body, bind at 1. rewrite Hsel.
    unfold try_catch, bind at 1. by rewrite Htok.
Qed.

(** ** Authentication errors in the dispatcher *)

Lemma retry_loop_step body prefix fuel st w :
  networkRetryCount st <= MAX_RETRIES ->
  retry_loop body prefix (S fuel) st w =
  match body st w with
  | (Ok (Continue st'), w') => retry_loop body prefix fuel st' w'
  | (Ok (Return text), w') => (Returned text, w')
  | (Throw e, w') => (Raised e, w')
  end.
Proof. intros H. simpl. apply Z.leb_le in H. by rewrite H. Qed.

(** C6, as the code has it.  An authentication error of the token
    manager is not thrown on by an attempt: in both families it is
    counted like a network failure.  The retry counter is incremented,
    the error becomes the last error, the backoff delay
    [1000 * 2^count] is taken while the budget lasts, and the loop goes
    on to select an account again; when the error uses up the budget,
    the call throws an [ApiError] whose message wraps the message of
    the authentication error. *)
Theorem auth_error_is_counted model contents st w account w1 e w2 :
  getNextAccount w = (Ok account, w1) ->
  (isAntigravityModel model = true ->
   truthy_ostring (Account.projectId account) = true) ->
  getAccessToken (Account.id account) w1 = (Throw e, w2) ->
  instanceof_AuthenticationError e = true ->
  attempt_body contents model st w =
    (Ok (Continue {| lastError := Some e;
                     networkRetryCount := networkRetryCount st + 1 |}),
     if networkRetryCount st + 1 <=? MAX_RETRIES
     then waited (1000 * 2 ^ networkRetryCount st) w2
     else w2) /\
  (networkRetryCount st = MAX_RETRIES ->
   forall prefix fuel,
     retry_loop (attempt_body contents model) prefix (S fuel) st w =
     (Raised (ApiError (prefix ++ " failed after 3 retries: " ++
                        if truthy_string (error_message e) then error_message e
                        else "Unknown error")), w2)).
Proof.
  intros Hsel Hproj Htok Hauth.
  assert (Hbody : attempt_body contents model st w =
    (Ok (Continue {| lastError := Some e;
                     networkRetryCount := networkRetryCount st + 1 |}),
     if networkRetryCount st + 1 <=? MAX_RETRIES
     then waited (1000 * 2 ^ networkRetryCount st) w2
     else w2)).
  { rewrite (attempt_body_token_error _ _ _ _ _ _ _ _ Hsel Hproj Htok), on_error_eq.
    destruct e; try discriminate. simpl.
    by rewrite count_failure_eq, getBackoffDelay_succ. }
  split; [done|]. intros Hlast prefix fuel.
  rewrite retry_loop_step by lia. rewrite Hbody, Hlast. simpl.
  rewrite retry_loop_exhausted by (simpl; unfold MAX_RETRIES; lia). done.
Qed.

Lemma auth_error_is_counted_witness :
  (attempt_body [("user", ["hi"])] "gemini-2.5-flash" initial revoked_world).1 =
  Ok (Continue {| lastError :=
                    Some (AuthenticationError "Token refresh failed: invalid_grant");
                  networkRetryCount := 1 |}).
Proof.
  destruct (auth_error_is_counted "gemini-2.5-flash" [("user", ["hi"])] initial revoked_world
              (account_of "account-1" "user1@example.com" None None None)
              (getNextAccount revoked_world).2
              (AuthenticationError "Token refresh failed: invalid_grant")
              (getAccessToken "account-1" (getNextAccount revoked_world).2).2) as [H _];
    [vm_compute; reflexivity|discriminate|vm_compute; reflexivity|reflexivity|].
  rewrite H. reflexivity.
Defined.

(** C6, as the specification states it, fails: with a token endpoint
    that refuses every refresh token, a generate call does not throw
    the authentication error of its first attempt; it takes the three
    backoff delays, asks for a token four times, over all three
    accounts, and throws an [ApiError]. *)
Lemma auth_error_is_not_surfaced :
  (generateContent 10 "hi" None revoked_world).1 =
    Raised (ApiError "Request failed after 3 retries: Token refresh failed: invalid_grant") /\
  delays (generateContent 10 "hi" None revoked_world).2 = [1000; 2000; 4000] /\
  length (tokenRequests (generateContent 10 "hi" None revoked_world).2) = 4%nat /\
  ~ auth_error_rule "gemini-2.5-flash".
Proof.
  split; [vm_compute; reflexivity|]. split; [vm_compute; reflexivity|].
  split; [vm_compute; reflexivity|].
  intros Hrule.
  specialize (Hrule [("user", ["hi"])] initial revoked_world
                (account_of "account-1" "user1@example.com" None None None)
                (getNextAccount revoked_world).2
                (AuthenticationError "Token refresh failed: invalid_grant")
                (getAccessToken "account-1" (getNextAccount revoked_world).2).2).
  assert (H : attempt_body [("user", ["hi"])] "gemini-2.5-flash" initial revoked_world =
              (Throw (AuthenticationError "Token refresh failed: invalid_grant"),
               (getAccessToken "account-1" (getNextAccount revoked_world).2).2)).
  { apply Hrule; [vm_compute; reflexivity|discriminate|vm_compute; reflexivity|reflexivity]. }
  vm_compute in H. discriminate H.
Qed.

(** ** Rate-limit handling in the dispatcher *)

Lemma claimed_retry_ms_spec r ms :
  claimed_retry_ms r = Some ms -> retryAfterMs_of r = Fin ms.
Proof.
  unfold claimed_retry_ms, retryAfterMs_of.
  destruct (retryAfterHeader r) as [h|]; [|by intros [= <-]].
  destruct (parseInt10 h) as [seconds|] eqn:Hparse; [|done].
  intros [= <-]. destruct h as [|c h]; [discriminate Hparse|]. reflexivity.
Qed.

(** The standard family obeys the rate-limit rule. *)
Lemma standard_rate_limit_rule model :
  isAntigravityModel model = false -> rate_limit_rule model.
Proof.
  intros Hstd contents st w account w1 accessToken w2 r ms Hsel _ Htok Hr H429 Hms Hvalid.
  unfold attempt_body. rewrite Hstd.
  rewrite (callStandardApi_body_eq _ _ _ _ _ _ _ _ Hsel Htok). cbv zeta.
  rewrite Hr, H429. simpl (429 =? 429). cbv iota.
  destruct (selected_unmarked _ _ _ _ _ Hsel Htok) as (_ & Hd & _ & _ & Hc & _).
  destruct (markRateLimited_spec (Account.id account) (retryAfterMs_of r)
              (sent (standard_request model accessToken contents) w2))
    as (w4 & Hmark & Hrl & Hd4 & _).
  rewrite (claimed_retry_ms_spec _ _ Hms) in Hmark, Hrl.
  change (clock (sent (standard_request model accessToken contents) w2)
            (reads (sent (standard_request model accessToken contents) w2)))
    with (clock w2 (reads w2)) in Hmark, Hrl.
  unfold num_add in Hmark, Hrl. rewrite Hc in Hmark, Hrl. rewrite Hvalid in Hmark.
  rewrite (claimed_retry_ms_spec _ _ Hms), Hmark.
  exists w4. split; [done|]. split; [done|]. by rewrite Hd4.
Qed.




(** ** Transient errors in the dispatcher *)

Lemma transient_status r :
  (status r >=? 500) = true -> (status r =? 429) = false /\ negb (ok r) = true.
Proof.
  intros H. apply Z.geb_le in H. split; [apply Z.eqb_neq; lia|].
  unfold ok. destruct (status r <=? 299) eqn:E; [|by rewrite andb_false_r].
  apply Z.leb_le in E. lia.
Qed.

(** The standard family obeys the transient-error rule. *)
Lemma standard_transient_rule model :
  isAntigravityModel model = false -> transient_rule model.
Proof.
  intros Hstd contents st w account w1 accessToken w2 Hsel _ Htok Htransient Hcount.
  unfold attempt_body. rewrite Hstd.
  rewrite (callStandardApi_body_eq _ _ _ _ _ _ _ _ Hsel Htok). cbv zeta.
  destruct (selected_unmarked _ _ _ _ _ Hsel Htok) as (_ & Hd & _).
  assert (Hfail : forall e,
    match count_failure st e (sent (standard_request model accessToken contents) w2) with
    | (Ok (Continue st'), w') =>
        networkRetryCount st' = networkRetryCount st + 1 /\
        delays w' =
          (if networkRetryCount st' <=? MAX_RETRIES
           then (delays w ++ [1000 * 2 ^ (networkRetryCount st' - 1)])%list
           else delays w)
    | (Throw (ApiError _), w') => networkRetryCount st = MAX_RETRIES /\ delays w' = delays w
    | _ => False
    end).
  { intros e. rewrite count_failure_eq. simpl. split; [done|].
    destruct (_ <=? _); simpl; by rewrite Hd. }
  destruct (next_reply w2 0) as [m|r]; [apply Hfail|].
  simpl in Htransient. destruct (transient_status r Htransient) as [-> ->].
  destruct (json r) as [m|data]; [apply Hfail|].
  rewrite Htransient. simpl.
  destruct (networkRetryCount st + 1 <=? MAX_RETRIES) eqn:E; [apply Hfail|].
  apply Z.leb_gt in E. simpl. split; [lia|done].
Qed.

(** When every candidate URL makes the extended family move on, the
    [for] ends with all URLs tried. *)
Lemma try_endpoints_all_move_on baseUrls account accessToken projectId contents :
  forall c l w,
  (forall i, (i < length baseUrls)%nat -> moves_on (next_reply w i) = true) ->
  exists c' l' w',
    try_endpoints baseUrls account accessToken projectId contents c l w =
      (Ok (EndpointsTried c' l'), w') /\
    net_frame w w'.
Proof.
  induction baseUrls as [|baseUrl rest IH]; intros c l w Hall.
  - exists c, l, w. split; [done|reflexivity].
  - rewrite try_endpoints_cons. cbv zeta. set (w1 := sent _ w).
    assert (Hrest : forall c0 l0, exists c' l' w',
      try_endpoints rest account accessToken projectId contents c0 l0 w1 =
        (Ok (EndpointsTried c' l'), w') /\ net_frame w w').
    { intros c0 l0. destruct (IH c0 l0 w1) as (c' & l' & w' & Hrun & Hf).
      - intros i Hi. unfold w1. rewrite next_reply_sent. apply Hall. simpl. lia.
      - exists c', l', w'. split; [done|]. transitivity w1; [apply sent_net_frame|done]. }
    specialize (Hall 0%nat ltac:(simpl; lia)). unfold moves_on in Hall.
    destruct (next_reply w 0) as [m|r]; [apply Hrest|].
    destruct (status r =? 429); [apply Hrest|].
    simpl in Hall. rewrite Hall. apply Hrest.
Qed.

(** An attempt of the extended family none of whose candidates serves
    consumes one unit of the budget. *)
Lemma antigravity_unavailable_attempt contents model st w account w1 projectId accessToken w2 :
  getNextAccount w = (Ok account, w1) ->
  Account.projectId account = Some projectId ->
  truthy_string projectId = true ->
  getAccessToken (Account.id account) w1 = (Ok accessToken, w2) ->
  (forall i, (i < 3)%nat -> moves_on (next_reply w2 i) = true) ->
  exists e w',
    callAntigravityApi_body contents model st w =
      (Ok (Continue {| lastError := Some e;
                       networkRetryCount := networkRetryCount st + 1 |}), w') /\
    delays w' =
      if networkRetryCount st + 1 <=? MAX_RETRIES
      then (delays w ++ [1000 * 2 ^ networkRetryCount st])%list
      else delays w.
Proof.
  intros Hsel Hproj Htruthy Htok Hall.
  destruct (selected_unmarked _ _ _ _ _ Hsel Htok) as (_ & Hd & _).
  rewrite (callAntigravityApi_body_eq _ _ _ _ _ _ _ _ _ Hsel Hproj Htruthy Htok).
  destruct (try_endpoints_all_move_on ANTIGRAVITY_API_BASE_URLS account accessToken
              projectId contents 0 (Fin DEFAULT_RATE_LIMIT_MS) (stamped w2))
    as (c & l & w4 & Hrun & Hf4); [done|].
  destruct Hf4 as (_ & _ & _ & _ & _ & Hd4 & _).
  change (delays (stamped w2)) with (delays w2) in Hd4.
  rewrite Hrun.
  assert (Hfail : forall e w5, delays w5 = delays w ->
    exists e0 w',
      count_failure st e w5 =
        (Ok (Continue {| lastError := Some e0;
                         networkRetryCount := networkRetryCount st + 1 |}), w') /\
      delays w' =
        if networkRetryCount st + 1 <=? MAX_RETRIES
        then (delays w ++ [1000 * 2 ^ networkRetryCount st])%list
        else delays w).
  { intros e w5 Hd5. rewrite count_failure_eq, getBackoffDelay_succ.
    eexists _, _. split; [reflexivity|]. destruct (_ <=? _); simpl; by rewrite Hd5. }
  destruct (c =? 3); [|apply Hfail; congruence].
  destruct (markRateLimited_spec (Account.id account) l w4) as (w5 & Hmark & _ & Hd5 & _).
  rewrite Hmark. destruct (valid_time _).
  - apply Hfail. congruence.
  - rewrite on_error_eq. simpl. apply Hfail. congruence.
Qed.

Lemma serving_intro w a :
  a ∈ accounts (managerData w) ->
  rateLimits w !! Account.id a = None ->
  (forall a, a ∈ accounts (managerData w) ->
             exists c, tokenCache w !! Account.id a = Some c /\
                       forall k, isExpired_at (clock w k) (expiresAt c) = false) ->
  serving w.
Proof.
  intros Hin Hnone Htok. split; [|done]. exists a. split; [done|].
  unfold available_at. by rewrite Hnone.
Qed.

(** In a serving world an attempt of the standard family selects an
    account, takes its cached token and sends one request; the world
    after the request is serving again. *)
Lemma serving_attempt contents model w :
  serving w ->
  exists account w1 accessToken w2 w3,
    getNextAccount w = (Ok account, w1) /\
    getAccessToken (Account.id account) w1 = (Ok accessToken, w2) /\
    w3 = sent (standard_request model accessToken contents) w2 /\
    next_reply w2 0 = next_reply w 0 /\
    serving w3 /\
    (forall i, next_reply w3 i = next_reply w (S i)) /\
    length (requests w3) = S (length (requests w)) /\
    delays w3 = delays w.
Proof.
  intros [(a & Hin & Hav) Htokens].
  destruct (getNextAccount_some w a Hin Hav) as (account & w1 & Hsel).
  destruct (getNextAccount_ok _ _ _ Hsel) as (Hacc & _ & Hnone & _ & c & Hw1).
  destruct (Htokens account Hacc) as (entry & Hentry & Hfresh).
  assert (Htok : getAccessToken (Account.id account) w1 =
                 (Ok (cached_accessToken entry), set_reads (S (reads w1)) w1)).
  { apply getAccessToken_cached; rewrite Hw1; [done|apply Hfresh]. }
  eexists account, w1, (cached_accessToken entry), (set_reads (S (reads w1)) w1), _.
  split; [done|]. split; [done|]. split; [reflexivity|].
  rewrite Hw1 in *. split; [reflexivity|]. split.
  - apply (serving_intro _ account); [done|done|]. intros b Hb. apply (Htokens b Hb).
  - split; [intros i; by rewrite next_reply_sent|]. split; [|done].
    unfold sent. simpl. rewrite length_app. simpl. lia.
Qed.

Lemma serving_waited ms w : serving w -> serving (waited ms w).
Proof. intros H. exact H. Qed.

(** A transient failure while the budget lasts: the loop goes on with
    the counter incremented, after the backoff delay. *)
Lemma transient_loop_retry contents model prefix fuel st w :
  serving w ->
  is_transient (next_reply w 0) = true ->
  networkRetryCount st + 1 <= MAX_RETRIES ->
  exists e w',
    serving w' /\
    (forall i, next_reply w' i = next_reply w (S i)) /\
    length (requests w') = S (length (requests w)) /\
    delays w' = (delays w ++ [1000 * 2 ^ networkRetryCount st])%list /\
    retry_loop (callStandardApi_body contents model) prefix (S fuel) st w =
    retry_loop (callStandardApi_body contents model) prefix fuel
      {| lastError := Some e; networkRetryCount := networkRetryCount st + 1 |} w'.
Proof.
  intros Hserving Htransient Hcount.
  destruct (serving_attempt contents model w Hserving)
    as (account & w1 & accessToken & w2 & w3 & Hsel & Htok & Hw3 & Hr & Hs3 & Hshift & Hlen & Hd).
  rewrite retry_loop_step by lia.
  rewrite (callStandardApi_body_eq _ _ _ _ _ _ _ _ Hsel Htok). cbv zeta.
  rewrite <- Hw3, Hr.
  assert (Hfail : forall e, exists e0 w',
    serving w' /\
    (forall i, next_reply w' i = next_reply w (S i)) /\
    length (requests w') = S (length (requests w)) /\
    delays w' = (delays w ++ [1000 * 2 ^ networkRetryCount st])%list /\
    match count_failure st e w3 with
    | (Ok (Continue st'), w') =>
        retry_loop (callStandardApi_body contents model) prefix fuel st' w'
    | (Ok (Return text), w') => (Returned text, w')
    | (Throw e, w') => (Raised e, w')
    end =
    retry_loop (callStandardApi_body contents model) prefix fuel
      {| lastError := Some e0; networkRetryCount := networkRetryCount st + 1 |} w').
  { intros e. rewrite count_failure_eq, getBackoffDelay_succ.
    apply Z.leb_le in Hcount. rewrite Hcount.
    exists e, (waited (1000 * 2 ^ networkRetryCount st) w3).
    split; [by apply serving_waited|]. split; [done|]. split; [done|].
    split; [|done]. simpl. by rewrite Hd. }
  destruct (next_reply w 0) as [m|r]; [apply Hfail|].
  simpl in Htransient. destruct (transient_status r Htransient) as [-> ->].
  destruct (json r) as [m|data]; [apply Hfail|].
  rewrite Htransient. apply Z.leb_le in Hcount. rewrite Hcount. simpl. apply Hfail.
Qed.

(** A transient failure that uses up the budget: the call throws. *)
Lemma transient_loop_last contents model fuel st w :
  serving w ->
  is_transient (next_reply w 0) = true ->
  networkRetryCount st = MAX_RETRIES ->
  exists w',
    retry_loop (callStandardApi_body contents model) "Request" (S fuel) st w =
      (Raised (ApiError (exhausted_message (next_reply w 0))), w') /\
    length (requests w') = S (length (requests w)) /\
    delays w' = delays w.
Proof.
  intros Hserving Htransient Hcount.
  destruct (serving_attempt contents model w Hserving)
    as (account & w1 & accessToken & w2 & w3 & Hsel & Htok & Hw3 & Hr & Hs3 & Hshift & Hlen & Hd).
  rewrite retry_loop_step by lia.
  rewrite (callStandardApi_body_eq _ _ _ _ _ _ _ _ Hsel Htok). cbv zeta.
  rewrite <- Hw3, Hr.
  assert (Hfail : forall m, exists w',
    match count_failure st (PlainError m) w3 with
    | (Ok (Continue st'), w') =>
        retry_loop (callStandardApi_body contents model) "Request" fuel st' w'
    | (Ok (Return text), w') => (Returned text, w')
    | (Throw e, w') => (Raised e, w')
    end =
    (Raised (ApiError ("Request failed after 3 retries: " ++
                       (if truthy_string m then m else "Unknown error"))), w') /\
    length (requests w') = S (length (requests w)) /\
    delays w' = delays w).
  { intros m. rewrite count_failure_eq, Hcount. simpl.
    rewrite retry_loop_exhausted by (simpl; unfold MAX_RETRIES; lia).
    exists w3. by repeat split. }
  destruct (next_reply w 0) as [m|r]; [apply Hfail|].
  simpl in Htransient. destruct (transient_status r Htransient) as [-> ->].
  simpl. destruct (json r) as [m|data]; [apply Hfail|].
  rewrite Htransient, Hcount. simpl. exists w3. by repeat split.
Qed.

(** Four transient failures in a row, in a serving world. *)
Lemma standard_four_failures contents model w fuel :
  serving w ->
  (forall i, (i < 4)%nat -> is_transient (next_reply w i) = true) ->
  (4 <= fuel)%nat ->
  exists w',
    callStandardApi fuel contents model w =
      (Raised (ApiError (exhausted_message (next_reply w 3))), w') /\
    delays w' = (delays w ++ [1000; 2000; 4000])%list /\
    length (requests w') = (length (requests w) + 4)%nat.
Proof.
  intros Hserving Hall Hfuel.
  destruct fuel as [|[|[|[|fuel]]]]; try lia. clear Hfuel.
  unfold callStandardApi.
  destruct (transient_loop_retry contents model "Request" (S (S (S fuel))) initial w)
    as (e1 & wa & Hsa & Hna & Hla & Hda & ->);
    [done|apply Hall; lia|simpl; unfold MAX_RETRIES; lia|].
  change (networkRetryCount initial + 1) with 1 in *.
  destruct (transient_loop_retry contents model "Request" (S (S fuel))
              {| lastError := Some e1; networkRetryCount := 1 |} wa)
    as (e2 & wb & Hsb & Hnb & Hlb & Hdb & ->);
    [done|rewrite Hna; apply Hall; lia|simpl; unfold MAX_RETRIES; lia|].
  change (networkRetryCount {| lastError := Some e1; networkRetryCount := 1 |} + 1)
    with 2 in *.
  destruct (transient_loop_retry contents model "Request" (S fuel)
              {| lastError := Some e2; networkRetryCount := 2 |} wb)
    as (e3 & wc & Hsc & Hnc & Hlc & Hdc & ->);
    [done|rewrite Hnb, Hna; apply Hall; lia|simpl; unfold MAX_RETRIES; lia|].
  change (networkRetryCount {| lastError := Some e2; networkRetryCount := 2 |} + 1)
    with 3 in *.
  destruct (transient_loop_last contents model fuel
              {| lastError := Some e3; networkRetryCount := 3 |} wc)
    as (wd & -> & Hld & Hdd);
    [done|rewrite Hnc, Hnb, Hna; apply Hall; lia|reflexivity|].
  exists wd. rewrite Hnc, Hnb, Hna. split; [done|]. split.
  - rewrite Hdd, Hdc, Hdb, Hda. simpl. by rewrite <- !app_assoc.
  - rewrite Hld, Hlc, Hlb, Hla. lia.
Qed.

(** When some candidate URL does not make the extended family move on,
    the [for] ends early: with a text, or with an [ApiError]. *)
Lemma try_endpoints_decisive baseUrls account accessToken projectId contents :
  forall c l w res w',
  try_endpoints baseUrls account accessToken projectId contents c l w = (res, w') ->
  ~ (forall i, (i < length baseUrls)%nat -> moves_on (next_reply w i) = true) ->
  delays w' = delays w /\
  match res with
  | Ok (EndpointReturned _) => True
  | Ok (EndpointsTried _ _) => False
  | Throw e => instanceof_ApiError e = true
  end.
Proof.
  induction baseUrls as [|baseUrl rest IH]; intros c l w res w' Hrun Hnot.
  - exfalso. apply Hnot. intros i Hi. simpl in Hi. lia.
  - rewrite try_endpoints_cons in Hrun. cbv zeta in Hrun.
    set (w1 := sent (antigravity_request baseUrl accessToken projectId contents) w) in Hrun.
    assert (Hrest : forall c0 l0,
      moves_on (next_reply w 0) = true ->
      try_endpoints rest account accessToken projectId contents c0 l0 w1 = (res, w') ->
      delays w' = delays w /\
      match res with
      | Ok (EndpointReturned _) => True
      | Ok (EndpointsTried _ _) => False
      | Throw e => instanceof_ApiError e = true
      end).
    { intros c0 l0 H0 Hrun'. apply (IH c0 l0 w1 res w' Hrun').
      intros Hall. apply Hnot. intros [|i] Hi; [done|].
      rewrite <- (next_reply_sent (antigravity_request baseUrl accessToken projectId contents)).
      apply Hall. simpl in Hi. lia. }
    destruct (next_reply w 0) as [m|r] eqn:Hr; [by apply (Hrest c l)|].
    destruct (status r =? 429) eqn:H429;
      [eapply Hrest; [simpl; by rewrite H429|exact Hrun]|].
    destruct ((status r =? 404) || (status r >=? 500)) eqn:Hmove;
      [eapply Hrest; [simpl; rewrite H429; exact Hmove|exact Hrun]|].
    destruct (negb (ok r)); [by injection Hrun as <- <-|].
    destruct (truthy_string _); by injection Hrun as <- <-.
Qed.

(** An attempt of the extended family one of whose candidates does not
    make it move on ends the call: it returns a text or throws an
    [ApiError], and neither counts nor waits. *)
Lemma antigravity_decisive_attempt contents model st w account w1 projectId accessToken w2 :
  getNextAccount w = (Ok account, w1) ->
  Account.projectId account = Some projectId ->
  truthy_string projectId = true ->
  getAccessToken (Account.id account) w1 = (Ok accessToken, w2) ->
  ~ (forall i, (i < 3)%nat -> moves_on (next_reply w2 i) = true) ->
  match callAntigravityApi_body contents model st w with
  | (Ok (Return _), w') => delays w' = delays w
  | (Ok (Continue _), _) => False
  | (Throw e, w') => instanceof_ApiError e = true /\ delays w' = delays w
  end.
Proof.
  intros Hsel Hproj Htruthy Htok Hnot.
  destruct (selected_unmarked _ _ _ _ _ Hsel Htok) as (_ & Hd & _).
  rewrite (callAntigravityApi_body_eq _ _ _ _ _ _ _ _ _ Hsel Hproj Htruthy Htok).
  destruct (try_endpoints _ _ _ _ _ _ _ _) as [res w4] eqn:Hrun.
  apply try_endpoints_decisive in Hrun as (Hd4 & Hres); [|done].
  change (delays (stamped w2)) with (delays w2) in Hd4.
  destruct res as [[text|c l]|e]; [congruence|done|].
  rewrite on_error_eq, Hres, orb_true_r. split; [done|congruence].
Qed.

(** C2, as the code has it.  In the standard family each network
    failure or 5xx response consumes one unit of the budget of 3
    retries; before retry [k] the dispatcher waits [1000 * 2^(k-1)] ms;
    four such failures in a row end the call, after four requests and
    the delays 1000, 2000, 4000, with an [ApiError] whose message wraps
    the message of the last failure.  In the extended family a network
    failure or 5xx response of one candidate URL consumes nothing by
    itself: the next candidate URL is tried with the variables of the
    attempt as they were.  An attempt that has obtained its token
    consumes one unit, with the same delay, exactly when each of its
    three candidates failed in that way or replied 429 or 404;
    otherwise it ends the call, with a text or an [ApiError], and
    nothing is counted or waited for.  In both families, an exhausted
    budget ends the loop with an [ApiError] that wraps the message of
    the last error. *)
Theorem transient_retry_policy :
  (forall model, isAntigravityModel model = false -> transient_rule model) /\
  (forall model contents w fuel,
     isAntigravityModel model = false ->
     serving w ->
     (forall i, (i < 4)%nat -> is_transient (next_reply w i) = true) ->
     (4 <= fuel)%nat ->
     exists w',
       callApi fuel contents model w =
         (Raised (ApiError (exhausted_message (next_reply w 3))), w') /\
       delays w' = (delays w ++ [1000; 2000; 4000])%list /\
       length (requests w') = (length (requests w) + 4)%nat) /\
  (forall model contents st w account w1 projectId accessToken w2,
     isAntigravityModel model = true ->
     getNextAccount w = (Ok account, w1) ->
     Account.projectId account = Some projectId ->
     truthy_string projectId = true ->
     getAccessToken (Account.id account) w1 = (Ok accessToken, w2) ->
     (forall i, (i < 3)%nat -> moves_on (next_reply w2 i) = true) ->
     exists e w',
       attempt_body contents model st w =
         (Ok (Continue {| lastError := Some e;
                          networkRetryCount := networkRetryCount st + 1 |}), w') /\
       delays w' =
         if networkRetryCount st + 1 <=? MAX_RETRIES
         then (delays w ++ [1000 * 2 ^ networkRetryCount st])%list
         else delays w) /\
  (forall body prefix fuel st w,
     MAX_RETRIES < networkRetryCount st ->
     retry_loop body prefix fuel st w =
     (Raised (ApiError (prefix ++ " failed after 3 retries: " ++ lastError_message st)), w)) /\
  (forall baseUrl rest account accessToken projectId contents c l w,
     is_transient (next_reply w 0) = true ->
     try_endpoints (baseUrl :: rest) account accessToken projectId contents c l w =
     try_endpoints rest account accessToken projectId contents c l
       (sent (antigravity_request baseUrl accessToken projectId contents) w)) /\
  (forall model contents st w account w1 projectId accessToken w2,
     isAntigravityModel model = true ->
     getNextAccount w = (Ok account, w1) ->
     Account.projectId account = Some projectId ->
     truthy_string projectId = true ->
     getAccessToken (Account.id account) w1 = (Ok accessToken, w2) ->
     ~ (forall i, (i < 3)%nat -> moves_on (next_reply w2 i) = true) ->
     match attempt_body contents model st w with
     | (Ok (Return _), w') => delays w' = delays w
     | (Ok (Continue _), _) => False
     | (Throw e, w') => instanceof_ApiError e = true /\ delays w' = delays w
     end).
Proof.
  split; [apply standard_transient_rule|]. split; [|split; [|split; [|split]]].
  - intros model contents w fuel Hstd Hserving Hall Hfuel.
    unfold callApi. rewrite Hstd. by apply standard_four_failures.
  - intros model contents st w account w1 projectId accessToken w2 Hext.
    unfold attempt_body. rewrite Hext. apply antigravity_unavailable_attempt.
  - intros. by apply retry_loop_exhausted.
  - intros baseUrl rest account accessToken projectId contents c l w Htransient.
    rewrite try_endpoints_cons. cbv zeta.
    destruct (next_reply w 0) as [m|r]; [done|].
    simpl in Htransient. destruct (transient_status r Htransient) as [-> _].
    by rewrite Htransient, orb_true_r.
  - intros model contents st w account w1 projectId accessToken w2 Hext.
    unfold attempt_body. rewrite Hext. apply antigravity_decisive_attempt.
Qed.

Lemma transient_retry_policy_witness :
  exists w',
    generateContent 10 "hi" None network_down_world =
      (Raised (ApiError "Request failed after 3 retries: Network error"), w') /\
    delays w' = [1000; 2000; 4000] /\
    length (requests w') = 4%nat.
Proof.
  destruct transient_retry_policy as (_ & Hrun & _).
  apply (Hrun "gemini-2.5-flash" [("user", ["hi"])] network_down_world 10%nat).
  - reflexivity.
  - split.
    + exists (account_of "account-1" "user1@example.com" (Some "token-1") (Some 3600000)
                (Some "project-1")).
      split; [apply list_elem_of_here|reflexivity].
    + intros a Ha. apply list_elem_of_In in Ha. simpl in Ha.
      destruct Ha as [<- | [<- | [<- | []]]]; eexists; (split; [reflexivity|]);
        intros k; reflexivity.
  - intros i _. reflexivity.
  - lia.
Defined.

(** C2, as the specification states it, fails for the extended family:
    a 503 response of the first candidate URL consumes no unit of the
    budget and brings no delay when the second candidate serves. *)
Lemma extended_5xx_consumes_nothing :
  (generateContent 10 "hi" (Some "gemini-3-pro") unavailable_then_ok_world).1 =
    Returned "Hello, world" /\
  delays (generateContent 10 "hi" (Some "gemini-3-pro") unavailable_then_ok_world).2 = [] /\
  length (requests (generateContent 10 "hi" (Some "gemini-3-pro")
                      unavailable_then_ok_world).2) = 2%nat /\
  ~ transient_rule "gemini-3-pro".
Proof.
  split; [vm_compute; reflexivity|]. split; [vm_compute; reflexivity|].
  split; [vm_compute; reflexivity|].
  intros Hrule.
  assert (H := Hrule [("user", ["hi"])] initial unavailable_then_ok_world
                (account_of "account-1" "user1@example.com" (Some "token-1") (Some 3600000)
                   (Some "project-1"))
                (getNextAccount unavailable_then_ok_world).2 "token-1"
                (getAccessToken "account-1" (getNextAccount unavailable_then_ok_world).2).2).
  vm_compute in H. apply H; (reflexivity || (split; discriminate)).
Qed.

(** ** Accounts without a project in the extended family *)

(** Selecting an account without a project is one [continue]. *)
Lemma callAntigravityApi_body_skip contents model st w account w1 :
  getNextAccount w = (Ok account, w1) ->
  truthy_ostring (Account.projectId account) = false ->
  callAntigravityApi_body contents model st w = (Ok (Continue st), w1).
Proof.
  intros Hsel Hproj. unfold callAntigravityApi_body, bind. rewrite Hsel.
  destruct (Account.projectId account) as [p|]; [|done].
  simpl in Hproj. by rewrite Hproj.
Qed.

Lemma callAntigravityApi_spins contents model : forall fuel w,
  (forall a, a ∈ accounts (managerData w) ->
             truthy_ostring (Account.projectId a) = false) ->
  (exists a, a ∈ accounts (managerData w) /\
             available_at (clock w (reads w)) (rateLimits w) (Account.id a) = true) ->
  exists w',
    retry_loop (callAntigravityApi_body contents model) "Antigravity request" fuel initial w =
      (Running initial, w') /\
    delays w' = delays w /\ requests w' = requests w /\
    tokenRequests w' = tokenRequests w /\ quotas w' = quotas w /\
    managerData w' = managerData w /\ rateLimits w' ⊆ rateLimits w /\
    reads w' = (fuel + reads w)%nat.
Proof.
  induction fuel as [|fuel IH]; intros w Hnone (a & Hin & Hav).
  - exists w. by repeat split.
  - destruct (getNextAccount_some w a Hin Hav) as (account & w1 & Hsel).
    destruct (getNextAccount_ok _ _ _ Hsel) as (Hacc & _ & Hfree & Hsub & c & Hw1).
    rewrite retry_loop_step by (simpl; unfold MAX_RETRIES; lia).
    rewrite (callAntigravityApi_body_skip _ _ _ _ _ _ Hsel (Hnone _ Hacc)).
    destruct (IH w1) as (w' & Hrun & Hd & Hrq & Htr & Hq & Hm & Hrl & Hreads).
    + rewrite Hw1. exact Hnone.
    + exists account. split; [by rewrite Hw1|]. unfold available_at. by rewrite Hfree.
    + exists w'. rewrite Hrun, Hd, Hrq, Htr, Hq, Hm, Hreads, Hw1. simpl.
      repeat split; try done; try lia.
      etransitivity; [exact Hrl|]. rewrite Hw1. apply filter_available_subseteq.
Qed.

(** C10 (accounts without a project).  For a model of the extended
    family, when no account of the directory has a project and the
    rotator has an account to return, the call is still running after
    any number of turns of its loop: every turn selects an account and
    skips it, the retry counter stays 0, nothing is requested, no
    account is marked, no delay is taken, and nothing is returned or
    thrown. *)
Theorem extended_call_without_project_never_ends fuel prompt model w :
  isAntigravityModel model = true ->
  (forall a, a ∈ accounts (managerData w) ->
             truthy_ostring (Account.projectId a) = false) ->
  (exists a, a ∈ accounts (managerData w) /\
             available_at (clock w (reads w)) (rateLimits w) (Account.id a) = true) ->
  exists w',
    generateContent fuel prompt (Some model) w = (Running initial, w') /\
    networkRetryCount initial = 0 /\
    delays w' = delays w /\ requests w' = requests w /\
    tokenRequests w' = tokenRequests w /\
    rateLimits w' ⊆ rateLimits w /\
    reads w' = (fuel + reads w)%nat.
Proof.
  intros Hext Hnone Hsome.
  destruct (callAntigravityApi_spins [("user", [prompt])] model fuel w Hnone Hsome)
    as (w' & Hrun & Hd & Hrq & Htr & _ & _ & Hrl & Hreads).
  exists w'. unfold generateContent, callApi, callAntigravityApi. simpl nullish.
  rewrite Hext, Hrun. by repeat split.
Qed.

Lemma extended_call_without_project_never_ends_witness :
  (generateContent 1000 "hi" (Some "gemini-3-pro") revoked_world).1 = Running initial.
Proof.
  destruct (extended_call_without_project_never_ends 1000 "hi" "gemini-3-pro" revoked_world)
    as (w' & Hrun & _).
  - reflexivity.
  - intros a Ha. apply list_elem_of_In in Ha. simpl in Ha.
    destruct Ha as [<- | [<- | [<- | []]]]; reflexivity.
  - exists (account_of "account-1" "user1@example.com" None None None).
    split; [apply list_elem_of_here|reflexivity].
  - by rewrite Hrun.
Defined.

(** ** The text of a successful response *)

Lemma string_app_assoc (a b c : string) : (a ++ b) ++ c = a ++ (b ++ c).
Proof.
  induction a as [|x a IH]; [done|].
  change (String x ((a ++ b) ++ c) = String x (a ++ (b ++ c))). by rewrite IH.
Qed.

Lemma string_app_nil_r (a : string) : a ++ "" = a.
Proof.
  induction a as [|x a IH]; [done|].
  change (String x (a ++ "") = String x a). by rewrite IH.
Qed.

(** The event parser of the extended family and [transformFromAntigravity]
    join all the texts of the parts that are not empty. *)
Lemma parts_text_concat ps : parts_text ps = foldr String.append "" (nonempty_texts ps).
Proof.
  unfold parts_text.
  assert (H : forall acc,
    foldl (fun fullText p =>
             match part_text p with
             | Some t => if truthy_string t then fullText ++ t else fullText
             | None => fullText
             end) acc ps = acc ++ foldr String.append "" (nonempty_texts ps)).
  { induction ps as [|p ps IH]; intros acc; simpl; [by rewrite string_app_nil_r|].
    rewrite IH. destruct (part_text p) as [t|]; [|done].
    destruct (truthy_string t); [|done]. simpl. by rewrite string_app_assoc. }
  by rewrite H.
Qed.

Lemma transformFromAntigravity_concat rest p ps e :
  nonempty_texts (p :: ps) <> [] ->
  transformFromAntigravity
    {| candidates := Some ({| content := Some {| parts := Some (p :: ps) |} |} :: rest);
       error := e |} = Ok (foldr String.append "" (nonempty_texts (p :: ps))).
Proof.
  intros Hne. unfold transformFromAntigravity. cbn [candidates content].
  by destruct (nonempty_texts (p :: ps)).
Qed.

(** The extractor of the standard family returns the text of the first
    part, whatever the parts after it hold. *)
Lemma extractStandardResponseText_first data c cs p ps t w :
  candidates data = Some (c :: cs) ->
  content c = Some {| parts := Some (p :: ps) |} ->
  part_text p = Some t ->
  truthy_string t = true ->
  extractStandardResponseText data w = (Ok t, w).
Proof.
  intros Hc Hcontent Hp Ht. unfold extractStandardResponseText.
  by rewrite Hc, Hcontent, Hp, Ht.
Qed.

(** C7 at a response with two text parts.  The usage of the serving
    account is incremented (from 5 to 6), but the standard family
    returns the first part only, where [transformFromAntigravity] and
    the extended family return both parts joined. *)
Lemma standard_text_is_first_part_only :
  (generateContent 10 "hi" None two_parts_world).1 = Returned "Hello, " /\
  QuotaData.used <$> quotas (generateContent 10 "hi" None two_parts_world).2 !! "account-1"
    = Some 6%float /\
  transformFromAntigravity
    {| candidates :=
         Some [ {| content :=
                     Some {| parts := Some [ {| part_text := Some "Hello, " |};
                                             {| part_text := Some "world" |} ] |} |} ];
       error := None |} = Ok "Hello, world" /\
  (generateContent 10 "hi" (Some "gemini-3-pro") two_parts_world).1 = Returned "Hello, world".
Proof. repeat split; vm_compute; reflexivity. Qed.

(** ** Rotation *)

(** The scan returns the first account from the cursor whose id is
    available, and leaves the cursor behind it. *)
Lemma scan_first allAccounts ids a : forall j fuel cur,
  (j < fuel)%nat ->
  (forall i b, (i < j)%nat ->
     allAccounts !! ((cur + i) mod length allAccounts)%nat = Some b ->
     Account.id b ∉ ids) ->
  allAccounts !! ((cur + j) mod length allAccounts)%nat = Some a ->
  Account.id a ∈ ids ->
  scan fuel allAccounts ids cur = (Some a, ((cur + j + 1) mod length allAccounts)%nat).
Proof.
  induction j as [|j IH]; intros fuel cur Hfuel Hbefore Ha Hid;
    (destruct fuel as [|fuel]; [lia|]); simpl.
  - rewrite Nat.add_0_r in Ha. rewrite Ha. rewrite decide_True by done.
    by rewrite Nat.add_0_r.
  - assert (Hskip : scan fuel allAccounts ids ((cur + 1) mod length allAccounts)%nat =
                    (Some a, ((cur + S j + 1) mod length allAccounts)%nat)).
    { rewrite (IH fuel ((cur + 1) mod length allAccounts)%nat).
      - f_equal.
        replace ((cur + 1) mod length allAccounts + j + 1)%nat
          with ((cur + 1) mod length allAccounts + (j + 1))%nat by lia.
        rewrite Nat.Div0.add_mod_idemp_l. f_equal. lia.
      - lia.
      - intros i b Hi Hb. apply (Hbefore (S i) b); [lia|].
        rewrite Nat.Div0.add_mod_idemp_l in Hb. by replace (cur + S i)%nat with (cur + 1 + i)%nat by lia.
      - rewrite Nat.Div0.add_mod_idemp_l. by replace (cur + 1 + j)%nat with (cur + S j)%nat by lia.
      - done. }
    destruct (allAccounts !! (cur mod length allAccounts)%nat) as [b|] eqn:Hb; [|done].
    rewrite decide_False; [done|]. apply (Hbefore 0%nat b); [lia|]. by rewrite Nat.add_0_r.
Qed.

(** [getNextAccount] returns the first account from the cursor that can
    pass the filter, and leaves the cursor one place behind it. *)
Lemma getNextAccount_first_available w a j :
  let l := accounts (managerData w) in
  let now := clock w (reads w) in
  (j < length l)%nat ->
  (forall i b, (i < j)%nat ->
     l !! ((currentIndex w + i) mod length l)%nat = Some b ->
     available_at now (rateLimits w) (Account.id b) = false) ->
  l !! ((currentIndex w + j) mod length l)%nat = Some a ->
  available_at now (rateLimits w) (Account.id a) = true ->
  getNextAccount w =
  (Ok a, set_currentIndex ((currentIndex w + j + 1) mod length l)%nat (swept w)).
Proof.
  intros l now Hj Hbefore Ha Hav. rewrite getNextAccount_eq. fold l now.
  assert (Hin : a ∈ l) by (eapply list_elem_of_lookup_2, Ha).
  assert (Hfa : a ∈ (filter_available now l (rateLimits w)).1).
  { apply filter_available_fst. by split. }
  destruct (filter_available now l (rateLimits w)).1 as [|first rest] eqn:Hf;
    [inversion Hfa|].
  assert (Hids : forall b, Account.id b ∈
                   (list_to_set (Account.id <$> first :: rest) : gset string) ->
                 available_at now (rateLimits w) (Account.id b) = true).
  { intros b Hb. apply elem_of_list_to_set, list_elem_of_fmap in Hb as (b' & Hid & Hb').
    rewrite <- Hf in Hb'. apply filter_available_fst in Hb' as [_ Hb']. by rewrite Hid. }
  cbv zeta. rewrite (scan_first _ _ a j _ (currentIndex w)); [done|done| |done|].
  - intros i b Hi Hb Hmem. apply Hids in Hmem. rewrite (Hbefore i b Hi Hb) in Hmem. done.
  - apply elem_of_list_to_set, list_elem_of_fmap. eauto.
Qed.

(** With no listed account limited, [getNextAccount] returns the
    account under the cursor and advances the cursor by one, modulo the
    number of accounts. *)
Lemma getNextAccount_none_limited w a :
  (forall b, b ∈ accounts (managerData w) ->
     available_at (clock w (reads w)) (rateLimits w) (Account.id b) = true) ->
  accounts (managerData w) !! (currentIndex w mod length (accounts (managerData w)))%nat
    = Some a ->
  getNextAccount w =
  (Ok a, set_currentIndex ((currentIndex w + 1) mod length (accounts (managerData w)))%nat
           (swept w)).
Proof.
  intros Hall Ha.
  assert (Hin : a ∈ accounts (managerData w)) by (eapply list_elem_of_lookup_2, Ha).
  rewrite (getNextAccount_first_available w a 0).
  - by rewrite Nat.add_0_r.
  - destruct (accounts (managerData w)); [inversion Hin|simpl; lia].
  - intros i b Hi. lia.
  - by rewrite Nat.add_0_r.
  - by apply Hall.
Qed.

Lemma swept_none_limited w :
  rateLimits w = ∅ -> rateLimits (swept w) = ∅.
Proof.
  intros H. unfold swept. simpl. apply map_empty. intros k.
  rewrite filter_available_snd, H. by rewrite lookup_empty.
Qed.

(** The [i]-th of [k] selections in a row, with no account ever
    limited, is the account [i] places after the cursor. *)
Lemma next_accounts_lookup : forall k w i,
  rateLimits w = ∅ ->
  (i < k)%nat ->
  accounts (managerData w) <> [] ->
  (next_accounts k w).1 !! i =
  Ok <$> accounts (managerData w)
           !! ((currentIndex w + i) mod length (accounts (managerData w)))%nat.
Proof.
  induction k as [|k IH]; intros w i Hnone Hi Hne; [lia|].
  assert (Hlen : (0 < length (accounts (managerData w)))%nat).
  { destruct (accounts (managerData w)); [done|simpl; lia]. }
  destruct (lookup_lt_is_Some_2 (accounts (managerData w))
              (currentIndex w mod length (accounts (managerData w)))%nat) as [a Ha].
  { apply Nat.mod_upper_bound. lia. }
  cbn [next_accounts]. cbv zeta.
  rewrite (getNextAccount_none_limited w a);
    [|intros b _; unfold available_at; by rewrite Hnone, lookup_empty|done].
  destruct i as [|i]; simpl.
  - by rewrite Nat.add_0_r, Ha.
  - rewrite IH; [|by apply swept_none_limited|lia|done]. simpl.
    rewrite Nat.Div0.add_mod_idemp_l. do 3 f_equal. lia.
Qed.

Lemma rotate_nat_add_mod base offset len :
  rotate_nat_add base offset len = ((base + offset) mod len)%nat.
Proof.
  unfold rotate_nat_add.
  by rewrite <- Nat2Z.inj_add, <- Nat2Z.inj_mod, Nat2Z.id.
Qed.

(** Round robin: for [N] accounts with none limited, [N] selections in
    a row return the accounts in the order of the list, starting at the
    cursor, hence each account once; the selection after them returns
    the first of them again. *)
Lemma round_robin w :
  rateLimits w = ∅ ->
  accounts (managerData w) <> [] ->
  let l := accounts (managerData w) in
  (next_accounts (length l) w).1 = Ok <$> rotate (currentIndex w) l /\
  (next_accounts (length l) w).1 ≡ₚ Ok <$> l /\
  (next_accounts (S (length l)) w).1 !! length l = (next_accounts (S (length l)) w).1 !! 0%nat.
Proof.
  intros Hnone Hne l.
  assert (Hlen : forall k, length (next_accounts k w).1 = k).
  { intros k. revert w Hnone Hne l. induction k as [|k IH]; intros w Hnone Hne l; [done|].
    simpl. f_equal. destruct (lookup_lt_is_Some_2 (accounts (managerData w))
              (currentIndex w mod length (accounts (managerData w)))%nat) as [a Ha].
    { apply Nat.mod_upper_bound. destruct (accounts (managerData w)); [done|simpl; lia]. }
    rewrite (getNextAccount_none_limited w a);
      [|intros b _; unfold available_at; by rewrite Hnone, lookup_empty|done].
    apply IH; [by apply swept_none_limited|done]. }
  assert (Hrot : (next_accounts (length l) w).1 = Ok <$> rotate (currentIndex w) l).
  { apply list_eq. intros i.
    destruct (decide (i < length l)%nat) as [Hi|Hi].
    - rewrite next_accounts_lookup by done.
      by rewrite list_lookup_fmap, lookup_rotate_r, rotate_nat_add_mod.
    - rewrite !lookup_ge_None_2; [done| |].
      + rewrite length_fmap, length_rotate. lia.
      + rewrite Hlen. lia. }
  split; [done|]. split.
  - rewrite Hrot. apply fmap_Permutation. unfold rotate.
    rewrite Permutation_app_comm. by rewrite take_drop.
  - assert (0 < length l)%nat.
    { unfold l. destruct (accounts (managerData w)); [done|simpl; lia]. }
    rewrite !next_accounts_lookup; try done; try lia.
    do 2 f_equal. fold l. rewrite Nat.add_0_r.
    by rewrite <- Nat.Div0.add_mod_idemp_r, Nat.Div0.mod_same, Nat.add_0_r.
Qed.

(** ** The retry hint *)

Lemma foldl_earliest l : forall acc,
  match foldl earliest_step acc l with
  | None => acc = None /\ forall e, e ∈ l -> availableAt e = NaN
  | Some m =>
      (acc = Some m \/ exists e, e ∈ l /\ availableAt e = Fin m) /\
      (forall a, acc = Some a -> m <= a) /\
      (forall e a, e ∈ l -> availableAt e = Fin a -> m <= a)
  end.
Proof.
  induction l as [|x l IH]; intros acc; simpl.
  - destruct acc as [m|].
    + split; [by left|]. split; [intros a [= ->]; lia|]. intros e a He. inversion He.
    + split; [done|]. intros e He. inversion He.
  - specialize (IH (earliest_step acc x)).
    destruct (foldl earliest_step (earliest_step acc x) l) as [m|].
    + destruct IH as (Hwit & Hacc & Hall). unfold earliest_step in Hwit, Hacc.
      destruct (availableAt x) as [ax|] eqn:Hx.
      * destruct acc as [a0|].
        -- destruct (ax <? a0) eqn:Hlt.
           ++ apply Z.ltb_lt in Hlt. specialize (Hacc ax eq_refl). split.
              ** destruct Hwit as [[= <-]|(e & He & Hm)].
                 --- right. exists x. split; [by left|done].
                 --- right. exists e. split; [by right|done].
              ** split; [intros a [= <-]; lia|].
                 intros e a [->|He]%elem_of_cons Ha; [|by eapply Hall].
                 rewrite Hx in Ha. injection Ha as <-. lia.
           ++ apply Z.ltb_ge in Hlt. specialize (Hacc a0 eq_refl). split.
              ** destruct Hwit as [[= <-]|(e & He & Hm)]; [by left|].
                 right. exists e. split; [by right|done].
              ** split; [intros a [= <-]; lia|].
                 intros e a [->|He]%elem_of_cons Ha; [|by eapply Hall].
                 rewrite Hx in Ha. injection Ha as <-. lia.
        -- specialize (Hacc ax eq_refl). split.
           ++ destruct Hwit as [[= <-]|(e & He & Hm)].
              ** right. exists x. split; [by left|done].
              ** right. exists e. split; [by right|done].
           ++ split; [done|].
              intros e a [->|He]%elem_of_cons Ha; [|by eapply Hall].
              rewrite Hx in Ha. injection Ha as <-. lia.
      * split.
        -- destruct Hwit as [?|(e & He & Hm)]; [by left|].
           right. exists e. split; [by right|done].
        -- split; [done|].
           intros e a [->|He]%elem_of_cons Ha; [congruence|by eapply Hall].
    + destruct IH as [Hacc Hall]. unfold earliest_step in Hacc.
      destruct (availableAt x) as [ax|] eqn:Hx.
      * destruct acc as [a0|]; [destruct (ax <? a0)|]; discriminate.
      * split; [done|]. intros e [->|He]%elem_of_cons; [done|by apply Hall].
Qed.

(** [earliest_of] is the least of the finite [availableAt] of the
    entries of the map. *)
Lemma earliest_of_spec (limits : gmap string RateLimitEntry) :
  match earliest_of limits with
  | None => forall k e, limits !! k = Some e -> availableAt e = NaN
  | Some m =>
      (exists k e, limits !! k = Some e /\ availableAt e = Fin m) /\
      (forall k e a, limits !! k = Some e -> availableAt e = Fin a -> m <= a)
  end.
Proof.
  unfold earliest_of.
  pose proof (foldl_earliest (map_to_list limits).*2 None) as H.
  assert (Hin : forall e, e ∈ (map_to_list limits).*2 <-> exists k, limits !! k = Some e).
  { intros e. rewrite list_elem_of_fmap. split.
    - intros ([k e'] & -> & Hke). exists k. by apply elem_of_map_to_list.
    - intros (k & Hk). exists (k, e). split; [done|]. by apply elem_of_map_to_list. }
  destruct (foldl earliest_step None _) as [m|].
  - destruct H as ([?|(e & He & Hm)] & _ & Hall); [done|]. split.
    + apply Hin in He as (k & Hk). eauto.
    + intros k e' a Hk Ha. apply (Hall e' a); [|done]. apply Hin. eauto.
  - destruct H as [_ Hall]. intros k e Hk. apply Hall, Hin. eauto.
Qed.

(** When no listed account can pass, [getNextAccount] throws the
    all-accounts-limited error; its retry hint is 0 when the map has no
    finite entry, and otherwise the least [availableAt] over the
    entries of the map less the clock reading, or 0 when that is
    negative.  The entries are those of the map, whether or not the
    directory lists their accounts. *)
Lemma getNextAccount_all_limited w :
  (forall b, b ∈ accounts (managerData w) ->
     available_at (clock w (reads w)) (rateLimits w) (Account.id b) = false) ->
  getNextAccount w =
  (Throw (AllAccountsRateLimitedError
            match earliest_of (rateLimits w) with
            | None => 0
            | Some earliest => Z.max 0 (earliest - clock w (S (reads w)))
            end),
   set_reads (S (S (reads w))) w).
Proof.
  intros Hall. rewrite getNextAccount_eq.
  assert (Hkeep : (filter_available (clock w (reads w)) (accounts (managerData w))
                     (rateLimits w)).2 = rateLimits w).
  { apply map_eq. intros k. rewrite filter_available_snd.
    destruct (rateLimits w !! k) as [e|] eqn:Hk; [|done].
    destruct (num_geb _ _) eqn:He; [|done].
    destruct (bool_decide _) eqn:Hin; [|done].
    apply bool_decide_eq_true, list_elem_of_fmap in Hin as (b & -> & Hb).
    specialize (Hall b Hb). unfold available_at in Hall. rewrite Hk in Hall. congruence. }
  destruct (filter_available _ _ _).1 as [|first rest] eqn:Hf.
  - unfold swept. rewrite Hkeep. by destruct w.
  - assert (Hfirst : first ∈ (filter_available (clock w (reads w)) (accounts (managerData w))
                               (rateLimits w)).1) by (rewrite Hf; by left).
    apply filter_available_fst in Hfirst as [Hin Hav]. rewrite (Hall _ Hin) in Hav. done.
Qed.

(** C5 at a rate-limit entry whose account the directory does not
    list.  (1) With an empty account list, after a mark for an account
    that is not listed, the retry hint is the 5000 ms of that mark, not
    0.  (2) With one account, marked for 60000 ms at clock value 2000,
    and the expired mark (until 1000) of an account that is not listed,
    the retry hint is 0, not the 60000 ms after which the one account
    is available. *)
Lemma getNextAccount_hint_counts_unlisted_entries :
  (accounts (managerData empty_directory_world) = [] /\
   (getNextAccount
      (markRateLimited "removed-account" (Fin 5000) empty_directory_world).2).1 =
   Throw (AllAccountsRateLimitedError 5000)) /\
  (let w := (markRateLimited "account-1" (Fin 60000)
               (markRateLimited "removed-account" (Fin 1000) one_account_world).2).2 in
   Account.id <$> accounts (managerData w) = ["account-1"] /\
   clock w (reads w) = 2000 /\
   availableAt <$> rateLimits w !! "account-1" = Some (Fin 62000) /\
   availableAt <$> rateLimits w !! "removed-account" = Some (Fin 1000) /\
   (getNextAccount w).1 = Throw (AllAccountsRateLimitedError 0)).
Proof. repeat split; vm_compute; reflexivity. Qed.

(** * Further properties *)

(** ** The directory of the account manager *)

Lemma find_account_Some accountId l a :
  find_account accountId l = Some a -> a ∈ l /\ Account.id a = accountId.
Proof.
  induction l as [|b l IH]; simpl; [done|].
  destruct (String.eqb (Account.id b) accountId) eqn:E.
  - intros [= <-]. apply String.eqb_eq in E. split; [by left|done].
  - intros H. destruct (IH H). split; [by right|done].
Qed.

Lemma find_account_None accountId l :
  find_account accountId l = None <-> accountId ∉ Account.id <$> l.
Proof.
  induction l as [|b l IH]; simpl.
  - split; [intros _ H; inversion H|done].
  - destruct (String.eqb (Account.id b) accountId) eqn:E.
    + apply String.eqb_eq in E. split; [done|]. intros H. exfalso. apply H. rewrite E. by left.
    + apply String.eqb_neq in E. rewrite IH, not_elem_of_cons.
      split; [intros ?; split; [congruence|done]|by intros [_ ?]].
Qed.

Lemma find_account_is_Some accountId l :
  is_Some (find_account accountId l) <-> accountId ∈ Account.id <$> l.
Proof.
  rewrite <- not_eq_None_Some, find_account_None.
  destruct (decide (accountId ∈ Account.id <$> l)); naive_solver.
Qed.

(** The first account with the id [accountId] is at [index]; deleting
    it leaves the look-ups of the other ids as they were. *)
Lemma find_account_delete accountId other l index :
  findIndex_account accountId l = Some index ->
  other <> accountId ->
  find_account other (delete index l) = find_account other l.
Proof.
  revert index. induction l as [|a l IH]; intros index; simpl; [done|].
  destruct (String.eqb (Account.id a) accountId) eqn:E.
  - intros [= <-] Hne. simpl. apply String.eqb_eq in E.
    destruct (String.eqb (Account.id a) other) eqn:E'; [|done].
    apply String.eqb_eq in E'. congruence.
  - destruct (findIndex_account accountId l) as [i|]; [|done].
    intros [= <-] Hne. simpl. by rewrite (IH i).
Qed.

(** X1 (removing an account).  [removeAccount] of an id the directory
    does not hold returns [false] and changes nothing, not even the
    time stamp.  Otherwise it returns [true] and removes, in the
    directory the manager holds, the first account with this id, at
    its index, and no other: the look-up of every other id gives what
    it gave, and when the ids of the directory are pairwise distinct
    the removed id is no longer found.  The marks of the rotator, the
    quota records, and the tokens and the copy of the store that the
    token manager caches are not touched: those of the removed
    account stay.  (The write to the store that the operation starts
    is not part of the statement.) *)
Theorem removeAccount_removes_first_match (accountId : string) (w : World) :
  match find_account accountId (accounts (managerData w)) with
  | None => removeAccount accountId w = (Ok false, w)
  | Some a =>
      exists index w',
        removeAccount accountId w = (Ok true, w') /\
        accounts (managerData w) !! index = Some a /\
        accounts (managerData w') = delete index (accounts (managerData w)) /\
        (forall other, other <> accountId ->
           find_account other (accounts (managerData w')) =
           find_account other (accounts (managerData w))) /\
        (NoDup (Account.id <$> accounts (managerData w)) ->
           find_account accountId (accounts (managerData w')) = None) /\
        rateLimits w' = rateLimits w /\ quotas w' = quotas w /\
        tokenCache w' = tokenCache w /\ storageCache w' = storageCache w
  end.
Proof.
  rewrite find_account_lookup. unfold removeAccount, bind, gets. simpl.
  destruct (findIndex_account accountId (accounts (managerData w))) as [index|] eqn:Hi;
    [|reflexivity].
  destruct (accounts (managerData w) !! index) as [a|] eqn:Ha.
  - eexists index, _. split; [reflexivity|]. split; [done|]. split; [reflexivity|].
    split; [|split; [|done]].
    + intros other Hne. simpl. by apply (find_account_delete accountId).
    + intros Hnd. simpl. apply find_account_None.
      apply findIndex_account_ids in Hi. rewrite list_fmap_delete.
      apply (delete_Permutation _ _ _) in Hi as Hperm. rewrite Hperm in Hnd.
      by apply NoDup_cons in Hnd as [? _].
  - apply findIndex_account_ids in Hi. rewrite list_lookup_fmap, Ha in Hi. done.
Qed.

Lemma find_account_app accountId l1 l2 :
  find_account accountId (l1 ++ l2) =
  match find_account accountId l1 with
  | Some a => Some a
  | None => find_account accountId l2
  end.
Proof.
  induction l1 as [|a l1 IH]; simpl; [done|].
  by destruct (String.eqb (Account.id a) accountId).
Qed.

(** A status update changes neither the ids nor the emails of the
    directory, nor their order. *)
Lemma updateAccountStatus_accounts accountId st w :
  let l := accounts (managerData w) in
  let l' := accounts (managerData (updateAccountStatus accountId st w).2) in
  Account.id <$> l' = Account.id <$> l /\ Account.email <$> l' = Account.email <$> l /\
  activeAccountId (managerData (updateAccountStatus accountId st w).2) =
    activeAccountId (managerData w).
Proof.
  unfold updateAccountStatus, bind, gets. simpl.
  destruct (findIndex_account accountId (accounts (managerData w))) as [i|]; simpl; [|done].
  destruct (accounts (managerData w) !! i) as [a|] eqn:Ha; simpl; [|done].
  rewrite !list_fmap_insert. simpl.
  split; [|split; [|done]]; apply list_insert_id; by rewrite list_lookup_fmap, Ha.
Qed.

Lemma active_listed_ids d d' :
  Account.id <$> accounts d' = Account.id <$> accounts d ->
  activeAccountId d' = activeAccountId d ->
  active_listed d -> active_listed d'.
Proof.
  unfold active_listed. intros Hids ->.
  destruct (activeAccountId d) as [i|].
  - by rewrite !find_account_is_Some, Hids.
  - intros Hnil. rewrite Hnil in Hids. by apply fmap_nil_inv in Hids.
Qed.

Lemma addAccount_eq toLowerCase uuid options w :
  addAccount toLowerCase true uuid options w =
  match List.find (same_email toLowerCase (new_email options)) (accounts (managerData w)) with
  | Some _ =>
      (Throw (AuthenticationError
                ("Account with email " ++ new_email options ++ " already exists")), w)
  | None =>
      let account := new_account uuid options (clock w (reads w)) in
      let data :=
        {| version := version (managerData w);
           activeAccountId :=
             match accounts (managerData w) with
             | [] => Some uuid
             | _ :: _ => activeAccountId (managerData w)
             end;
           accounts := (accounts (managerData w) ++ [account])%list;
           updatedAt := clock w (reads w) |} in
      (Ok account, set_disk data (set_managerData data (set_reads (S (reads w)) w)))
  end.
Proof.
  unfold addAccount, bind, ensureInitialized, gets. simpl.
  destruct (List.find _ _); [reflexivity|]. simpl.
  rewrite length_app. simpl.
  destruct (accounts (managerData w)) as [|a l]; simpl; [reflexivity|].
  replace (length l + 1 =? 0)%nat with false; [reflexivity|].
  symmetry. apply Nat.eqb_neq. lia.
Qed.

(** An account manager that is not initialized yet loads the store
    first. *)
Lemma addAccount_uninitialized toLowerCase uuid options w :
  addAccount toLowerCase false uuid options w =
  addAccount toLowerCase true uuid options (set_managerData (disk w) w).
Proof. reflexivity. Qed.

Lemma addAccount_active toLowerCase uuid options w :
  active_listed (managerData w) ->
  active_listed (managerData (addAccount toLowerCase true uuid options w).2).
Proof.
  intros Hinv. rewrite addAccount_eq.
  destruct (List.find _ _); [done|]. cbv zeta. simpl.
  unfold active_listed in *. simpl.
  destruct (accounts (managerData w)) as [|a l] eqn:Hl; simpl.
  - rewrite String.eqb_refl. by eexists.
  - destruct (activeAccountId (managerData w)) as [i|]; [|done].
    change (is_Some (find_account i ((a :: l) ++ [new_account uuid options (clock w (reads w))]))).
    rewrite find_account_app. by destruct Hinv as [x ->].
Qed.

Lemma removeAccount_active accountId w :
  active_listed (managerData w) ->
  active_listed (managerData (removeAccount accountId w).2).
Proof.
  intros Hinv. unfold removeAccount, bind, gets. simpl.
  destruct (findIndex_account accountId (accounts (managerData w))) as [index|] eqn:Hi;
    [|done]. simpl. unfold active_listed in *. simpl.
  destruct (bool_decide _) eqn:Hact.
  - destruct (delete index (accounts (managerData w))) as [|b rest]; simpl; [done|].
    rewrite String.eqb_refl. by eexists.
  - apply bool_decide_eq_false in Hact.
    destruct (activeAccountId (managerData w)) as [i|].
    + rewrite (find_account_delete accountId); [done|done|congruence].
    + rewrite Hinv in Hi. done.
Qed.

Lemma setActiveAccount_active accountId w :
  active_listed (managerData w) ->
  active_listed (managerData (setActiveAccount accountId w).2).
Proof.
  intros Hinv. unfold setActiveAccount, bind, gets, manager_getAccount. simpl.
  destruct (find_account accountId (accounts (managerData w))) as [a|] eqn:Ha; [|done].
  simpl. unfold active_listed. simpl. by rewrite Ha.
Qed.

(** X2 (the active account).  The account manager keeps its active
    account among its accounts: when the active account id of the
    directory names a listed account, or is null with no account
    listed, this is still so after [addAccount] (on a manager that is
    initialized, and, with the same property of the store, on one that
    is not), [removeAccount], [setActiveAccount] and
    [updateAccountStatus], whatever their arguments and whether they
    return or throw.  In particular removing the active account makes
    the first remaining account the active one. *)
Theorem active_account_stays_listed (toLowerCase : string -> string) (w : World) :
  (active_listed (managerData w) ->
   (forall uuid options,
      active_listed (managerData (addAccount toLowerCase true uuid options w).2)) /\
   (forall accountId, active_listed (managerData (removeAccount accountId w).2)) /\
   (forall accountId, active_listed (managerData (setActiveAccount accountId w).2)) /\
   (forall accountId st,
      active_listed (managerData (updateAccountStatus accountId st w).2)) /\
   (forall accountId w',
      activeAccountId (managerData w) = Some accountId ->
      removeAccount accountId w = (Ok true, w') ->
      activeAccountId (managerData w') = Account.id <$> head (accounts (managerData w')))) /\
  (active_listed (disk w) ->
   forall uuid options,
     active_listed (managerData (addAccount toLowerCase false uuid options w).2)).
Proof.
  split.
  - intros Hinv. split; [intros; by apply addAccount_active|].
    split; [intros; by apply removeAccount_active|].
    split; [intros; by apply setActiveAccount_active|].
    split.
    + intros accountId st.
      destruct (updateAccountStatus_accounts accountId st w) as (Hids & _ & Hact).
      by apply (active_listed_ids (managerData w)).
    + intros accountId w' Hact. unfold removeAccount, bind, gets. simpl.
      destruct (findIndex_account accountId (accounts (managerData w))); [|done].
      intros [= <-]. simpl. by rewrite bool_decide_eq_true_2.
  - intros Hinv uuid options. rewrite addAccount_uninitialized.
    by apply addAccount_active.
Qed.

Lemma active_account_stays_listed_witness :
  active_listed (managerData (removeAccount "account-1" partial_429_world).2) /\
  activeAccountId (managerData (removeAccount "account-1" partial_429_world).2) =
    Some "account-2".
Proof.
  destruct (active_account_stays_listed lower_string partial_429_world) as [H _].
  destruct H as (_ & Hremove & _ & _ & Hfirst).
  - unfold active_listed. simpl. by eexists.
  - split; [apply Hremove|].
    by rewrite (Hfirst "account-1" (removeAccount "account-1" partial_429_world).2).
Defined.

Lemma same_email_find_none toLowerCase email l :
  List.find (same_email toLowerCase email) l = None <->
  toLowerCase email ∉ (fun a => toLowerCase (Account.email a)) <$> l.
Proof.
  induction l as [|a l IH]; simpl.
  - split; [intros _ H; inversion H|done].
  - unfold same_email at 1. destruct (String.eqb _ _) eqn:E.
    + apply String.eqb_eq in E. split; [done|]. intros H. exfalso. apply H. rewrite E. by left.
    + apply String.eqb_neq in E. rewrite IH, not_elem_of_cons.
      split; [intros ?; split; [congruence|done]|by intros [_ ?]].
Qed.

(** X3 (one account per email).  [addAccount] rejects, with an
    authentication error and before it changes anything, an email that
    an account of the directory already has, letter case apart.  Hence
    the emails of the directory stay pairwise distinct, letter case
    apart, under [addAccount], [removeAccount], [setActiveAccount] and
    [updateAccountStatus]. *)
Theorem emails_stay_distinct (toLowerCase : string -> string) (w : World) :
  (forall uuid options a,
     a ∈ accounts (managerData w) ->
     toLowerCase (Account.email a) = toLowerCase (new_email options) ->
     addAccount toLowerCase true uuid options w =
       (Throw (AuthenticationError
                 ("Account with email " ++ new_email options ++ " already exists")), w)) /\
  (emails_distinct toLowerCase (managerData w) ->
   (forall uuid options,
      emails_distinct toLowerCase
        (managerData (addAccount toLowerCase true uuid options w).2)) /\
   (forall accountId,
      emails_distinct toLowerCase (managerData (removeAccount accountId w).2)) /\
   (forall accountId,
      emails_distinct toLowerCase (managerData (setActiveAccount accountId w).2)) /\
   (forall accountId st,
      emails_distinct toLowerCase (managerData (updateAccountStatus accountId st w).2))).
Proof.
  split.
  - intros uuid options a Hin Heq. rewrite addAccount_eq.
    destruct (List.find _ _) eqn:Hfind; [done|].
    apply same_email_find_none in Hfind. exfalso. apply Hfind.
    apply list_elem_of_fmap. exists a. by split.
  - intros Hinv. unfold emails_distinct in *. split; [|split; [|split]].
    + intros uuid options. rewrite addAccount_eq.
      destruct (List.find _ _) eqn:Hfind; [done|]. cbv zeta. simpl.
      apply same_email_find_none in Hfind.
      rewrite fmap_app. apply NoDup_app. split; [done|]. split; [|apply NoDup_singleton].
      intros x Hx Hx'. simpl in Hx'. apply list_elem_of_singleton in Hx'. by subst.
    + intros accountId. unfold removeAccount, bind, gets. simpl.
      destruct (findIndex_account accountId (accounts (managerData w))) as [index|];
        [|done]. simpl. rewrite list_fmap_delete.
      eapply sublist_NoDup; [exact Hinv|apply sublist_delete].
    + intros accountId. unfold setActiveAccount, bind, gets, manager_getAccount. simpl.
      by destruct (find_account accountId (accounts (managerData w))).
    + intros accountId st.
      destruct (updateAccountStatus_accounts accountId st w) as (_ & Hemails & _).
      cbv zeta in Hemails.
      rewrite (list_fmap_compose Account.email toLowerCase) in Hinv |- *.
      by rewrite Hemails.
Qed.

Lemma emails_stay_distinct_witness :
  (addAccount lower_string true "account-4"
     {| new_refreshToken := "refresh-token"; new_email := "User2@Example.com";
        new_authMode := None; new_projectId := None |} partial_429_world).1 =
    Throw (AuthenticationError "Account with email User2@Example.com already exists") /\
  emails_distinct lower_string
    (managerData
       (addAccount lower_string true "account-4"
          {| new_refreshToken := "refresh-token"; new_email := "user4@example.com";
             new_authMode := None; new_projectId := None |} partial_429_world).2).
Proof.
  destruct (emails_stay_distinct lower_string partial_429_world) as [Hdup Hinv].
  split.
  - rewrite (Hdup "account-4" _
               (account_of "account-2" "user2@example.com" (Some "token-2") (Some 3600000)
                  (Some "project-2"))); [reflexivity| |reflexivity].
    right. left.
  - apply Hinv. unfold emails_distinct.
    apply (bool_decide_unpack (NoDup _)). vm_compute. reflexivity.
Defined.

(** X4 (choosing the active account).  [setActiveAccount] of an id the
    directory does not hold throws an authentication error and changes
    nothing.  Of an id it holds, it makes [getActiveAccount] return
    the first account with this id, the accounts being left as they
    are; the one exception is the empty id, which [getActiveAccount]
    reads as no active account. *)
Theorem setActiveAccount_getActiveAccount (accountId : string) (w : World) :
  match find_account accountId (accounts (managerData w)) with
  | None =>
      setActiveAccount accountId w =
        (Throw (AuthenticationError ("Account not found: " ++ accountId)), w)
  | Some a =>
      exists w',
        setActiveAccount accountId w = (Ok tt, w') /\
        accounts (managerData w') = accounts (managerData w) /\
        getActiveAccount w' =
          (Ok (if truthy_string accountId then Some a else None), w')
  end.
Proof.
  unfold setActiveAccount, bind, gets, manager_getAccount. simpl.
  destruct (find_account accountId (accounts (managerData w))) as [a|] eqn:Ha; [|done].
  eexists. split; [reflexivity|]. split; [reflexivity|].
  unfold getActiveAccount, bind, gets, manager_getAccount. simpl.
  destruct (truthy_string accountId); [|done]. unfold ret. by rewrite Ha.
Qed.

(** ** The errors of the token manager *)

Section Raising.

Context (P : Error -> Prop).

Lemma raises_ret {A : Type} (a : A) : raises P (ret a).
Proof. intros w e w' [=]. Qed.

Lemma raises_throw {A : Type} (e : Error) : P e -> raises P (@throw A e).
Proof. by intros He w e' w' [= <- _]. Qed.

Lemma raises_gets {A : Type} (f : World -> A) : raises P (gets f).
Proof. intros w e w' [=]. Qed.

Lemma raises_modify (f : World -> World) : raises P (modify f).
Proof. intros w e w' [=]. Qed.

Lemma raises_Date_now : raises P Date_now.
Proof. intros w e w' [=]. Qed.

Lemma raises_bind {A B : Type} (m : M A) (k : A -> M B) :
  raises P m -> (forall a, raises P (k a)) -> raises P (bind m k).
Proof.
  intros Hm Hk w e w'. unfold bind.
  destruct (m w) as [[a|e0] w1] eqn:Hmw.
  - apply Hk.
  - intros [= <- <-]. by eapply Hm.
Qed.

(** What the guarded block throws does not matter: the handler sees
    it. *)
Lemma raises_try_catch {A : Type} (m : M A) (h : Error -> M A) :
  (forall e, raises P (h e)) -> raises P (try_catch m h).
Proof.
  intros Hh w e w'. unfold try_catch.
  destruct (m w) as [[a|e0] w1]; [done|apply Hh].
Qed.

End Raising.

Ltac raising :=
  repeat first
    [ apply raises_ret | apply raises_gets | apply raises_modify | apply raises_Date_now
    | apply raises_throw; reflexivity
    | apply raises_bind; [|intros ?]
    | match goal with
      | |- raises _ (match ?x with _ => _ end) => destruct x
      | |- raises _ (if ?x then _ else _) => destruct x
      end ].

Lemma doRefresh_raises accountId : raises is_authentication_error (doRefresh accountId).
Proof.
  unfold doRefresh, getAccount, storage_load. apply raises_bind; [raising|].
  intros [account|]; [|raising]. destruct (negb _); [raising|].
  apply raises_try_catch. intros e. destruct (instanceof_AuthenticationError e) eqn:He.
  - by apply raises_throw.
  - by apply raises_throw.
Qed.

(** X5 (errors of the token manager).  Whatever goes wrong while a
    token is obtained, with a store that can be read and written:
    unknown account, no refresh token, the token endpoint out of
    reach, an unreadable reply, a refused grant, the account missing
    from the store when the new token is written; what
    [getAccessToken] and [refreshToken] throw is an
    [AuthenticationError], never another kind of error. *)
Theorem token_manager_throws_authentication_errors (accountId : string)
    (w : World) (e : Error) (w' : World) :
  getAccessToken accountId w = (Throw e, w') \/ refreshToken accountId w = (Throw e, w') ->
  instanceof_AuthenticationError e = true.
Proof.
  intros [H|H]; [|by apply (doRefresh_raises accountId w e w')].
  revert w e w' H. change (raises is_authentication_error (getAccessToken accountId)).
  unfold getAccessToken, isExpired, getAccount, storage_load, cacheToken.
  apply raises_bind; [raising|]. intros cached.
  apply raises_bind; [raising|]. intros [tok|]; [raising|].
  apply raises_bind; [raising|]. intros [account|]; [|raising].
  apply raises_bind; [raising|]. intros [s|]; [raising|].
  apply doRefresh_raises.
Qed.

Lemma token_manager_throws_authentication_errors_witness :
  exists w',
    getAccessToken "account-1" revoked_world =
      (Throw (AuthenticationError "Token refresh failed: invalid_grant"), w') /\
    instanceof_AuthenticationError
      (AuthenticationError "Token refresh failed: invalid_grant") = true.
Proof.
  eexists. split; [vm_compute; reflexivity|].
  eapply (token_manager_throws_authentication_errors "account-1" revoked_world).
  left. vm_compute. reflexivity.
Defined.

(** ** Refreshed tokens *)

(** What a refresh that succeeds has done. *)
Lemma doRefresh_ok accountId w tok w' :
  doRefresh accountId w = (Ok tok, w') ->
  exists account expires_in index existing,
    find_account accountId (accounts (storage_view w)) = Some account /\
    truthy_string (Account.refreshToken account) = true /\
    tokenEndpoint w (length (tokenRequests w)) = TokenGranted tok expires_in /\
    findIndex_account accountId (accounts (disk w)) = Some index /\
    accounts (disk w) !! index = Some existing /\
    let expiry := clock w (reads w) + expires_in * 1000 in
    let stored :=
      {| version := version (disk w);
         activeAccountId := activeAccountId (disk w);
         accounts :=
           <[index := with_token existing tok expiry (clock w (S (reads w)))]>
             (accounts (disk w));
         updatedAt := clock w (S (S (reads w))) |} in
    tokenCache w' =
      <[accountId := {| cached_accessToken := tok; expiresAt := expiry |}]> (tokenCache w) /\
    disk w' = stored /\ storageCache w' = Some stored /\
    tokenRequests w' =
      (tokenRequests w ++ [actualRefreshToken (Account.refreshToken account)])%list /\
    reads w' = S (S (S (reads w))) /\ clock w' = clock w.
Proof.
  unfold doRefresh, bind. rewrite getAccount_eq.
  destruct (find_account accountId (accounts (storage_view w))) as [account|] eqn:Hacc;
    [|done].
  destruct (truthy_string (Account.refreshToken account)) eqn:Hrt; [|done]. simpl.
  unfold try_catch, bind, callTokenEndpoint, bind, gets, modify. simpl.
  destruct (tokenEndpoint w (length (tokenRequests w))) as [m|m|e d|tok0 expires_in] eqn:Hep;
    simpl; [by unfold throw..|].
  unfold updateAccountToken, bind, storage_load, gets. simpl.
  destruct (findIndex_account accountId (accounts (disk w))) as [index|] eqn:Hi; simpl;
    [|by unfold throw].
  destruct (findIndex_account_lookup _ _ _ Hi) as (existing & Hex & _). rewrite Hex. simpl.
  intros [= <- <-]. exists account, expires_in, index, existing. simpl.
  by repeat split.
Qed.

Lemma getAccessToken_unfold accountId w :
  getAccessToken accountId w =
  match tokenCache w !! accountId with
  | Some c =>
      if isExpired_at (clock w (reads w)) (expiresAt c)
      then getAccessToken_miss accountId (set_reads (S (reads w)) w)
      else (Ok (cached_accessToken c), set_reads (S (reads w)) w)
  | None => getAccessToken_miss accountId w
  end.
Proof.
  unfold getAccessToken. unfold bind at 1, gets at 1.
  destruct (tokenCache w !! accountId) as [c|].
  - unfold bind at 1, isExpired, bind, Date_now, ret. simpl.
    by destruct (isExpired_at _ _).
  - reflexivity.
Qed.

Lemma getAccessToken_miss_eq accountId w :
  getAccessToken_miss accountId w =
  let w0 := set_storageCache (Some (storage_view w)) w in
  match find_account accountId (accounts (storage_view w)) with
  | None => (Throw (AuthenticationError ("Account not found: " ++ accountId)), w0)
  | Some account =>
      match stored_token account with
      | Some (tok, expiry) =>
          if isExpired_at (clock w (reads w)) expiry
          then doRefresh accountId (set_reads (S (reads w)) w0)
          else (Ok tok,
                set_tokenCache
                  (<[accountId := {| cached_accessToken := tok; expiresAt := expiry |}]>
                     (tokenCache w))
                  (set_reads (S (reads w)) w0))
      | None => doRefresh accountId w0
      end
  end.
Proof.
  unfold getAccessToken_miss. unfold bind at 1. rewrite getAccount_eq. cbv zeta.
  destruct (find_account accountId (accounts (storage_view w))) as [account|]; [|done].
  unfold stored_token, bind at 1.
  destruct (Account.accessToken account) as [tok|]; simpl; [|done].
  destruct (truthy_string tok); simpl; [|by destruct (Account.accessTokenExpiry account)].
  destruct (Account.accessTokenExpiry account) as [expiry|]; simpl; [|done].
  destruct (expiry =? 0); simpl; [done|].
  unfold isExpired, bind, Date_now, ret. simpl.
  by destruct (isExpired_at _ _).
Qed.

(** X6 (a refresh is written down).  When [refreshToken] returns a
    token, the token endpoint granted it, and the store and both
    caches of the token manager agree on it: the store holds the
    account with the new token, the expiry [now + expires_in * 1000]
    (the clock being read as the grant arrives) and a new
    [lastUsedAt], and is otherwise as before; the token cache holds
    the token with the same expiry; the cached copy of the storage is
    the store.  No other account and no other cache entry changes. *)
Theorem refresh_is_persisted (accountId : string) (w : World) (tok : string) (w' : World) :
  refreshToken accountId w = (Ok tok, w') ->
  exists existing expires_in,
    find_account accountId (accounts (disk w)) = Some existing /\
    tokenEndpoint w (length (tokenRequests w)) = TokenGranted tok expires_in /\
    let expiry := clock w (reads w) + expires_in * 1000 in
    find_account accountId (accounts (disk w')) =
      Some (with_token existing tok expiry (clock w (S (reads w)))) /\
    tokenCache w' !! accountId =
      Some {| cached_accessToken := tok; expiresAt := expiry |} /\
    storageCache w' = Some (disk w') /\
    (forall other, other <> accountId ->
       find_account other (accounts (disk w')) = find_account other (accounts (disk w)) /\
       tokenCache w' !! other = tokenCache w !! other).
Proof.
  intros H. apply doRefresh_ok in H
    as (account & expires_in & index & existing & _ & _ & Hep & Hi & Hex & H).
  cbv zeta in H. destruct H as (Hcache & Hdisk & Hsc & _ & _ & _).
  exists existing, expires_in.
  split; [by rewrite find_account_lookup, Hi|]. split; [done|]. cbv zeta.
  assert (Hid : Account.id existing = accountId).
  { destruct (findIndex_account_lookup _ _ _ Hi) as (a & Ha & Hid). congruence. }
  split; [|split; [|split; [|]]].
  - rewrite Hdisk. simpl. rewrite (find_account_insert accountId) by done.
    by rewrite String.eqb_refl.
  - by rewrite Hcache, lookup_insert_eq.
  - by rewrite Hsc, Hdisk.
  - intros other Hne. split.
    + rewrite Hdisk. simpl. rewrite (find_account_insert accountId) by done.
      destruct (String.eqb accountId other) eqn:E; [|done].
      apply String.eqb_eq in E. congruence.
    + rewrite Hcache. by rewrite lookup_insert_ne.
Qed.

Lemma refresh_is_persisted_witness :
  Account.accessToken <$>
    find_account "account-1"
      (accounts (disk (refreshToken "account-1" (expiring_world 0)).2)) =
  Some (Some "token-2").
Proof.
  destruct (refresh_is_persisted "account-1" (expiring_world 0) "token-2"
              (refreshToken "account-1" (expiring_world 0)).2)
    as (existing & expires_in & _ & _ & Hstore & _).
  - vm_compute. reflexivity.
  - cbv zeta in Hstore. rewrite Hstore. reflexivity.
Defined.

(** X7 (a token obtained is a token cached).  When [getAccessToken]
    returns a token, by whichever way (from the cache, from the
    storage, or by a refresh), the cache holds this token afterwards;
    and as long as the clock, plus the five minutes of the buffer,
    has not reached the expiry of the cached entry, every later call
    returns the same token and does nothing but read the clock: no
    request to the token endpoint, no access to the store. *)
Theorem getAccessToken_caches_token (accountId : string) (w : World) (tok : string)
    (w1 : World) :
  getAccessToken accountId w = (Ok tok, w1) ->
  exists c,
    tokenCache w1 !! accountId = Some c /\ cached_accessToken c = tok /\
    forall w2,
      tokenCache w2 !! accountId = Some c ->
      clock w2 (reads w2) + 5 * 60 * 1000 < expiresAt c ->
      getAccessToken accountId w2 = (Ok tok, set_reads (S (reads w2)) w2).
Proof.
  intros H.
  assert (Hc : exists c, tokenCache w1 !! accountId = Some c /\ cached_accessToken c = tok).
  { assert (Hrefresh : forall w0, doRefresh accountId w0 = (Ok tok, w1) ->
              exists c, tokenCache w1 !! accountId = Some c /\ cached_accessToken c = tok).
    { intros w0 Hr.
      apply doRefresh_ok in Hr as (account & expires_in & index & existing & _ & _ & _ & _ & _ & Hr).
      cbv zeta in Hr. destruct Hr as (Hcache & _).
      eexists. split; [by rewrite Hcache, lookup_insert_eq|reflexivity]. }
    assert (Hmiss : forall w0, getAccessToken_miss accountId w0 = (Ok tok, w1) ->
              exists c, tokenCache w1 !! accountId = Some c /\ cached_accessToken c = tok).
    { intros w0. rewrite getAccessToken_miss_eq. cbv zeta.
      destruct (find_account accountId (accounts (storage_view w0))) as [account|]; [|done].
      destruct (stored_token account) as [[tok0 expiry]|]; [|apply Hrefresh].
      destruct (isExpired_at _ _); [apply Hrefresh|].
      intros [= <- <-]. eexists. split; [simpl; by rewrite lookup_insert_eq|reflexivity]. }
    rewrite getAccessToken_unfold in H.
    destruct (tokenCache w !! accountId) as [c|] eqn:Hcached; [|by apply (Hmiss w)].
    destruct (isExpired_at _ _); [by eapply Hmiss|].
    injection H as <- <-. by exists c. }
  destruct Hc as (c & Hc & Htok). exists c. split; [done|]. split; [done|].
  intros w2 Hc2 Hfresh. rewrite <- Htok. apply getAccessToken_cached; [done|].
  by apply isExpired_at_false.
Qed.

Lemma getAccessToken_caches_token_witness :
  getAccessToken "account-1" (getAccessToken "account-1" (expiring_world 0)).2 =
  (Ok "token-2",
   set_reads (S (reads (getAccessToken "account-1" (expiring_world 0)).2))
     (getAccessToken "account-1" (expiring_world 0)).2).
Proof.
  destruct (getAccessToken_caches_token "account-1" (expiring_world 0) "token-2"
              (getAccessToken "account-1" (expiring_world 0)).2)
    as (c & Hc & _ & Hagain).
  - vm_compute. reflexivity.
  - apply Hagain; [exact Hc|].
    vm_compute in Hc. injection Hc as <-. vm_compute. reflexivity.
Defined.

(** ** Expiry checks and the caches *)

Lemma stored_token_truthy account :
  truthy_ostring (Account.accessToken account)
  && truthy_oZ (Account.accessTokenExpiry account) = true ->
  exists tok expiry,
    Account.accessTokenExpiry account = Some expiry /\
    stored_token account = Some (tok, expiry).
Proof.
  unfold stored_token, truthy_ostring, truthy_oZ.
  destruct (Account.accessToken account) as [tok|]; [|done].
  destruct (Account.accessTokenExpiry account) as [expiry|];
    [|by rewrite andb_false_r].
  intros H. exists tok, expiry. by rewrite H.
Qed.

(** X8 (what [isTokenExpired] promises).  When [isTokenExpired]
    answers [false] for an account, a call of [getAccessToken] made
    at the same clock reading returns a token without a request to
    the token endpoint and without a write to the store. *)
Theorem isTokenExpired_false_no_refresh (accountId : string) (w w1 : World) :
  isTokenExpired accountId w = (Ok false, w1) ->
  exists tok w2,
    getAccessToken accountId w = (Ok tok, w2) /\
    tokenRequests w2 = tokenRequests w /\ disk w2 = disk w.
Proof.
  unfold isTokenExpired. unfold bind at 1, gets at 1.
  rewrite getAccessToken_unfold.
  destruct (tokenCache w !! accountId) as [c|] eqn:Hc.
  - unfold isExpired, bind, Date_now, ret. simpl.
    destruct (isExpired_at _ _); [done|]. intros _. by eexists _, _.
  - unfold bind at 1, gets at 1. rewrite getAccessToken_miss_eq. unfold storage_view.
    destruct (storageCache w) as [s|] eqn:Hs; [|done]. cbv zeta.
    destruct (find_account accountId (accounts s)) as [account|]; [|done].
    destruct (truthy_ostring _ && truthy_oZ _) eqn:Htruthy; [|done].
    destruct (stored_token_truthy _ Htruthy) as (tok & expiry & -> & ->).
    unfold isExpired, bind, Date_now, ret. simpl.
    destruct (isExpired_at _ _); [done|]. intros _. by eexists _, _.
Qed.

Lemma isTokenExpired_false_no_refresh_witness :
  exists tok w2,
    getAccessToken "account-1" network_down_world = (Ok tok, w2) /\
    tokenRequests w2 = tokenRequests network_down_world /\
    disk w2 = disk network_down_world.
Proof.
  apply (isTokenExpired_false_no_refresh "account-1" network_down_world
           (isTokenExpired "account-1" network_down_world).2).
  vm_compute. reflexivity.
Defined.

(** X9 (clearing the caches).  [clearCache] with an account id forgets
    the cached token of this account and nothing else.  Without an
    id, and also with the empty id, it empties the token cache and
    drops the cached copy of the storage.  After that
    [isTokenExpired] answers [true] for every account, without looking
    at the clock, while [getAccessToken] reads the store again: for
    an account whose stored token has not expired it returns this
    token, with no request to the token endpoint. *)
Theorem clearCache_forgets (w : World) :
  (forall accountId,
     truthy_string accountId = true ->
     clearCache (Some accountId) w =
       (Ok tt, set_tokenCache (delete accountId (tokenCache w)) w)) /\
  (let w' := set_storageCache None (set_tokenCache ∅ w) in
   clearCache None w = (Ok tt, w') /\ clearCache (Some "") w = (Ok tt, w') /\
   (forall accountId, isTokenExpired accountId w' = (Ok true, w')) /\
   (forall accountId account tok expiry,
      find_account accountId (accounts (disk w)) = Some account ->
      stored_token account = Some (tok, expiry) ->
      clock w (reads w) + 5 * 60 * 1000 < expiry ->
      exists w2,
        getAccessToken accountId w' = (Ok tok, w2) /\
        tokenRequests w2 = tokenRequests w /\ disk w2 = disk w)).
Proof.
  split.
  - intros accountId Hid. unfold clearCache. by rewrite Hid.
  - cbv zeta. split; [done|]. split; [done|]. split.
    + intros accountId. unfold isTokenExpired, bind, gets. simpl.
      by rewrite lookup_empty.
    + intros accountId account tok expiry Hacc Hstored Hfresh.
      rewrite getAccessToken_unfold. simpl. rewrite lookup_empty.
      rewrite getAccessToken_miss_eq. unfold storage_view. simpl.
      rewrite Hacc, Hstored, isExpired_at_false by done.
      by eexists.
Qed.

Lemma clearCache_forgets_witness :
  exists w2,
    getAccessToken "account-1" (clearCache None network_down_world).2 =
      (Ok "token-1", w2) /\
    tokenRequests w2 = [] /\ disk w2 = disk network_down_world.
Proof.
  destruct (clearCache_forgets network_down_world) as (_ & Hall & _ & _ & Hstored).
  rewrite Hall.
  apply (Hstored "account-1"
           (account_of "account-1" "user1@example.com" (Some "token-1") (Some 3600000)
              (Some "project-1")) "token-1" 3600000); reflexivity.
Defined.

(** ** New accounts and the token manager *)

(** X10 (a new account and the token manager).  The token manager
    looks accounts up in its cached copy of the storage, which it
    loads once.  An account added by [addAccount] (under a fresh id)
    after that copy was loaded is therefore unknown to
    [getAccessToken]: it throws "Account not found" and sends
    nothing.  Once [clearCache()] is called, as the server does after
    a sign-in, [getAccessToken] reads the store, finds the account as
    [addAccount] saved it, and sends its refresh token to the token
    endpoint. *)
Theorem added_account_and_the_token_manager (toLowerCase : string -> string)
    (uuid : string) (options : AddAccountOptions) (w : World)
    (account : Account.t) (w1 : World) :
  addAccount toLowerCase true uuid options w = (Ok account, w1) ->
  uuid ∉ Account.id <$> accounts (managerData w) ->
  (forall s,
     storageCache w = Some s ->
     find_account uuid (accounts s) = None ->
     tokenCache w !! uuid = None ->
     (getAccessToken uuid w1).1 =
       Throw (AuthenticationError ("Account not found: " ++ uuid)) /\
     tokenRequests (getAccessToken uuid w1).2 = tokenRequests w) /\
  (truthy_string (new_refreshToken options) = true ->
   tokenRequests (getAccessToken uuid (clearCache None w1).2).2 =
     (tokenRequests w ++ [actualRefreshToken (new_refreshToken options)])%list).
Proof.
  rewrite addAccount_eq.
  destruct (List.find _ _); [done|]. cbv zeta. intros [= <- <-] Hfresh.
  apply find_account_None in Hfresh. split.
  - intros s Hs Hnone Hcache. rewrite getAccessToken_unfold. simpl. rewrite Hcache.
    rewrite getAccessToken_miss_eq. unfold storage_view. simpl. by rewrite Hs, Hnone.
  - intros Hrt. simpl. rewrite getAccessToken_unfold. simpl. rewrite lookup_empty.
    rewrite getAccessToken_miss_eq. unfold storage_view. simpl.
    rewrite find_account_app, Hfresh. simpl. rewrite String.eqb_refl.
    unfold stored_token. simpl. cbv zeta.
    rewrite (doRefresh_calls_endpoint uuid _ (new_account uuid options (clock w (reads w))));
      [done| |done].
    unfold storage_view. simpl. rewrite find_account_app, Hfresh. simpl.
    by rewrite String.eqb_refl.
Qed.

Lemma added_account_and_the_token_manager_witness :
  (getAccessToken "account-4"
     (addAccount lower_string true "account-4" fourth_account warmed_up_world).2).1 =
    Throw (AuthenticationError "Account not found: account-4") /\
  tokenRequests
    (getAccessToken "account-4"
       (clearCache None
          (addAccount lower_string true "account-4" fourth_account warmed_up_world).2).2).2 =
    ["refresh-token"; "refresh-4"].
Proof.
  destruct (added_account_and_the_token_manager lower_string "account-4" fourth_account
              warmed_up_world (new_account "account-4" fourth_account 0)
              (addAccount lower_string true "account-4" fourth_account warmed_up_world).2)
    as [Hstale Hcleared].
  - vm_compute. reflexivity.
  - apply (bool_decide_unpack (_ ∉ _)). vm_compute. reflexivity.
  - split.
    + apply (Hstale (storage_of enrolled_accounts)); vm_compute; reflexivity.
    + rewrite Hcleared; [|reflexivity]. vm_compute. reflexivity.
Defined.

(** ** The refresh token that is sent *)

Lemma before_bar_app token rest :
  includes_bar token = false -> before_bar (token ++ "|" ++ rest) = token.
Proof.
  induction token as [|c token IH]; simpl; [done|].
  destruct (Ascii.eqb c "|"); [done|]. intros H. by rewrite IH.
Qed.

Lemma includes_bar_app token rest : includes_bar (token ++ "|" ++ rest) = true.
Proof.
  induction token as [|c token IH]; simpl; [done|]. by destruct (Ascii.eqb c "|").
Qed.

Lemma includes_bar_before_bar s : includes_bar (before_bar s) = false.
Proof.
  induction s as [|c s IH]; simpl; [done|].
  destruct (Ascii.eqb c "|") eqn:E; [done|]. simpl. by rewrite E.
Qed.

(** X11 (the refresh token that is sent).  [callTokenEndpoint] sends
    one request, with the stored refresh token up to its first
    vertical bar: a stored token of the form [token|project], which is
    how the Antigravity sign-in stores the project beside the token,
    is sent as [token]; a stored token without a bar is sent as it
    is.  What is sent never contains a bar. *)
Theorem token_endpoint_gets_token_before_bar (refreshToken : string) (w : World) :
  tokenRequests (callTokenEndpoint refreshToken w).2 =
    (tokenRequests w ++ [actualRefreshToken refreshToken])%list /\
  includes_bar (actualRefreshToken refreshToken) = false /\
  (includes_bar refreshToken = false -> actualRefreshToken refreshToken = refreshToken) /\
  (forall token projectId,
     includes_bar token = false ->
     refreshToken = token ++ "|" ++ projectId ->
     actualRefreshToken refreshToken = token).
Proof.
  split; [|split; [|split]].
  - unfold callTokenEndpoint, bind, gets, modify. simpl.
    by destruct (tokenEndpoint w (length (tokenRequests w))).
  - unfold actualRefreshToken. destruct (includes_bar refreshToken) eqn:E; [|done].
    apply includes_bar_before_bar.
  - intros H. unfold actualRefreshToken. by rewrite H.
  - intros token projectId Hbar ->. unfold actualRefreshToken.
    rewrite includes_bar_app. by apply before_bar_app.
Qed.

Lemma token_endpoint_gets_token_before_bar_witness :
  actualRefreshToken "1//0gAbC|my-project" = "1//0gAbC".
Proof.
  destruct (token_endpoint_gets_token_before_bar "1//0gAbC|my-project" revoked_world)
    as (_ & _ & _ & H).
  apply (H "1//0gAbC" "my-project"); reflexivity.
Defined.

(** ** Marks of the rotator *)

Lemma filter_available_filter now l : forall limits,
  (filter_available now l limits).1 =
  filter (fun a => available_at now limits (Account.id a) = true) l.
Proof.
  induction l as [|b l IH]; intros limits; [done|].
  rewrite filter_available_cons.
  destruct (limits !! Account.id b) as [e|] eqn:Hb.
  - destruct (num_geb (Fin now) (availableAt e)) eqn:He.
    + rewrite filter_cons_True by (unfold available_at; by rewrite Hb).
      simpl. f_equal. rewrite IH.
      apply list_filter_iff. intros a.
      by rewrite (available_at_delete _ _ _ _ _ Hb He).
    + rewrite filter_cons_False by (unfold available_at; rewrite Hb, He; done).
      apply IH.
  - rewrite filter_cons_True by (unfold available_at; by rewrite Hb).
    simpl. f_equal. apply IH.
Qed.

(** X12 (the accounts that are available).  [getAvailableAccounts]
    never throws.  It reads the clock once and returns, in the order
    of the directory, the accounts that have no mark or whose mark
    has expired at this reading ([now >= availableAt]).  On its way
    it deletes the marks that have expired, but only those of
    accounts of the directory: a mark that has not expired, and any
    mark of an id that is not listed, stays.  The directory and the
    cursor are left alone. *)
Theorem getAvailableAccounts_filters_in_order (w : World) :
  exists w',
    getAvailableAccounts w =
      (Ok (filter (fun a => available_at (clock w (reads w)) (rateLimits w) (Account.id a)
                            = true)
             (accounts (managerData w))), w') /\
    (forall k,
       rateLimits w' !! k =
       match rateLimits w !! k with
       | Some e =>
           if num_geb (Fin (clock w (reads w))) (availableAt e)
              && bool_decide (k ∈ Account.id <$> accounts (managerData w))
           then None else Some e
       | None => None
       end) /\
    managerData w' = managerData w /\ currentIndex w' = currentIndex w /\
    reads w' = S (reads w).
Proof.
  exists (swept w). rewrite getAvailableAccounts_eq, filter_available_filter.
  split; [done|]. split; [|done].
  intros k. unfold swept. simpl. apply filter_available_snd.
Qed.

(** X13 (marking an account).  After [markRateLimited] of an id for
    [ms] milliseconds the rotator holds the mark
    [availableAt = now + ms], whether the directory lists the id or
    not.  From then on, as long as the mark is there,
    [isRateLimited] answers [true] at every clock reading before
    [now + ms], and at or after [now + ms] it answers [false] and
    deletes the mark; and [getAvailableAccounts] leaves out every
    account with this id while the clock is before [now + ms].  In the
    directory the first account with the id is flagged limited until
    60 seconds after the call, whatever [ms] is. *)
Theorem marked_account_is_limited_until (accountId : string) (ms : Z) (w w1 : World) :
  markRateLimited accountId (Fin ms) w = (Ok tt, w1) ->
  rateLimits w1 !! accountId =
    Some {| entry_accountId := accountId;
            availableAt := Fin (clock w (reads w) + ms) |} /\
  (forall w2,
     rateLimits w2 !! accountId = rateLimits w1 !! accountId ->
     isRateLimited accountId w2 =
       if clock w (reads w) + ms <=? clock w2 (reads w2)
       then (Ok false,
             set_rateLimits (delete accountId (rateLimits w2)) (set_reads (S (reads w2)) w2))
       else (Ok true, set_reads (S (reads w2)) w2)) /\
  (forall w2 a l w3,
     rateLimits w2 !! accountId = rateLimits w1 !! accountId ->
     Account.id a = accountId ->
     clock w2 (reads w2) < clock w (reads w) + ms ->
     getAvailableAccounts w2 = (Ok l, w3) ->
     a ∉ l) /\
  find_account accountId (accounts (managerData w1)) =
    (fun a =>
       with_rateLimit a
         {| isLimited := true;
            limitedUntil := Some (clock w (S (reads w)) + 60 * 1000);
            consecutiveHits := consecutiveHits (Account.rateLimit a) |})
    <$> find_account accountId (accounts (managerData w)).
Proof.
  intros Hmark.
  destruct (markRateLimited_spec accountId (Fin ms) w) as (w' & Heq & Hrl & _).
  rewrite Hmark in Heq.
  assert (w1 = w') as <- by (destruct (valid_time _); congruence).
  assert (Hentry : rateLimits w1 !! accountId =
            Some {| entry_accountId := accountId;
                    availableAt := Fin (clock w (reads w) + ms) |}).
  { rewrite Hrl. by rewrite lookup_insert_eq. }
  split; [done|]. split; [|split].
  - intros w2 H2. rewrite isRateLimited_eq, H2, Hentry. reflexivity.
  - intros w2 a l w3 H2 Hid Hbefore Hav.
    rewrite getAvailableAccounts_eq, filter_available_filter in Hav.
    injection Hav as <- _.
    rewrite list_elem_of_filter. intros [Hpass _].
    unfold available_at in Hpass. rewrite Hid, H2, Hentry in Hpass.
    unfold num_geb in Hpass. simpl in Hpass. apply Z.leb_le in Hpass. lia.
  - rewrite <- (markRateLimited_directory accountId (Fin ms) w). by rewrite Hmark.
Qed.

Lemma marked_account_is_limited_until_witness :
  isRateLimited "account-2" (markRateLimited "account-2" (Fin 30000) partial_429_world).2 =
  (Ok true,
   set_reads (S (reads (markRateLimited "account-2" (Fin 30000) partial_429_world).2))
     (markRateLimited "account-2" (Fin 30000) partial_429_world).2).
Proof.
  destruct (marked_account_is_limited_until "account-2" 30000 partial_429_world
              (markRateLimited "account-2" (Fin 30000) partial_429_world).2)
    as (_ & Hlimited & _).
  - vm_compute. reflexivity.
  - rewrite Hlimited by reflexivity. reflexivity.
Defined.

Lemma clearRateLimit_directory accountId w :
  find_account accountId
    (accounts (managerData (updateAccountStatus accountId StatusReady w).2)) =
  (fun a =>
     with_rateLimit a
       {| isLimited := false; limitedUntil := None;
          consecutiveHits := consecutiveHits (Account.rateLimit a) |})
  <$> find_account accountId (accounts (managerData w)).
Proof.
  unfold updateAccountStatus, bind, gets. simpl.
  rewrite (find_account_lookup accountId (accounts (managerData w))).
  destruct (findIndex_account accountId (accounts (managerData w))) as [i|] eqn:Hi;
    simpl; [|by rewrite find_account_lookup, Hi].
  destruct (findIndex_account_lookup _ _ _ Hi) as (a & Ha & Hid). rewrite Ha. simpl.
  rewrite (find_account_insert accountId) by done. by rewrite String.eqb_refl.
Qed.

(** X14 (clearing a mark).  [clearRateLimit] never throws, also for an
    id the directory does not list.  It deletes the mark of the id,
    so that [isRateLimited] answers [false] right after it.  When
    there was a mark, the flag of the first account with the id is
    reset in the directory (not limited, no [limitedUntil]); when
    there was none, the directory is not touched and the clock is not
    read. *)
Theorem clearRateLimit_clears (accountId : string) (w : World) :
  exists w',
    clearRateLimit accountId w = (Ok tt, w') /\
    rateLimits w' = delete accountId (rateLimits w) /\
    isRateLimited accountId w' = (Ok false, w') /\
    (is_Some (rateLimits w !! accountId) ->
     find_account accountId (accounts (managerData w')) =
       (fun a =>
          with_rateLimit a
            {| isLimited := false; limitedUntil := None;
               consecutiveHits := consecutiveHits (Account.rateLimit a) |})
       <$> find_account accountId (accounts (managerData w))) /\
    (rateLimits w !! accountId = None ->
     managerData w' = managerData w /\ reads w' = reads w).
Proof.
  unfold clearRateLimit, bind, gets, modify. simpl.
  set (w0 := set_rateLimits (delete accountId (rateLimits w)) w).
  destruct (bool_decide (is_Some (rateLimits w !! accountId))) eqn:Hwas.
  - pose proof (updateAccountStatus_frame accountId StatusReady w0) as Hf.
    pose proof (clearRateLimit_directory accountId w0) as Hd.
    unfold try_catch.
    destruct (updateAccountStatus accountId StatusReady w0) as [[[]|e] w1];
      simpl in Hf, Hd; destruct Hf as (Hrl & _); exists w1;
      (split; [reflexivity|]); (split; [by rewrite Hrl|]);
      (split; [rewrite isRateLimited_eq, Hrl; simpl; by rewrite lookup_delete_eq|]);
      (split; [by intros _|]);
      intros Hnone; apply bool_decide_eq_true in Hwas; rewrite Hnone in Hwas;
      by destruct Hwas.
  - exists w0. split; [reflexivity|]. split; [reflexivity|].
    split; [rewrite isRateLimited_eq; simpl; by rewrite lookup_delete_eq|].
    split; [|done]. intros Hsome. apply bool_decide_eq_false in Hwas. done.
Qed.

(** ** A [Retry-After] header that is not a number *)

Lemma nan_mark_stays accountId w :
  (exists e, rateLimits w !! accountId = Some e /\ availableAt e = NaN) ->
  isRateLimited accountId w = (Ok true, set_reads (S (reads w)) w) /\
  forall a l w', Account.id a = accountId -> getAvailableAccounts w = (Ok l, w') ->
    (a ∉ l) /\ rateLimits w' !! accountId = rateLimits w !! accountId.
Proof.
  intros (e & He & Hnan). split.
  - rewrite isRateLimited_eq, He, Hnan. reflexivity.
  - intros a l w' Hid Hav.
    rewrite getAvailableAccounts_eq, filter_available_filter in Hav.
    injection Hav as <- <-. split.
    + rewrite list_elem_of_filter. intros [Hpass _].
      unfold available_at in Hpass. by rewrite Hid, He, Hnan in Hpass.
    + unfold swept. simpl. rewrite filter_available_snd, He, Hnan. reflexivity.
Qed.

(** X15 (a [Retry-After] header that is not a number).  In the
    standard family, when a 429 response carries a [Retry-After]
    header that [parseInt] cannot read (an HTTP date, for instance),
    the retry time is [NaN]: the rotator stores a mark whose time is
    [NaN] and then throws (the time cannot be formatted for the
    log), and the attempt is counted as a failed one, with the
    backoff delay.  Such a mark never expires: while it is there,
    [isRateLimited] answers [true] at every clock value and
    [getAvailableAccounts] leaves the account out, and neither of them
    deletes it. *)
Theorem unreadable_retry_after_never_expires
    (contents : list (string * list string)) (model : string) (st : LoopState)
    (w : World) (account : Account.t) (w1 : World) (accessToken : string) (w2 : World)
    (r : Response) (h : string) :
  getNextAccount w = (Ok account, w1) ->
  getAccessToken (Account.id account) w1 = (Ok accessToken, w2) ->
  next_reply w2 0 = FetchResolves r ->
  status r = 429 ->
  retryAfterHeader r = Some h ->
  truthy_string h = true ->
  parseInt10 h = NaN ->
  exists w',
    callStandardApi_body contents model st w =
      (Ok (Continue {| lastError := Some (PlainError "Invalid time value");
                       networkRetryCount := networkRetryCount st + 1 |}), w') /\
    rateLimits w' !! Account.id account =
      Some {| entry_accountId := Account.id account; availableAt := NaN |} /\
    delays w' =
      (if networkRetryCount st + 1 <=? MAX_RETRIES
       then (delays w ++ [getBackoffDelay (networkRetryCount st + 1)])%list
       else delays w) /\
    forall w2,
      rateLimits w2 !! Account.id account = rateLimits w' !! Account.id account ->
      isRateLimited (Account.id account) w2 = (Ok true, set_reads (S (reads w2)) w2) /\
      forall a l w3,
        Account.id a = Account.id account ->
        getAvailableAccounts w2 = (Ok l, w3) ->
        (a ∉ l) /\
        rateLimits w3 !! Account.id account = rateLimits w2 !! Account.id account.
Proof.
  intros Hsel Htok Hreply Hstatus Hheader Htruthy Hnan.
  rewrite (callStandardApi_body_eq _ _ _ _ _ _ _ _ Hsel Htok). cbv zeta.
  rewrite Hreply, Hstatus. simpl.
  assert (Hms : retryAfterMs_of r = NaN).
  { unfold retryAfterMs_of. by rewrite Hheader, Htruthy, Hnan. }
  rewrite Hms.
  set (w3 := sent _ w2).
  destruct (markRateLimited_spec (Account.id account) NaN w3)
    as (w4 & Hmark & Hrl & Hd & _).
  rewrite Hmark. simpl. rewrite on_error_eq. simpl. rewrite count_failure_eq.
  eexists. split; [reflexivity|].
  assert (Hdelays : delays w3 = delays w).
  { pose proof (getNextAccount_ok _ _ _ Hsel) as (_ & _ & _ & _ & c & ->).
    pose proof (getAccessToken_token_frame _ _ _ _ Htok) as Hf.
    unfold token_frame in Hf. destruct Hf as (_ & _ & _ & _ & _ & _ & _ & Hd2 & _).
    unfold w3. simpl. by rewrite Hd2. }
  assert (Hentry : rateLimits w4 !! Account.id account =
            Some {| entry_accountId := Account.id account; availableAt := NaN |}).
  { rewrite Hrl. by rewrite lookup_insert_eq. }
  assert (Hw' : rateLimits
                  (if networkRetryCount st + 1 <=? MAX_RETRIES
                   then waited (getBackoffDelay (networkRetryCount st + 1)) w4
                   else w4) = rateLimits w4) by (by destruct (_ <=? _)).
  split; [by rewrite Hw'|]. split.
  - destruct (_ <=? _); simpl; by rewrite Hd, Hdelays.
  - intros w5 H5. apply nan_mark_stays. eexists.
    split; [by rewrite H5, Hw', Hentry|reflexivity].
Qed.

Lemma unreadable_retry_after_never_expires_witness :
  rateLimits (callStandardApi_body [] "gemini-2.5-flash" initial http_date_429_world).2
    !! "account-1" =
  Some {| entry_accountId := "account-1"; availableAt := NaN |}.
Proof.
  destruct (unreadable_retry_after_never_expires [] "gemini-2.5-flash" initial
              http_date_429_world
              (account_of "account-1" "user1@example.com" (Some "token-1") (Some 3600000)
                 (Some "project-1"))
              (getNextAccount http_date_429_world).2 "token-1"
              (getAccessToken "account-1" (getNextAccount http_date_429_world).2).2
              (status_response 429 (Some "Wed, 21 Oct 2015 07:28:00 GMT") "slow down")
              "Wed, 21 Oct 2015 07:28:00 GMT")
    as (w' & Hbody & Hentry & _); [vm_compute; reflexivity..|].
  rewrite Hbody. exact Hentry.
Defined.

(** ** What every attempt of the dispatcher does *)

Lemma getNextAccount_quiet w r w' :
  getNextAccount w = (r, w') ->
  delays w' = delays w /\ quotas w' = quotas w /\
  match r with
  | Throw e => instanceof_RateLimitError e = true
  | Ok _ => True
  end.
Proof.
  rewrite getNextAccount_eq.
  destruct (filter_available _ _ _).1 as [|first rest]; cbv zeta; by intros [= <- <-].
Qed.

Lemma getAccessToken_quiet accountId w r w' :
  getAccessToken accountId w = (r, w') ->
  delays w' = delays w /\ quotas w' = quotas w.
Proof.
  intros H. apply getAccessToken_token_frame in H. unfold token_frame in H.
  by destruct H as (_ & _ & _ & _ & Hq & _ & _ & Hd & _).
Qed.

Lemma extractStandardResponseText_truthy data w text w' :
  extractStandardResponseText data w = (Ok text, w') -> truthy_string text = true.
Proof.
  unfold extractStandardResponseText.
  destruct (candidates data) as [[|first rest]|]; try done.
  destruct (content first) as [[[[|p ps]|]]|]; try done.
  destruct (part_text p) as [t|]; [|done].
  destruct (truthy_string t) eqn:Ht; [|done]. by intros [= <- _].
Qed.

Lemma extractStandardResponseText_throws data w e w' :
  extractStandardResponseText data w = (Throw e, w') -> instanceof_ApiError e = true.
Proof.
  unfold extractStandardResponseText.
  destruct (candidates data) as [[|first rest]|]; try by intros [= <- _].
  destruct (content first) as [[[[|p ps]|]]|]; try by intros [= <- _].
  destruct (part_text p) as [t|]; [|by intros [= <- _]].
  destruct (truthy_string t); [done|by intros [= <- _]].
Qed.

(** What the [for] over the candidate URLs can end with. *)
Lemma try_endpoints_outcome baseUrls account accessToken projectId contents :
  forall c l w r w',
  try_endpoints baseUrls account accessToken projectId contents c l w = (r, w') ->
  delays w' = delays w /\
  match r with
  | Ok (EndpointReturned text) =>
      truthy_string text = true /\
      quotas w' = QuotaTracker.incrementUsage (Account.id account) (quotas w)
  | Ok (EndpointsTried _ _) => quotas w' = quotas w
  | Throw e => instanceof_ApiError e = true /\ quotas w' = quotas w
  end.
Proof.
  induction baseUrls as [|baseUrl rest IH]; intros c l w r w'.
  - by intros [= <- <-].
  - rewrite try_endpoints_cons. cbv zeta. set (w1 := sent _ w).
    assert (Hrest : forall c0 l0,
              try_endpoints rest account accessToken projectId contents c0 l0 w1 = (r, w') ->
              delays w' = delays w /\
              match r with
              | Ok (EndpointReturned text) =>
                  truthy_string text = true /\
                  quotas w' = QuotaTracker.incrementUsage (Account.id account) (quotas w)
              | Ok (EndpointsTried _ _) => quotas w' = quotas w
              | Throw e => instanceof_ApiError e = true /\ quotas w' = quotas w
              end) by (intros c0 l0 H; by apply IH in H).
    destruct (next_reply w 0) as [m|resp]; [apply Hrest|].
    destruct (status resp =? 429); [apply Hrest|].
    destruct ((status resp =? 404) || (status resp >=? 500)); [apply Hrest|].
    destruct (negb (ok resp)); [by intros [= <- <-]|].
    destruct (truthy_string (parseAntigravitySSEResponse resp)) eqn:Htext;
      by intros [= <- <-].
Qed.

(** The outcome of the handler of both loops. *)
Lemma on_error_outcome st e w :
  match on_error st e w with
  | (Throw e', w') =>
      (instanceof_RateLimitError e' || instanceof_ApiError e' = true) /\ w' = w
  | (Ok (Continue st'), w') =>
      networkRetryCount st' = networkRetryCount st + 1 /\
      quotas w' = quotas w /\
      delays w' =
        if networkRetryCount st + 1 <=? MAX_RETRIES
        then (delays w ++ [getBackoffDelay (networkRetryCount st + 1)])%list
        else delays w
  | (Ok (Return _), _) => False
  end.
Proof.
  rewrite on_error_eq. destruct (_ || _) eqn:E; [done|].
  rewrite count_failure_eq. simpl. by destruct (_ <=? _).
Qed.

Lemma count_failure_outcome st e w :
  match count_failure st e w with
  | (Ok (Continue st'), w') =>
      networkRetryCount st' = networkRetryCount st + 1 /\
      quotas w' = quotas w /\
      delays w' =
        if networkRetryCount st + 1 <=? MAX_RETRIES
        then (delays w ++ [getBackoffDelay (networkRetryCount st + 1)])%list
        else delays w
  | _ => False
  end.
Proof. rewrite count_failure_eq. simpl. by destruct (_ <=? _). Qed.

Lemma attempt_summary_quiet st w w0 r w' :
  delays w0 = delays w -> quotas w0 = quotas w ->
  attempt_summary st w0 r w' -> attempt_summary st w r w'.
Proof.
  intros Hd Hq. unfold attempt_summary. rewrite Hd, Hq. done.
Qed.

Lemma on_error_summary st e w :
  attempt_summary st w (on_error st e w).1 (on_error st e w).2.
Proof.
  pose proof (on_error_outcome st e w) as H.
  destruct (on_error st e w) as [[[st'|text]|e'] w']; simpl.
  - destruct H as (Hn & Hq & Hd). split; [done|]. by right.
  - done.
  - destruct H as [He ->]. by repeat split.
Qed.

Lemma count_failure_summary st e w :
  attempt_summary st w (count_failure st e w).1 (count_failure st e w).2.
Proof.
  pose proof (count_failure_outcome st e w) as H.
  destruct (count_failure st e w) as [[[st'|text]|e'] w']; simpl; try done.
  destruct H as (Hn & Hq & Hd). split; [done|]. by right.
Qed.

Lemma markRateLimited_quiet accountId ms w r w' :
  markRateLimited accountId ms w = (r, w') ->
  delays w' = delays w /\ quotas w' = quotas w.
Proof.
  intros H. destruct (markRateLimited_spec accountId ms w) as (w0 & Heq & _ & Hd & _ & _ & _ & Hq & _).
  rewrite H in Heq. by injection Heq as _ ->.
Qed.

Lemma callStandardApi_body_summary contents model st w :
  attempt_summary st w (callStandardApi_body contents model st w).1
    (callStandardApi_body contents model st w).2.
Proof.
  destruct (getNextAccount w) as [[account|e] w1] eqn:Hsel.
  2:{ assert (Heq : callStandardApi_body contents model st w = (Throw e, w1))
        by (unfold callStandardApi_body, bind; by rewrite Hsel).
      rewrite Heq. simpl.
      apply getNextAccount_quiet in Hsel as (Hd & Hq & He). rewrite He. by repeat split. }
  pose proof (getNextAccount_quiet _ _ _ Hsel) as (Hd1 & Hq1 & _).
  destruct (getAccessToken (Account.id account) w1) as [[accessToken|e] w2] eqn:Htok.
  2:{ pose proof (attempt_body_token_error contents "" st w account w1 e w2 Hsel) as Hbody.
      unfold attempt_body in Hbody. simpl in Hbody.
      assert (Heq : callStandardApi_body contents model st w = on_error st e w2).
      { unfold callStandardApi_body, bind at 1. rewrite Hsel.
        unfold try_catch, bind at 1. by rewrite Htok. }
      rewrite Heq. apply getAccessToken_quiet in Htok as (Hd2 & Hq2).
      apply (attempt_summary_quiet st w w2); [congruence|congruence|].
      apply on_error_summary. }
  pose proof (getAccessToken_quiet _ _ _ _ Htok) as (Hd2 & Hq2).
  rewrite (callStandardApi_body_eq _ _ _ _ _ _ _ _ Hsel Htok). cbv zeta.
  set (w3 := sent _ w2).
  assert (Hd3 : delays w3 = delays w) by (unfold w3; simpl; congruence).
  assert (Hq3 : quotas w3 = quotas w) by (unfold w3; simpl; congruence).
  destruct (next_reply w2 0) as [m|r].
  { apply (attempt_summary_quiet st w w3); [done|done|apply count_failure_summary]. }
  destruct (status r =? 429).
  { destruct (markRateLimited (Account.id account) (retryAfterMs_of r) w3)
      as [[[]|e] w4] eqn:Hmark;
      apply markRateLimited_quiet in Hmark as (Hd4 & Hq4).
    - simpl. split; [congruence|]. left. split; [done|congruence].
    - apply (attempt_summary_quiet st w w4); [congruence|congruence|].
      apply on_error_summary. }
  destruct (json r) as [m|data].
  { apply (attempt_summary_quiet st w w3); [done|done|apply count_failure_summary]. }
  destruct (negb (ok r)).
  - destruct ((status r >=? 500) && (networkRetryCount st + 1 <=? MAX_RETRIES)).
    + apply (attempt_summary_quiet st w w3); [done|done|apply count_failure_summary].
    + simpl. by repeat split.
  - destruct (extractStandardResponseText data w3) as [[text|e] w4] eqn:Htext; simpl.
    + apply extractStandardResponseText_truthy in Htext.
      split; [done|]. split; [done|]. exists (Account.id account).
      subst w3. simpl in *. congruence.
    + apply extractStandardResponseText_throws in Htext. rewrite Htext, orb_true_r.
      by repeat split.
Qed.

Lemma callAntigravityApi_body_summary contents model st w :
  attempt_summary st w (callAntigravityApi_body contents model st w).1
    (callAntigravityApi_body contents model st w).2.
Proof.
  destruct (getNextAccount w) as [[account|e] w1] eqn:Hsel.
  2:{ assert (Heq : callAntigravityApi_body contents model st w = (Throw e, w1))
        by (unfold callAntigravityApi_body, bind; by rewrite Hsel).
      rewrite Heq. simpl.
      apply getNextAccount_quiet in Hsel as (Hd & Hq & He). rewrite He. by repeat split. }
  pose proof (getNextAccount_quiet _ _ _ Hsel) as (Hd1 & Hq1 & _).
  assert (Hskip : truthy_ostring (Account.projectId account) = false ->
            attempt_summary st w (callAntigravityApi_body contents model st w).1
              (callAntigravityApi_body contents model st w).2).
  { intros Hno. rewrite (callAntigravityApi_body_skip _ _ _ _ _ _ Hsel Hno). simpl.
    split; [exact Hq1|left; by split]. }
  destruct (Account.projectId account) as [projectId|] eqn:Hproj; [|by apply Hskip].
  destruct (truthy_string projectId) eqn:Htruthy; [|by apply Hskip]. clear Hskip.
  destruct (getAccessToken (Account.id account) w1) as [[accessToken|e] w2] eqn:Htok.
  2:{ assert (Heq : callAntigravityApi_body contents model st w = on_error st e w2).
      { unfold callAntigravityApi_body, bind at 1. rewrite Hsel, Hproj, Htruthy.
        unfold try_catch, bind at 1. by rewrite Htok. }
      rewrite Heq. apply getAccessToken_quiet in Htok as (Hd2 & Hq2).
      apply (attempt_summary_quiet st w w2); [congruence|congruence|].
      apply on_error_summary. }
  pose proof (getAccessToken_quiet _ _ _ _ Htok) as (Hd2 & Hq2).
  rewrite (callAntigravityApi_body_eq _ _ _ _ _ _ _ _ _ Hsel Hproj Htruthy Htok).
  destruct (try_endpoints _ _ _ _ _ _ _ _) as [[[text|c l]|e] w4] eqn:Htry;
    apply try_endpoints_outcome in Htry as (Hd4 & Hout); simpl in Hd4.
  - destruct Hout as (Htext & Hq4). simpl. split; [done|]. split; [congruence|].
    exists (Account.id account). simpl in Hq4. congruence.
  - simpl in Hout. destruct (c =? 3).
    + destruct (markRateLimited (Account.id account) l w4) as [[[]|e] w5] eqn:Hmark;
        apply markRateLimited_quiet in Hmark as (Hd5 & Hq5).
      * apply (attempt_summary_quiet st w w5); [congruence|congruence|].
        apply count_failure_summary.
      * apply (attempt_summary_quiet st w w5); [congruence|congruence|].
        apply on_error_summary.
    + apply (attempt_summary_quiet st w w4); [congruence|congruence|].
      apply count_failure_summary.
  - destruct Hout as (He & Hq4). simpl in Hq4.
    apply (attempt_summary_quiet st w w4); [congruence|congruence|].
    apply on_error_summary.
Qed.

Lemma attempt_body_summary contents model st w :
  attempt_summary st w (attempt_body contents model st w).1
    (attempt_body contents model st w).2.
Proof.
  unfold attempt_body. destruct (isAntigravityModel model).
  - apply callAntigravityApi_body_summary.
  - apply callStandardApi_body_summary.
Qed.

(** ** What every generate call does *)

Lemma backoff_take n :
  0 <= n <= 3 ->
  (take (Z.to_nat (Z.min n 3)) BACKOFF_DELAYS ++
     (if n + 1 <=? MAX_RETRIES then [getBackoffDelay (n + 1)] else []))%list =
  take (Z.to_nat (Z.min (n + 1) 3)) BACKOFF_DELAYS.
Proof.
  intros Hn. assert (n = 0 \/ n = 1 \/ n = 2 \/ n = 3) as [->|[->|[->| ->]]] by lia;
    reflexivity.
Qed.

(** The loops keep: the counter between 0 and 4, the delays taken so
    far the first ones of 1 s, 2 s, 4 s, as many as the counter says,
    and the quota counters as they were at the start. *)
Lemma retry_loop_summary body prefix w0 :
  (forall st w, attempt_summary st w (body st w).1 (body st w).2) ->
  forall fuel st w,
    0 <= networkRetryCount st <= 4 ->
    delays w = (delays w0 ++ take (Z.to_nat (Z.min (networkRetryCount st) 3)) BACKOFF_DELAYS)%list ->
    quotas w = quotas w0 ->
    exists k,
      (k <= 3)%nat /\
      delays (retry_loop body prefix fuel st w).2 = (delays w0 ++ take k BACKOFF_DELAYS)%list /\
      match (retry_loop body prefix fuel st w).1 with
      | Returned text =>
          truthy_string text = true /\
          exists accountId,
            quotas (retry_loop body prefix fuel st w).2 =
              QuotaTracker.incrementUsage accountId (quotas w0)
      | Raised e =>
          instanceof_RateLimitError e || instanceof_ApiError e = true /\
          quotas (retry_loop body prefix fuel st w).2 = quotas w0
      | Running _ => quotas (retry_loop body prefix fuel st w).2 = quotas w0
      end.
Proof.
  intros Hbody. induction fuel as [|fuel IH]; intros st w Hn Hd Hq.
  - simpl. destruct (_ <=? _); simpl; (eexists; split; [|split; [exact Hd|done]]; lia).
  - destruct (Z.leb_spec (networkRetryCount st) MAX_RETRIES) as [Hle|Hgt].
    2:{ rewrite retry_loop_exhausted by done. simpl.
        eexists; split; [|split; [exact Hd|done]]; lia. }
    rewrite retry_loop_step by done. pose proof (Hbody st w) as Hstep.
    destruct (body st w) as [[[st'|text]|e] w']; simpl in Hstep.
    + destruct Hstep as (Hq' & [[Hsame Hd']|[Hinc Hd']]).
      * apply IH; [lia|rewrite Hsame; congruence|congruence].
      * apply IH; [unfold MAX_RETRIES in *; lia| |congruence].
        rewrite Hd', Hinc, Hd. rewrite <- (backoff_take (networkRetryCount st))
          by (unfold MAX_RETRIES in *; lia).
        destruct (_ <=? _); [by rewrite app_assoc|by rewrite app_nil_r].
    + destruct Hstep as (Htext & Hd' & accountId & Hq'). simpl.
      eexists; split; [|split; [rewrite Hd'; exact Hd|]]; [lia|].
      split; [done|]. exists accountId. by rewrite Hq', Hq.
    + destruct Hstep as (He & Hd' & Hq'). simpl.
      eexists; split; [|split; [rewrite Hd'; exact Hd|]]; [lia|].
      split; [done|congruence].
Qed.

Lemma callApi_summary fuel contents model w :
  exists k,
    (k <= 3)%nat /\
    delays (callApi fuel contents model w).2 = (delays w ++ take k BACKOFF_DELAYS)%list /\
    match (callApi fuel contents model w).1 with
    | Returned text =>
        truthy_string text = true /\
        exists accountId,
          quotas (callApi fuel contents model w).2 =
            QuotaTracker.incrementUsage accountId (quotas w)
    | Raised e =>
        instanceof_RateLimitError e || instanceof_ApiError e = true /\
        quotas (callApi fuel contents model w).2 = quotas w
    | Running _ => quotas (callApi fuel contents model w).2 = quotas w
    end.
Proof.
  unfold callApi, callAntigravityApi, callStandardApi.
  destruct (isAntigravityModel model).
  - apply retry_loop_summary; [apply callAntigravityApi_body_summary|done| |done].
    simpl. by rewrite app_nil_r.
  - apply retry_loop_summary; [apply callStandardApi_body_summary|done| |done].
    simpl. by rewrite app_nil_r.
Qed.

(** X16 (the errors of a generate call).  Whatever the upstream
    servers, the token endpoint and the clock do, an error that
    [generateContent] or [chat] throws is a [RateLimitError] (the
    [AllAccountsRateLimitedError] of the rotator) or an [ApiError]:
    never an [AuthenticationError], and never the raw error of a
    failed [fetch] or of a body that cannot be read. *)
Theorem generate_call_throws_rate_limit_or_api_errors (fuel : nat)
    (contents : list (string * list string)) (model : string) (w : World)
    (e : Error) (w' : World) :
  callApi fuel contents model w = (Raised e, w') ->
  instanceof_RateLimitError e = true \/ instanceof_ApiError e = true.
Proof.
  intros H. destruct (callApi_summary fuel contents model w) as (k & _ & _ & Hout).
  rewrite H in Hout. simpl in Hout. destruct Hout as [He _].
  by apply orb_prop in He.
Qed.

Lemma generate_call_throws_rate_limit_or_api_errors_witness :
  instanceof_RateLimitError
    (ApiError "Request failed after 3 retries: Token refresh failed: invalid_grant") = true \/
  instanceof_ApiError
    (ApiError "Request failed after 3 retries: Token refresh failed: invalid_grant") = true.
Proof.
  apply (generate_call_throws_rate_limit_or_api_errors 8 [("user", ["Hi"])]
           "gemini-2.5-flash" revoked_world _
           (callApi 8 [("user", ["Hi"])] "gemini-2.5-flash" revoked_world).2).
  vm_compute. reflexivity.
Defined.

(** X17 (no empty answer).  A text that [generateContent] or [chat]
    returns is never the empty string, in either family: a response
    without a text is an [ApiError]. *)
Theorem generate_call_returns_a_text (fuel : nat)
    (contents : list (string * list string)) (model : string) (w : World)
    (text : string) (w' : World) :
  callApi fuel contents model w = (Returned text, w') ->
  text <> "".
Proof.
  intros H. destruct (callApi_summary fuel contents model w) as (k & _ & _ & Hout).
  rewrite H in Hout. simpl in Hout. destruct Hout as [Htext _].
  intros ->. discriminate.
Qed.

Lemma generate_call_returns_a_text_witness : "Hello, " <> "".
Proof.
  apply (generate_call_returns_a_text 1 [("user", ["Hi"])] "gemini-2.5-flash"
           two_parts_world "Hello, "
           (callApi 1 [("user", ["Hi"])] "gemini-2.5-flash" two_parts_world).2).
  vm_compute. reflexivity.
Defined.

(** X18 (usage is counted for answers only).  A generate call changes
    the quota counters in one case only: when it returns a text,
    [incrementUsage] has been called, once, for one account id.  A call that throws, whatever it tried before,
    and a call that is still running have counted nothing. *)
Theorem usage_is_counted_for_answers_only (fuel : nat)
    (contents : list (string * list string)) (model : string) (w : World) :
  match (callApi fuel contents model w).1 with
  | Returned _ =>
      exists accountId,
        quotas (callApi fuel contents model w).2 =
          QuotaTracker.incrementUsage accountId (quotas w)
  | Raised _ | Running _ => quotas (callApi fuel contents model w).2 = quotas w
  end.
Proof.
  destruct (callApi_summary fuel contents model w) as (k & _ & _ & Hout).
  destruct (callApi fuel contents model w).1; simpl in *; [|by destruct Hout|done].
  by destruct Hout.
Qed.

(** X19 (the time a call can wait).  Whatever happens, the delays a
    generate call takes are the first [k] of 1000, 2000 and 4000 ms,
    in this order, for some [k <= 3]: a call never waits longer than
    7 seconds in all. *)
Theorem backoff_delays_are_bounded (fuel : nat)
    (contents : list (string * list string)) (model : string) (w : World) :
  exists k,
    (k <= 3)%nat /\
    delays (callApi fuel contents model w).2 = (delays w ++ take k [1000; 2000; 4000])%list.
Proof.
  destruct (callApi_summary fuel contents model w) as (k & Hk & Hd & _).
  by exists k.
Qed.

(** ** Responses that end a call at once *)

(** X20 (client errors of the standard family).  In the standard
    family a response that is neither successful nor a 429 nor a 5xx
    (a 400, 401, 403 or 404, for instance) ends the call at once, when
    its body is JSON: the attempt throws the [ApiError]
    "API error: <message>", where the message is the [error.message]
    of the body if it has a non-empty one and "HTTP <status>"
    otherwise; one request was sent, and the account is not marked,
    the counter not incremented, no delay taken.  When the body is
    not JSON, the attempt is counted as a network failure instead,
    and retried. *)
Theorem standard_client_error_ends_the_call
    (contents : list (string * list string)) (model : string) (st : LoopState)
    (w : World) (account : Account.t) (w1 : World) (accessToken : string) (w2 : World)
    (r : Response) :
  getNextAccount w = (Ok account, w1) ->
  getAccessToken (Account.id account) w1 = (Ok accessToken, w2) ->
  next_reply w2 0 = FetchResolves r ->
  ok r = false ->
  status r <> 429 ->
  status r < 500 ->
  match json r with
  | inr data =>
      callStandardApi_body contents model st w =
        (Throw (ApiError ("API error: " ++ errorMessage_of data r)),
         sent (standard_request model accessToken contents) w2)
  | inl m =>
      callStandardApi_body contents model st w =
        count_failure st (PlainError m)
          (sent (standard_request model accessToken contents) w2)
  end.
Proof.
  intros Hsel Htok Hreply Hok H429 H500.
  rewrite (callStandardApi_body_eq _ _ _ _ _ _ _ _ Hsel Htok). cbv zeta.
  rewrite Hreply. apply Z.eqb_neq in H429. rewrite H429.
  destruct (json r) as [m|data]; [done|]. rewrite Hok. simpl.
  destruct (status r >=? 500) eqn:E; [|done]. apply Z.geb_le in E. lia.
Qed.

Lemma standard_client_error_ends_the_call_witness :
  callStandardApi_body [] "gemini-2.5-flash" initial
    (fresh_world 0 three_accounts never_granted
       (fun _ => FetchResolves (status_response 403 None "Permission denied"))) =
  (Throw (ApiError "API error: Permission denied"),
   sent (standard_request "gemini-2.5-flash" "token-1" [])
     (getAccessToken "account-1"
        (getNextAccount
           (fresh_world 0 three_accounts never_granted
              (fun _ => FetchResolves (status_response 403 None "Permission denied")))).2).2).
Proof.
  apply (standard_client_error_ends_the_call [] "gemini-2.5-flash" initial
           (fresh_world 0 three_accounts never_granted
              (fun _ => FetchResolves (status_response 403 None "Permission denied")))
           (account_of "account-1" "user1@example.com" (Some "token-1") (Some 3600000)
              (Some "project-1"))
           (getNextAccount
              (fresh_world 0 three_accounts never_granted
                 (fun _ => FetchResolves (status_response 403 None "Permission denied")))).2
           "token-1" _ (status_response 403 None "Permission denied"));
    (reflexivity || lia || discriminate).
Defined.

(** A cut at [n] code units keeps at most [n] of them, and a string
    that has no more is kept whole. *)
Lemma slice_0_length : forall (s : string) (n : nat),
  (utf16_length (slice_0 n s) <= n)%nat.
Proof.
  induction s as [|c s IH]; intros n; simpl; [lia|].
  destruct (is_continuation_byte c) eqn:Hc; simpl.
  - rewrite Hc. apply IH.
  - destruct n as [|n]; simpl; [lia|].
    destruct (is_four_byte_lead c) eqn:H4.
    + destruct n as [|n]; [vm_compute; lia|]. simpl. rewrite Hc, H4.
      specialize (IH n). lia.
    + simpl. rewrite Hc, H4. specialize (IH n). lia.
Qed.

Lemma slice_0_whole : forall (s : string) (n : nat),
  (utf16_length s <= n)%nat -> slice_0 n s = s.
Proof.
  induction s as [|c s IH]; intros n; simpl; [done|].
  destruct (is_continuation_byte c) eqn:Hc.
  - intros Hn. f_equal. apply IH. lia.
  - destruct (is_four_byte_lead c) eqn:H4; intros Hn.
    + destruct n as [|[|n]]; [lia|lia|]. f_equal. apply IH. lia.
    + destruct n as [|n]; [lia|]. f_equal. apply IH. lia.
Qed.

(** The first reply that is none of 429, 404, 5xx or a network failure
    decides; when it is not successful, or successful without a text,
    an [ApiError] is thrown, after one request per candidate URL up to
    that one. *)
Lemma try_endpoints_first_error baseUrls account accessToken projectId contents :
  forall j r c l w,
  (j < length baseUrls)%nat ->
  (forall i, (i < j)%nat -> moves_on (next_reply w i) = true) ->
  next_reply w j = FetchResolves r ->
  moves_on (FetchResolves r) = false ->
  (ok r = false \/ parseAntigravitySSEResponse r = "") ->
  exists w',
    try_endpoints baseUrls account accessToken projectId contents c l w =
      (Throw (ApiError (if ok r then "Empty response from Antigravity API"
                        else "Antigravity API error: " ++ slice_0 500 (text r))), w') /\
    requests w' =
      (requests w ++
       ((fun u => antigravity_request u accessToken projectId contents)
          <$> take (S j) baseUrls))%list /\
    net_frame w w' /\ quotas w' = quotas w.
Proof.
  induction baseUrls as [|baseUrl rest IH]; intros j r c l w Hj Hbefore Hr Hstay Hcase;
    [simpl in Hj; lia|].
  rewrite try_endpoints_cons. cbv zeta. set (w1 := sent _ w).
  destruct j as [|j].
  - rewrite Hr. simpl in Hstay.
    apply orb_false_elim in Hstay as [[H429 H404]%orb_false_elim H500].
    rewrite H429, H404, H500. simpl.
    destruct (ok r) eqn:Hok; simpl.
    + destruct Hcase as [|Hempty]; [done|]. rewrite Hempty. simpl.
      eexists. split; [reflexivity|]. split; [done|]. split; [apply sent_net_frame|done].
    + eexists. split; [reflexivity|]. split; [done|]. split; [apply sent_net_frame|done].
  - assert (Hrest : forall c0 l0, exists w',
      try_endpoints rest account accessToken projectId contents c0 l0 w1 =
        (Throw (ApiError (if ok r then "Empty response from Antigravity API"
                          else "Antigravity API error: " ++ slice_0 500 (text r))), w') /\
      requests w' =
        (requests w ++
         ((fun u => antigravity_request u accessToken projectId contents)
            <$> take (S (S j)) (baseUrl :: rest)))%list /\
      net_frame w w' /\ quotas w' = quotas w).
    { intros c0 l0.
      destruct (IH j r c0 l0 w1) as (w' & Hrun & Hreq & Hf & Hq); try done.
      - simpl in Hj. lia.
      - intros i Hi. unfold w1. rewrite next_reply_sent. apply Hbefore. lia.
      - unfold w1. by rewrite next_reply_sent.
      - exists w'. split; [done|]. split; [|split].
        + rewrite Hreq. unfold w1, sent. simpl. by rewrite <- app_assoc.
        + transitivity w1; [apply sent_net_frame|done].
        + by rewrite Hq. }
    specialize (Hbefore 0%nat ltac:(lia)). unfold moves_on in Hbefore.
    destruct (next_reply w 0) as [m|r0]; [apply Hrest|].
    destruct (status r0 =? 429); [apply Hrest|].
    simpl in Hbefore. rewrite Hbefore. apply Hrest.
Qed.

(** X21 (client errors of the extended family).  In the extended
    family the first reply of a candidate URL that is none of a
    network failure, 429, 404 and 5xx decides the attempt.  When it is
    not successful (a 400, 401 or 403, for instance), the attempt and
    the call end with the [ApiError] "Antigravity API error: <body>",
    the body cut to its first 500 UTF-16 code units (a body that has no
    more is kept whole); when it is successful but its stream holds no
    text, they end with "Empty response from Antigravity API".  The
    candidate URLs after this one are not tried, the account is not
    marked, and nothing is counted or waited for. *)
Theorem extended_client_error_ends_the_call
    (contents : list (string * list string)) (model : string) (st : LoopState)
    (w : World) (account : Account.t) (w1 : World) (projectId accessToken : string)
    (w2 : World) (j : nat) (r : Response) :
  getNextAccount w = (Ok account, w1) ->
  Account.projectId account = Some projectId ->
  truthy_string projectId = true ->
  getAccessToken (Account.id account) w1 = (Ok accessToken, w2) ->
  (j < 3)%nat ->
  (forall i, (i < j)%nat -> moves_on (next_reply w2 i) = true) ->
  next_reply w2 j = FetchResolves r ->
  status r <> 429 -> status r <> 404 -> status r < 500 ->
  (ok r = false \/ parseAntigravitySSEResponse r = "") ->
  exists w',
    callAntigravityApi_body contents model st w =
      (Throw (ApiError (if ok r then "Empty response from Antigravity API"
                        else "Antigravity API error: " ++ slice_0 500 (text r))), w') /\
    (utf16_length (slice_0 500 (text r)) <= 500)%nat /\
    ((utf16_length (text r) <= 500)%nat -> slice_0 500 (text r) = text r) /\
    requests w' =
      (requests w ++
       ((fun u => antigravity_request u accessToken projectId contents)
          <$> take (S j) ANTIGRAVITY_API_BASE_URLS))%list /\
    rateLimits w' = rateLimits w2 /\ delays w' = delays w /\ quotas w' = quotas w.
Proof.
  intros Hsel Hproj Htruthy Htok Hj Hbefore Hreply H429 H404 H500 Hcase.
  destruct (selected_unmarked _ _ _ _ _ Hsel Htok) as (_ & Hd & Hrq & _ & _ & Hq).
  rewrite (callAntigravityApi_body_eq _ _ _ _ _ _ _ _ _ Hsel Hproj Htruthy Htok).
  destruct (try_endpoints_first_error ANTIGRAVITY_API_BASE_URLS account accessToken
              projectId contents j r 0 (Fin DEFAULT_RATE_LIMIT_MS) (stamped w2))
    as (w4 & Hrun & Hreq & Hf & Hq4); try done.
  { simpl. apply Z.eqb_neq in H429, H404. rewrite H429, H404. simpl.
    destruct (status r >=? 500) eqn:E; [apply Z.geb_le in E; lia|done]. }
  destruct Hf as (_ & _ & _ & Hrl4 & _ & Hd4 & _).
  rewrite Hrun, on_error_eq. simpl. exists w4.
  split; [reflexivity|]. split; [apply slice_0_length|]. split; [apply slice_0_whole|].
  split; [by rewrite Hreq; simpl; rewrite Hrq|].
  split; [done|]. split; [by rewrite Hd4; simpl|by rewrite Hq4; simpl].
Qed.

Lemma extended_client_error_ends_the_call_witness :
  exists w',
    callAntigravityApi_body [] "gemini-3-pro" initial forbidden_world =
      (Throw (ApiError "Antigravity API error: Permission denied"), w') /\
    length (requests w') = 2%nat.
Proof.
  destruct (extended_client_error_ends_the_call [] "gemini-3-pro" initial
              forbidden_world
              (account_of "account-1" "user1@example.com" (Some "token-1") (Some 3600000)
                 (Some "project-1"))
              (getNextAccount forbidden_world).2
              "project-1" "token-1"
              (getAccessToken "account-1" (getNextAccount forbidden_world).2).2
              1%nat
              (status_response 403 None "Permission denied"))
    as (w' & Hbody & _ & _ & Hreq & _);
    [reflexivity|reflexivity|reflexivity|reflexivity|lia| |reflexivity|
     discriminate|discriminate|reflexivity|by left|].
  - intros [|i] Hi; [reflexivity|lia].
  - exists w'. split; [exact Hbody|]. rewrite Hreq. reflexivity.
Defined.

(** X22 (no account to use).  When no account of the directory can
    pass the rotator's filter (every one has a mark that has not
    expired, or the directory is empty), a generate call throws the
    rotator's [AllAccountsRateLimitedError] at once, in either
    family: no token is asked for, no request is sent, no delay is
    taken; only the clock has been read, twice. *)
Theorem generate_call_without_available_account (fuel : nat)
    (contents : list (string * list string)) (model : string) (w : World) :
  (forall b, b ∈ accounts (managerData w) ->
     available_at (clock w (reads w)) (rateLimits w) (Account.id b) = false) ->
  callApi (S fuel) contents model w =
    (Raised (AllAccountsRateLimitedError
               match earliest_of (rateLimits w) with
               | None => 0
               | Some earliest => Z.max 0 (earliest - clock w (S (reads w)))
               end),
     set_reads (S (S (reads w))) w).
Proof.
  intros Hall. pose proof (getNextAccount_all_limited w Hall) as Hsel.
  unfold callApi, callAntigravityApi, callStandardApi.
  destruct (isAntigravityModel model);
    rewrite retry_loop_step by (simpl; unfold MAX_RETRIES; lia).
  - unfold callAntigravityApi_body, bind. rewrite Hsel. reflexivity.
  - unfold callStandardApi_body, bind. rewrite Hsel. reflexivity.
Qed.

Lemma generate_call_without_available_account_witness :
  callApi 1 [("user", ["Hi"])] "gemini-2.5-flash" empty_directory_world =
  (Raised (AllAccountsRateLimitedError 0), set_reads 2 empty_directory_world).
Proof.
  rewrite (generate_call_without_available_account 0 [("user", ["Hi"])]
             "gemini-2.5-flash" empty_directory_world).
  - reflexivity.
  - intros b Hb. inversion Hb.
Defined.

Lemma clearRateLimit_clears_witness :
  isRateLimited "account-2"
    (clearRateLimit "account-2"
       (markRateLimited "account-2" (Fin 30000) partial_429_world).2).2 =
  (Ok false,
   (clearRateLimit "account-2"
      (markRateLimited "account-2" (Fin 30000) partial_429_world).2).2).
Proof.
  destruct (clearRateLimit_clears "account-2"
              (markRateLimited "account-2" (Fin 30000) partial_429_world).2)
    as (w' & Heq & _ & Hfalse & _).
  rewrite Heq. exact Hfalse.
Defined.

(** ** The chat and generate tools *)

Lemma none_limited_available w :
  rateLimits w = ∅ ->
  forall b, b ∈ accounts (managerData w) ->
    available_at (clock w (reads w)) (rateLimits w) (Account.id b) = true.
Proof. intros H b _. unfold available_at. by rewrite H, lookup_empty. Qed.

(** A successful standard call in a world where no account is marked
    and the account under the cursor has a cached token. *)
Lemma callApi_served fuel contents model w b c r data text :
  let l := accounts (managerData w) in
  rateLimits w = ∅ ->
  l !! (currentIndex w mod length l)%nat = Some b ->
  tokenCache w !! Account.id b = Some c ->
  isExpired_at (clock w (S (reads w))) (expiresAt c) = false ->
  isAntigravityModel model = false ->
  next_reply w 0 = FetchResolves r ->
  ok r = true ->
  json r = inr data ->
  (forall w0, extractStandardResponseText data w0 = (Ok text, w0)) ->
  exists w',
    callApi (S fuel) contents model w = (Returned text, w') /\
    requests w' =
      (requests w ++ [standard_request model (cached_accessToken c) contents])%list /\
    quotas w' = QuotaTracker.incrementUsage (Account.id b) (quotas w).
Proof.
  intros l Hnone Hb Hc Hfresh Hstd Hreply Hok Hjson Htext.
  pose proof (getNextAccount_none_limited w b (none_limited_available w Hnone) Hb) as Hsel.
  set (w1 := set_currentIndex _ (swept w)) in Hsel.
  assert (Htok : getAccessToken (Account.id b) w1 =
                 (Ok (cached_accessToken c), set_reads (S (reads w1)) w1)).
  { apply getAccessToken_cached; [done|]. exact Hfresh. }
  unfold callApi. rewrite Hstd. unfold callStandardApi.
  rewrite retry_loop_step by (simpl; unfold MAX_RETRIES; lia).
  rewrite (callStandardApi_body_eq _ _ _ _ _ _ _ _ Hsel Htok). cbv zeta.
  change (next_reply (set_reads (S (reads w1)) w1) 0) with (next_reply w 0).
  rewrite Hreply. destruct (ok_status r Hok) as [-> _]. rewrite Hjson, Hok. simpl.
  rewrite Htext. eexists. split; [reflexivity|]. by split.
Qed.

(** The two handlers are one: the email is asked for, and the loop
    runs, with the default model of the tool and the text of the tool
    for the case that cannot happen. *)
Lemma handler_served formatModelDisplayName unexpected fuel message used w a b c r data text :
  let l := accounts (managerData w) in
  rateLimits w = ∅ ->
  l !! (currentIndex w mod length l)%nat = Some a ->
  l !! ((currentIndex w + 1) mod length l)%nat = Some b ->
  tokenCache w !! Account.id b = Some c ->
  isExpired_at (clock w (S (S (reads w)))) (expiresAt c) = false ->
  isAntigravityModel used = false ->
  next_reply w 0 = FetchResolves r ->
  ok r = true ->
  json r = inr data ->
  (forall w0, extractStandardResponseText data w0 = (Ok text, w0)) ->
  exists w',
    match getCurrentEmail w with
    | (Throw e, w1) => (Escaped e, w1)
    | (Ok currentEmail, w1) =>
        handler_loop formatModelDisplayName (generateContent (S fuel) message (Some used))
          used unexpected (S fuel) 0 "" currentEmail w1
    end =
      (Responded
         {| response_text :=
              "[" ++ formatModelDisplayName used ++ " via " ++ Account.email a ++ "]"
              ++ LF ++ LF ++ text;
            response_isError := false |}, w') /\
    requests w' =
      (requests w ++
       [standard_request used (cached_accessToken c) [("user", [message])]])%list /\
    quotas w' = QuotaTracker.incrementUsage (Account.id b) (quotas w).
Proof.
  intros l Hnone Ha Hb Hc Hfresh Hstd Hreply Hok Hjson Htext.
  pose proof (getNextAccount_none_limited w a (none_limited_available w Hnone) Ha) as Hsel.
  set (w1 := set_currentIndex _ (swept w)) in Hsel.
  destruct (callApi_served fuel [("user", [message])] used w1 b c r data text)
    as (w' & Hcall & Hrequests & Hquotas); try done.
  { by apply swept_none_limited. }
  { simpl. by rewrite Nat.Div0.mod_mod. }
  unfold getCurrentEmail, try_catch, bind. rewrite Hsel.
  unfold ret at 1. cbn [handler_loop].
  change (0 <=? MAX_RATE_LIMIT_RETRIES) with true. cbv iota.
  unfold generateContent. cbn [nullish]. rewrite Hcall.
  exists w'. split; [reflexivity|]. by split.
Qed.

(** X23 (the account a reply names).  The chat and generate tools, as
    the server wires them, find the email for the header of their
    reply by asking the rotator for its next account, and the client
    then asks the rotator again.  So, with no account marked, the
    reply to a call that succeeds at once is labelled with the email
    of the account under the cursor, while the request was sent with
    the token of the account after it, whose usage is counted (with a
    single account the two are the same). *)
Theorem tool_reply_names_the_previous_account
    (formatModelDisplayName : string -> string) (fuel : nat) (message : string)
    (model : option string) (w : World) (a b : Account.t) (c : TokenCacheEntry)
    (r : Response) (data : GeminiResponse) (text : string) :
  let l := accounts (managerData w) in
  let used := nullish model "gemini-2.5-flash" in
  rateLimits w = ∅ ->
  l !! (currentIndex w mod length l)%nat = Some a ->
  l !! ((currentIndex w + 1) mod length l)%nat = Some b ->
  tokenCache w !! Account.id b = Some c ->
  isExpired_at (clock w (S (S (reads w)))) (expiresAt c) = false ->
  isAntigravityModel used = false ->
  next_reply w 0 = FetchResolves r ->
  ok r = true ->
  json r = inr data ->
  (forall w0, extractStandardResponseText data w0 = (Ok text, w0)) ->
  let reply :=
    Responded
      {| response_text :=
           "[" ++ formatModelDisplayName used ++ " via " ++ Account.email a ++ "]"
           ++ LF ++ LF ++ text;
         response_isError := false |} in
  let request := standard_request used (cached_accessToken c) [("user", [message])] in
  (exists w',
     handleChat formatModelDisplayName (S fuel) message model w = (reply, w') /\
     requests w' = (requests w ++ [request])%list /\
     quotas w' = QuotaTracker.incrementUsage (Account.id b) (quotas w)) /\
  (exists w',
     handleGenerateContent formatModelDisplayName (S fuel) message model w = (reply, w') /\
     requests w' = (requests w ++ [request])%list /\
     quotas w' = QuotaTracker.incrementUsage (Account.id b) (quotas w)).
Proof.
  intros l used Hnone Ha Hb Hc Hfresh Hstd Hreply Hok Hjson Htext reply request.
  split.
  - apply (handler_served formatModelDisplayName "Error: Unexpected error in chat handler"
             fuel message used w a b c r data text); done.
  - apply (handler_served formatModelDisplayName
             "Error: Unexpected error in generate handler"
             fuel message used w a b c r data text); done.
Qed.

Lemma tool_reply_names_the_previous_account_witness :
  exists w',
    handleChat (fun model => model) 1 "Hi" None chat_world =
      (Responded
         {| response_text :=
              "[gemini-2.5-flash via user1@example.com]" ++ LF ++ LF ++ "Hello";
            response_isError := false |}, w') /\
    requests w' = [standard_request "gemini-2.5-flash" "token-2" [("user", ["Hi"])]].
Proof.
  destruct (tool_reply_names_the_previous_account (fun model => model) 0 "Hi" None
              chat_world
              (account_of "account-1" "user1@example.com" (Some "token-1") (Some 3600000)
                 (Some "project-1"))
              (account_of "account-2" "user2@example.com" (Some "token-2") (Some 3600000)
                 (Some "project-2"))
              {| cached_accessToken := "token-2"; expiresAt := 3600000 |}
              (text_response ["Hello"])
              {| candidates :=
                   Some [ {| content :=
                               Some {| parts := Some [ {| part_text := Some "Hello" |} ] |} |} ];
                 error := None |}
              "Hello")
    as [(w' & Hreply & Hrequests & _) _]; try reflexivity.
  exists w'. split; [exact Hreply|exact Hrequests].
Defined.

Lemma handler_escapes formatModelDisplayName unexpected fuel message used w :
  (forall b k, b ∈ accounts (managerData w) -> (reads w <= k)%nat ->
     available_at (clock w k) (rateLimits w) (Account.id b) = false) ->
  exists retryAfterMs w',
    match getCurrentEmail w with
    | (Throw e, w1) => (Escaped e, w1)
    | (Ok currentEmail, w1) =>
        handler_loop formatModelDisplayName (generateContent (S fuel) message (Some used))
          used unexpected (S fuel) 0 "" currentEmail w1
    end = (Escaped (AllAccountsRateLimitedError retryAfterMs), w') /\
    requests w' = requests w /\ tokenRequests w' = tokenRequests w.
Proof.
  intros Hall.
  assert (Hsel : forall n,
            getNextAccount (set_reads (n + reads w) w) =
            (Throw (AllAccountsRateLimitedError
                      match earliest_of (rateLimits w) with
                      | None => 0
                      | Some earliest => Z.max 0 (earliest - clock w (S (n + reads w)))
                      end),
             set_reads (S (S (n + reads w))) w)).
  { intros n. rewrite getNextAccount_all_limited; [done|].
    intros b Hb. apply Hall; [done|simpl; lia]. }
  assert (Hw : set_reads (0 + reads w) w = w) by (by destruct w).
  pose proof (Hsel 0%nat) as Hsel0. rewrite Hw in Hsel0.
  unfold getCurrentEmail, try_catch, bind.
  rewrite Hsel0. unfold ret. cbn [handler_loop].
  change (0 <=? MAX_RATE_LIMIT_RETRIES) with true. cbv iota.
  unfold generateContent, callApi, callStandardApi, callAntigravityApi.
  change (S (S (0 + reads w))) with (2 + reads w)%nat.
  destruct (isAntigravityModel _);
    rewrite retry_loop_step by (simpl; unfold MAX_RETRIES; lia);
    [unfold callAntigravityApi_body|unfold callStandardApi_body];
    unfold bind at 1; rewrite Hsel; cbn [instanceof_RateLimitError];
    change (0 + 1 >? MAX_RATE_LIMIT_RETRIES) with false; cbv iota;
    change (S (S (2 + reads w))) with (4 + reads w)%nat; rewrite Hsel;
    by eexists _, _.
Qed.

(** X24 (the tools when every account is limited).  When every
    account of the directory is marked, and stays so for the clock
    readings to come, the chat and generate tools do not answer with
    their message "All accounts are rate limited": the error of the
    client is caught, but the handler then asks the rotator for the
    next account outside any [try], and the
    [AllAccountsRateLimitedError] of that call leaves the handler.
    Nothing was sent, neither to the generation endpoints nor to the
    token endpoint. *)
Theorem tools_with_every_account_limited_throw
    (formatModelDisplayName : string -> string) (fuel : nat) (message : string)
    (model : option string) (w : World) :
  (forall b k, b ∈ accounts (managerData w) -> (reads w <= k)%nat ->
     available_at (clock w k) (rateLimits w) (Account.id b) = false) ->
  (exists retryAfterMs w',
     handleChat formatModelDisplayName (S fuel) message model w =
       (Escaped (AllAccountsRateLimitedError retryAfterMs), w') /\
     requests w' = requests w /\ tokenRequests w' = tokenRequests w) /\
  (exists retryAfterMs w',
     handleGenerateContent formatModelDisplayName (S fuel) message model w =
       (Escaped (AllAccountsRateLimitedError retryAfterMs), w') /\
     requests w' = requests w /\ tokenRequests w' = tokenRequests w).
Proof.
  intros Hall. split.
  - by apply (handler_escapes formatModelDisplayName
                "Error: Unexpected error in chat handler").
  - by apply (handler_escapes formatModelDisplayName
                "Error: Unexpected error in generate handler").
Qed.

Lemma tools_with_every_account_limited_throw_witness :
  exists w',
    handleChat (fun model => model) 1 "Hi" None all_marked_world =
      (Escaped (AllAccountsRateLimitedError 60000), w').
Proof.
  destruct (tools_with_every_account_limited_throw (fun model => model) 0 "Hi" None
              all_marked_world) as [(ms & w' & H & _) _].
  - intros b k Hb _. apply list_elem_of_In in Hb. simpl in Hb.
    destruct Hb as [<- | [<- | [<- | []]]]; reflexivity.
  - exists w'. rewrite H. vm_compute in H. injection H as <- _. reflexivity.
Defined.

(** ** Removing an account with the tool *)

(** X25 (the last account stays).  [handleAuthRemove] always answers,
    and never leaves the directory empty: a directory that holds an
    account holds one afterwards.  It looks the account up by id
    first and, when no account has this id, by email, letter case
    apart.  When it answers with an error (no such account, or the
    account is the only one), nothing has changed.  Otherwise exactly
    one account is gone, the first one with the id of the account
    found, and the answer names the email of the account found and
    the number of accounts that remain. *)
Theorem auth_remove_keeps_an_account (toLowerCase : string -> string)
    (account_id : string) (w : World) :
  exists response w',
    handleAuthRemove toLowerCase account_id w = (Ok response, w') /\
    (accounts (managerData w) <> [] -> accounts (managerData w') <> []) /\
    if response_isError response then w' = w
    else
      exists target index removed,
        match find_account account_id (accounts (managerData w)) with
        | Some a => Some a
        | None => List.find (same_email toLowerCase account_id) (accounts (managerData w))
        end = Some target /\
        accounts (managerData w) !! index = Some removed /\
        Account.id removed = Account.id target /\
        accounts (managerData w') = delete index (accounts (managerData w)) /\
        response_text response =
          formatRemoveSuccess (Account.email target)
            (length (accounts (managerData w)) - 1).
Proof.
  unfold handleAuthRemove, try_catch, bind, gets, manager_getAccounts, manager_getAccount.
  simpl.
  destruct (match find_account account_id (accounts (managerData w)) with
            | Some a => Some a
            | None => List.find (same_email toLowerCase account_id) (accounts (managerData w))
            end) as [target|] eqn:Htarget.
  2:{ eexists _, _. split; [reflexivity|]. simpl. by split. }
  destruct (length (accounts (managerData w)) =? 1)%nat eqn:Hone.
  { eexists _, _. split; [reflexivity|]. simpl. by split. }
  unfold removeAccount, bind, gets. simpl.
  destruct (findIndex_account (Account.id target) (accounts (managerData w)))
    as [index|] eqn:Hi; simpl.
  2:{ eexists _, _. split; [reflexivity|]. simpl. by split. }
  destruct (findIndex_account_lookup _ _ _ Hi) as (removed & Hremoved & Hid).
  apply Nat.eqb_neq in Hone.
  assert (Hlen : length (delete index (accounts (managerData w))) =
                 (length (accounts (managerData w)) - 1)%nat).
  { rewrite length_delete; [lia|]. by eexists. }
  eexists _, _. split; [reflexivity|]. simpl. split.
  - intros _ Hnil. rewrite Hnil in Hlen. simpl in Hlen.
    apply lookup_lt_Some in Hremoved. lia.
  - exists target, index, removed. rewrite Hlen. by repeat split.
Qed.

Lemma auth_remove_keeps_an_account_witness :
  exists w',
    handleAuthRemove lower_string "USER2@EXAMPLE.COM" partial_429_world =
      (Ok {| response_text := formatRemoveSuccess "user2@example.com" 2;
             response_isError := false |}, w') /\
    Account.id <$> accounts (managerData w') = ["account-1"; "account-3"].
Proof.
  destruct (auth_remove_keeps_an_account lower_string "USER2@EXAMPLE.COM"
              partial_429_world) as (response & w' & Heq & _).
  exists w'. rewrite Heq. vm_compute in Heq. injection Heq as <- <-.
  split; reflexivity.
Defined.

(** ** A 429 that asks to retry at once *)

Lemma updateAccountStatus_more accountId st w :
  let w' := (updateAccountStatus accountId st w).2 in
  tokenCache w' = tokenCache w /\ (reads w <= reads w')%nat /\
  Account.id <$> accounts (managerData w') = Account.id <$> accounts (managerData w).
Proof.
  cbv zeta. split; [|split].
  - unfold updateAccountStatus, bind, gets. simpl.
    destruct (findIndex_account accountId (accounts (managerData w))) as [i|]; simpl; [|done].
    by destruct (accounts (managerData w) !! i).
  - unfold updateAccountStatus, bind, gets. simpl.
    destruct (findIndex_account accountId (accounts (managerData w))) as [i|]; simpl; [|done].
    destruct (accounts (managerData w) !! i); simpl; lia.
  - by destruct (updateAccountStatus_accounts accountId st w) as (Hids & _).
Qed.

Lemma markRateLimited_more accountId ms w :
  let w' := (markRateLimited accountId ms w).2 in
  tokenCache w' = tokenCache w /\ (S (reads w) <= reads w')%nat /\
  Account.id <$> accounts (managerData w') = Account.id <$> accounts (managerData w).
Proof.
  cbv zeta. unfold markRateLimited, bind, Date_now, modify, try_catch. simpl.
  set (w0 := set_rateLimits _ _).
  pose proof (updateAccountStatus_more accountId StatusLimited w0) as (Ht & Hr & Hi).
  destruct (updateAccountStatus accountId StatusLimited w0) as [[[]|e] w1];
    simpl in Ht, Hr, Hi; unfold toISOString, ret, throw; simpl;
    destruct (valid_time _); simpl; (split; [done|split; [lia|done]]).
Qed.

(** One turn of the loop in such a world: an account is selected, its
    token taken from the cache, a request sent, the account marked
    for 0 ms, and the loop goes on with its variables as they were,
    in a world of the same kind. *)
Lemma retried_at_once_step contents model st w :
  retried_at_once w ->
  exists w',
    callStandardApi_body contents model st w = (Ok (Continue st), w') /\
    retried_at_once w' /\ delays w' = delays w /\
    length (requests w') = S (length (requests w)).
Proof.
  intros (Hmono & Hvalid & Hne & Htokens & Hmarks & Hreplies).
  assert (Hav : forall a, a ∈ accounts (managerData w) ->
            available_at (clock w (reads w)) (rateLimits w) (Account.id a) = true).
  { intros a _. unfold available_at.
    destruct (rateLimits w !! Account.id a) as [e|] eqn:He; [|done].
    destruct (Hmarks _ _ He) as (z & -> & Hz). unfold num_geb. by apply Z.leb_le. }
  assert (exists a0, a0 ∈ accounts (managerData w)) as (a0 & Ha0).
  { destruct (accounts (managerData w)) as [|a0 l0]; [done|]. exists a0. by left. }
  destruct (getNextAccount_some w a0) as (account & w1 & Hsel); [done|by apply Hav|].
  destruct (getNextAccount_ok _ _ _ Hsel) as (Hacc & _ & _ & Hsub & c & Hw1).
  clear a0 Ha0.
  destruct (Htokens account Hacc) as (entry & Hentry & Hfresh).
  assert (Htok : getAccessToken (Account.id account) w1 =
                 (Ok (cached_accessToken entry), set_reads (S (reads w1)) w1)).
  { apply getAccessToken_cached; rewrite Hw1; [done|apply Hfresh]. }
  rewrite (callStandardApi_body_eq _ _ _ _ _ _ _ _ Hsel Htok). cbv zeta.
  set (w3 := sent _ _).
  assert (Hr3 : forall i, next_reply w3 i = next_reply w (S i)).
  { intros i. unfold w3. rewrite next_reply_sent. by rewrite Hw1. }
  change (next_reply (set_reads (S (reads w1)) w1) 0) with (next_reply w1 0).
  replace (next_reply w1 0) with (next_reply w 0) by (by rewrite Hw1).
  destruct (Hreplies 0%nat) as (r & -> & Hstatus & Hms). rewrite Hstatus, Hms. simpl.
  destruct (markRateLimited_spec (Account.id account) (Fin 0) w3)
    as (w4 & Hmark & Hrl & Hd & Hrq & Hc & Hu & _).
  pose proof (markRateLimited_more (Account.id account) (Fin 0) w3) as (Htc & Hreads & Hids).
  rewrite Hmark in Htc, Hreads, Hids. simpl in Htc, Hreads, Hids.
  rewrite Hmark.
  assert (Hclock3 : clock w3 = clock w) by (unfold w3; simpl; by rewrite Hw1).
  assert (Hreads3 : (reads w <= reads w3)%nat) by (unfold w3; simpl; rewrite Hw1; simpl; lia).
  unfold num_add. rewrite Hclock3, Z.add_0_r, Hvalid.
  exists w4. split; [reflexivity|]. split; [|split].
  - split; [by rewrite Hc, Hclock3|]. split; [by rewrite Hc, Hclock3|].
    assert (Hids4 : Account.id <$> accounts (managerData w4) =
                    Account.id <$> accounts (managerData w)).
    { rewrite Hids. unfold w3. simpl. by rewrite Hw1. }
    split.
    { intros Hnil. rewrite Hnil in Hids4. symmetry in Hids4.
      by apply fmap_nil_inv in Hids4. }
    split.
    { intros a Ha.
      assert (Account.id a ∈ Account.id <$> accounts (managerData w)) as Hin
        by (rewrite <- Hids4; apply list_elem_of_fmap; eauto).
      apply list_elem_of_fmap in Hin as (a' & Hid & Ha').
      destruct (Htokens a' Ha') as (c' & Hc' & Hf'). exists c'.
      rewrite Hid, Htc, Hc, Hclock3. unfold w3. simpl. rewrite Hw1. by split. }
    split.
    { intros k e. rewrite Hrl, Hc, Hclock3.
      assert (Hle : clock w (reads w3) <= clock w (reads w4)) by (apply Hmono; revert Hreads; unfold w3; simpl; lia).
      destruct (decide (k = Account.id account)) as [->|Hk].
      - rewrite lookup_insert_eq. intros [= <-]. simpl.
        unfold num_add. rewrite Z.add_0_r. eexists. split; [reflexivity|].
        apply Hmono. lia.
      - rewrite lookup_insert_ne by done. unfold w3. simpl. intros He.
        assert (rateLimits w !! k = Some e) as He'.
        { eapply lookup_weaken; [|exact Hsub]. by rewrite Hw1 in He |- *. }
        destruct (Hmarks _ _ He') as (z & Hz & Hzle). exists z. split; [done|].
        assert (clock w (reads w) <= clock w (reads w3)) by (by apply Hmono). lia. }
    intros i. unfold next_reply. rewrite Hu, Hrq.
    destruct (Hreplies (S i)) as (r' & Hr' & Hs' & Hm'). exists r'.
    rewrite <- Hr3 in Hr'. by split.
  - rewrite Hd. unfold w3. simpl. by rewrite Hw1.
  - rewrite Hrq. unfold w3. simpl. rewrite length_app, Hw1. simpl. lia.
Qed.

(** X26 (a 429 that asks to retry at once).  In the standard family a
    429 is not counted against the retry budget and no delay is taken
    for it.  So when the upstream answers every request with a 429
    whose [Retry-After] is 0 seconds (tokens cached, clock not running
    backwards, no mark reaching into the future), the account marked
    is available again at the next turn and the call never ends:
    whatever the number of turns, the loop is still running with its
    variables as at the start, one request has been sent per turn and
    no delay has been taken. *)
Theorem standard_retry_after_zero_never_ends
    (contents : list (string * list string)) (model : string) (w : World) (turns : nat) :
  isAntigravityModel model = false ->
  retried_at_once w ->
  exists w',
    callApi turns contents model w = (Running initial, w') /\
    delays w' = delays w /\
    length (requests w') = (turns + length (requests w))%nat.
Proof.
  intros Hmodel. unfold callApi, callStandardApi. rewrite Hmodel.
  revert w. induction turns as [|turns IH]; intros w Hw.
  - exists w. by repeat split.
  - rewrite retry_loop_step by (unfold initial, MAX_RETRIES; simpl; lia).
    destruct (retried_at_once_step contents model initial w Hw)
      as (w1 & -> & Hw1 & Hd1 & Hr1).
    destruct (IH w1 Hw1) as (w' & Hrun & Hd & Hr). exists w'.
    split; [done|]. split; [congruence|]. rewrite Hr, Hr1. lia.
Qed.

Lemma standard_retry_after_zero_never_ends_witness :
  exists w',
    callApi 7 [("user", ["Hello"])] "gemini-2.5-flash" retry_at_once_world =
      (Running initial, w') /\
    delays w' = [] /\ length (requests w') = 7%nat.
Proof.
  apply (standard_retry_after_zero_never_ends [("user", ["Hello"])] "gemini-2.5-flash"
           retry_at_once_world 7).
  - reflexivity.
  - split; [intros; simpl; lia|]. split; [intros; reflexivity|].
    split; [discriminate|]. split.
    + intros a Ha. simpl in Ha. unfold three_accounts in Ha.
      repeat (apply elem_of_cons in Ha as [-> | Ha]);
        [eexists; split; [reflexivity|intros; reflexivity]..|].
      by apply elem_of_nil in Ha.
    + split; [intros k e Hk; simpl in Hk; by rewrite lookup_empty in Hk|].
      intros i. eexists. split; [reflexivity|]. split; reflexivity.
Defined.
